(** * Piano MIDI optimizer: a shallow embedding of [piano-midi-optimizer.js]

    The development follows the source file function by function.

    - Numbers.  A pitch ([midi]), a channel, a ceiling and a note count are
      JavaScript numbers holding integers and are modelled in [Z].  A time
      or a duration is a number of seconds and is modelled as an exact
      rational in [Q]; [===] on times is [Qeq_bool].  NaN and the infinities
      are outside the model.
    - Values.  The classifier and the distributor only build fresh objects
      from the fields they read, so they are modelled on lists of records.
    - Objects.  The balancer ([optimizeSimultaneousNotes]) mutates arrays in
      place and compares note objects by reference ([indexOf]); it is
      modelled over an explicit heap of objects and arrays. *)

From Stdlib Require Import ZArith QArith Lia Lqa.
From stdpp Require Import base list sorting strings pretty.

Local Open Scope Z_scope.

(** ** Data model *)

(** A note as the pipeline reads it.  [velocity] is [None] when the field is
    absent ([undefined]). *)
Record Note := mkNote {
  midi : Z;
  time : Q;
  duration : Q;
  velocity : option Z
}.

(** [v || 64]: the left operand when it is truthy, else 64.  [undefined]
    and [0] are the falsy velocities. *)
Definition velocity_or_64 (v : option Z) : Z :=
  match v with
  | None => 64
  | Some x => if x =? 0 then 64 else x
  end.

(** The object literal
    [{ midi: note.midi, time: note.time, duration: note.duration,
       velocity: note.velocity || 64 }]
    that the classifier, the distributor and the emitter all build. *)
Definition copyNote (note : Note) : Note :=
  {| midi := midi note;
     time := time note;
     duration := duration note;
     velocity := Some (velocity_or_64 (velocity note)) |}.

Inductive Role := melody | bass | harmony | unknown.

Definition Role_eqb (a b : Role) : bool :=
  match a, b with
  | melody, melody | bass, bass | harmony, harmony | unknown, unknown => true
  | _, _ => false
  end.

(** A track as the parsing library hands it over. *)
Module Raw.
Record Track := mkTrack {
  name : string;
  channel : Z;
  notes : list Note
}.
End Raw.

(** An element of [analyzedTracks]. *)
Module Analyzed.
Record Track := mkTrack {
  index : nat;
  name : string;
  notes : list Note;
  avgPitch : Q;
  trackRole : Role;
  noteCount : Z
}.
End Analyzed.

Record Config := mkConfig {
  maxRightHandNotes : Z;
  maxLeftHandNotes : Z;
  splitPoint : Z;
  dynamicSplitPoint : bool;
  preserveMelody : bool;
  preserveBass : bool
}.

Record Arrangement := mkArrangement {
  rightHand : list Note;
  leftHand : list Note
}.

(** ** Array idioms of the source *)

(** [xs.forEach(x => acc.push(f x))] on a growing array [acc]. *)
Definition push {A} (acc : list A) (x : A) : list A := acc ++ [x].

Definition Qltb (a b : Q) : bool := negb (Qle_bool b a).

(** [Array.prototype.sort(cmp)]: the language requires a stable sort, and
    for a consistent comparator the result is the only stable arrangement
    ordered by [cmp]; insertion from the right computes it.  [nonpos x y]
    is the test [cmp(x, y) <= 0]. *)
Fixpoint sort_insert {A} (nonpos : A -> A -> bool) (x : A) (l : list A) : list A :=
  match l with
  | [] => [x]
  | y :: l' =>
      if nonpos x y then x :: y :: l' else y :: sort_insert nonpos x l'
  end.

Definition js_sort {A} (nonpos : A -> A -> bool) (l : list A) : list A :=
  foldr (sort_insert nonpos) [] l.

(** ** Track classifier: [analyzeMidiTracks] *)

(** [pitches.reduce((sum, pitch) => sum + pitch, 0) / pitches.length] *)
Definition averagePitch (pitches : list Z) : Q :=
  let sum := fold_left Z.add pitches 0 in
  let len := Z.of_nat (length pitches) in
  (inject_Z sum / inject_Z len)%Q.

Definition classify (avg : Q) : Role :=
  let trackRole := unknown in
  if Qltb 65 avg then melody
  else if Qltb avg 52 then bass
  else harmony.

(** The body of the [forEach] callback: [None] is the early [return] that
    skips an empty or a drum track. *)
Definition analyzeTrack (i : nat) (track : Raw.Track) : option Analyzed.Track :=
  if (Nat.eqb (length (Raw.notes track)) 0) || (Raw.channel track =? 9) then None
  else
    let pitches := map midi (Raw.notes track) in
    let avg := averagePitch pitches in
    Some {| Analyzed.index := i;
            Analyzed.name :=
              if String.eqb (Raw.name track) "" then "Track " +:+ pretty i
              else Raw.name track;
            Analyzed.notes := map copyNote (Raw.notes track);
            Analyzed.avgPitch := avg;
            Analyzed.trackRole := classify avg;
            Analyzed.noteCount := Z.of_nat (length (Raw.notes track)) |}.

Definition analyzeStep (acc : list Analyzed.Track) (it : nat * Raw.Track)
  : list Analyzed.Track :=
  match analyzeTrack (fst it) (snd it) with
  | None => acc
  | Some a => push acc a
  end.

Definition analyzeMidiTracks (tracks : list Raw.Track) : list Analyzed.Track :=
  fold_left analyzeStep (imap pair tracks) [].

(** ** Initial hand distributor: [createPianoArrangement] *)

(** The comparator handed to [sort]. *)
Definition compareTracks (a b : Analyzed.Track) : Z :=
  let ra := Analyzed.trackRole a in
  let rb := Analyzed.trackRole b in
  if Role_eqb ra melody && negb (Role_eqb rb melody) then -1
  else if negb (Role_eqb ra melody) && Role_eqb rb melody then 1
  else if Role_eqb ra bass && negb (Role_eqb rb bass) then -1
  else if negb (Role_eqb ra bass) && Role_eqb rb bass then 1
  else Analyzed.noteCount b - Analyzed.noteCount a.

Definition sortedTracks (analyzedTracks : list Analyzed.Track) : list Analyzed.Track :=
  js_sort (fun a b => compareTracks a b <=? 0) analyzedTracks.

(** An element of [allNotes]: the four note fields and the owner's role. *)
Record TaggedNote := mkTagged {
  note_of : Note;
  trackRole : Role
}.

Definition tagNote (role : Role) (note : Note) : TaggedNote :=
  {| note_of := copyNote note; trackRole := role |}.

Definition collectTrack (allNotes : list TaggedNote) (track : Analyzed.Track)
  : list TaggedNote :=
  fold_left (fun acc note => push acc (tagNote (Analyzed.trackRole track) note))
            (Analyzed.notes track) allNotes.

Definition collectNotes (sorted : list Analyzed.Track) : list TaggedNote :=
  fold_left collectTrack sorted [].

(** [note.trackRole === 'melody' || note.midi >= config.splitPoint] *)
Definition goesRight (config : Config) (note : TaggedNote) : bool :=
  Role_eqb (trackRole note) melody || (splitPoint config <=? midi (note_of note)).

Definition distributeStep (config : Config) (hands : list Note * list Note)
  (note : TaggedNote) : list Note * list Note :=
  if goesRight config note
  then (push (fst hands) (copyNote (note_of note)), snd hands)
  else (fst hands, push (snd hands) (copyNote (note_of note))).

Definition distribute (config : Config) (allNotes : list TaggedNote)
  : list Note * list Note :=
  fold_left (distributeStep config) allNotes ([], []).

Definition createPianoArrangement (analyzedTracks : list Analyzed.Track)
  (config : Config) : Arrangement :=
  let allNotes := collectNotes (sortedTracks analyzedTracks) in
  let hands := distribute config allNotes in
  {| rightHand := fst hands; leftHand := snd hands |}.

(** ** The object heap

    Note objects and arrays of note references live in a heap and are named
    by their position in it.  Allocation appends; an array is updated in
    place. *)

Abbreviation ref := nat.

Record Heap := mkHeap {
  objects : list Note;
  arrays : list (list ref)
}.

(** [ReduceOfEmpty] is the [TypeError] of [reduce] on an empty array with no
    initial value.  [BadReference] is an access through a reference that
    names nothing in the heap. *)
Inductive Error := ReduceOfEmpty | BadReference.

Inductive Outcome (A : Type) :=
| Returns (a : A) (h : Heap)
| Throws (e : Error) (h : Heap)
| OutOfFuel.
Arguments Returns {A} a h.
Arguments Throws {A} e h.
Arguments OutOfFuel {A}.

Definition M (A : Type) : Type := Heap -> Outcome A.

Definition ret {A} (a : A) : M A := fun h => Returns a h.

Definition bind {A B} (m : M A) (k : A -> M B) : M B := fun h =>
  match m h with
  | Returns a h' => k a h'
  | Throws e h' => Throws e h'
  | OutOfFuel => OutOfFuel
  end.

Notation "'let*' x := m 'in' k" := (bind m (fun x => k))
  (at level 10, x name, m at level 100, k at level 200).
Notation "m >> k" := (bind m (fun _ => k))
  (at level 100, k at level 200, right associativity).

Definition throw {A} (e : Error) : M A := fun h => Throws e h.

Definition newObject (n : Note) : M ref := fun h =>
  Returns (length (objects h))
          {| objects := objects h ++ [n]; arrays := arrays h |}.

Definition readObject (r : ref) : M Note := fun h =>
  match objects h !! r with
  | Some n => Returns n h
  | None => Throws BadReference h
  end.

Definition newArray (xs : list ref) : M ref := fun h =>
  Returns (length (arrays h))
          {| objects := objects h; arrays := arrays h ++ [xs] |}.

Definition readArray (a : ref) : M (list ref) := fun h =>
  match arrays h !! a with
  | Some xs => Returns xs h
  | None => Throws BadReference h
  end.

Definition writeArray (a : ref) (xs : list ref) : M unit := fun h =>
  match arrays h !! a with
  | Some _ => Returns tt {| objects := objects h; arrays := <[a := xs]> (arrays h) |}
  | None => Throws BadReference h
  end.

(** *** Monadic iteration *)

Fixpoint forM {A} (f : A -> M unit) (l : list A) : M unit :=
  match l with
  | [] => ret tt
  | x :: l' => f x >> forM f l'
  end.

Fixpoint mapM' {A B} (f : A -> M B) (l : list A) : M (list B) :=
  match l with
  | [] => ret []
  | x :: l' => let* y := f x in let* ys := mapM' f l' in ret (y :: ys)
  end.

Fixpoint filterM {A} (p : A -> M bool) (l : list A) : M (list A) :=
  match l with
  | [] => ret []
  | x :: l' => let* b := p x in let* ys := filterM p l' in ret (if b then x :: ys else ys)
  end.

(** [some] stops at the first element that satisfies the test. *)
Fixpoint someM {A} (p : A -> M bool) (l : list A) : M bool :=
  match l with
  | [] => ret false
  | x :: l' => let* b := p x in if b then ret true else someM p l'
  end.

Fixpoint foldM {A B} (f : B -> A -> M B) (acc : B) (l : list A) : M B :=
  match l with
  | [] => ret acc
  | x :: l' => let* acc' := f acc x in foldM f acc' l'
  end.

(** [while (cond) body]: [fuel] bounds the number of times the condition is
    evaluated. *)
Fixpoint while (fuel : nat) (cond : M bool) (body : M unit) : M unit :=
  match fuel with
  | O => fun _ => OutOfFuel
  | S fuel' => let* c := cond in if c then body >> while fuel' cond body else ret tt
  end.

(** *** Array methods

    The callbacks of this program never change the array they iterate over,
    so an iteration reads the array once. *)

Definition array_length (a : ref) : M Z :=
  let* xs := readArray a in ret (Z.of_nat (length xs)).

Definition array_push (a : ref) (x : ref) : M unit :=
  let* xs := readArray a in writeArray a (push xs x).

Definition array_map (f : ref -> M ref) (a : ref) : M ref :=
  let* xs := readArray a in let* ys := mapM' f xs in newArray ys.

Definition array_filter (p : ref -> M bool) (a : ref) : M ref :=
  let* xs := readArray a in let* ys := filterM p xs in newArray ys.

Definition array_some (p : ref -> M bool) (a : ref) : M bool :=
  let* xs := readArray a in someM p xs.

Definition array_forEach (f : ref -> M unit) (a : ref) : M unit :=
  let* xs := readArray a in forM f xs.

(** [arr.reduce(f)] with no initial value. *)
Definition array_reduce (f : ref -> ref -> M ref) (a : ref) : M ref :=
  let* xs := readArray a in
  match xs with
  | [] => throw ReduceOfEmpty
  | x :: rest => foldM f x rest
  end.

(** [arr.indexOf(x)]: the first position holding the same reference, or -1. *)
Fixpoint indexOf_from (i : Z) (x : ref) (xs : list ref) : Z :=
  match xs with
  | [] => -1
  | y :: ys => if Nat.eqb y x then i else indexOf_from (i + 1) x ys
  end.

Definition array_indexOf (a : ref) (x : ref) : M Z :=
  let* xs := readArray a in ret (indexOf_from 0 x xs).

(** [arr.splice(start, 1)]: a negative [start] counts from the end. *)
Definition splice1 (start : Z) (xs : list ref) : list ref :=
  let len := Z.of_nat (length xs) in
  let from := if start <? 0 then Z.max (len + start) 0 else Z.min start len in
  delete (Z.to_nat from) xs.

Definition array_splice1 (a : ref) (start : Z) : M unit :=
  let* xs := readArray a in writeArray a (splice1 start xs).

(** [[...a, ...b]] *)
Definition array_concat (a b : ref) : M ref :=
  let* xs := readArray a in let* ys := readArray b in newArray (xs ++ ys).

(** [{...note}] *)
Definition copyObject (r : ref) : M ref :=
  let* n := readObject r in newObject n.

(** ** Time-slice builder: [createTimeSlices] *)

Module Slice.
Record TimeSlice := mkSlice {
  startTime : Q;
  endTime : Q;
  duration : Q;
  notes : ref
}.
End Slice.

(** [timePoints.add(t)] on a [Set] of numbers, kept in insertion order. *)
Definition set_add (timePoints : list Q) (t : Q) : list Q :=
  if existsb (Qeq_bool t) timePoints then timePoints else push timePoints t.

Definition addTimePoints (timePoints : list Q) (r : ref) : M (list Q) :=
  let* note := readObject r in
  ret (set_add (set_add timePoints (time note)) (time note + duration note)%Q).

(** [note.time <= startTime && note.time + note.duration >= endTime] *)
Definition covers (startTime endTime : Q) (r : ref) : M bool :=
  let* note := readObject r in
  let noteEnd := (time note + duration note)%Q in
  ret (Qle_bool (time note) startTime && Qle_bool endTime noteEnd).

(** The pairs [(sorted[i], sorted[i + 1])] for [i < sorted.length - 1]. *)
Fixpoint adjacent (sorted : list Q) : list (Q * Q) :=
  match sorted with
  | a :: (b :: _) as rest => (a, b) :: adjacent rest
  | _ => []
  end.

Definition makeSlice (notes : ref) (bounds : Q * Q) : M Slice.TimeSlice :=
  let startTime := fst bounds in
  let endTime := snd bounds in
  let* activeNotes := array_filter (covers startTime endTime) notes in
  ret {| Slice.startTime := startTime;
         Slice.endTime := endTime;
         Slice.duration := (endTime - startTime)%Q;
         Slice.notes := activeNotes |}.

Definition createTimeSlices (notes : ref) : M (list Slice.TimeSlice) :=
  let* ns := readArray notes in
  let* timePoints := foldM addTimePoints [] ns in
  let sortedTimePoints := js_sort (fun a b => Qle_bool (a - b) 0) timePoints in
  mapM' (makeSlice notes) (adjacent sortedTimePoints).

(** ** Polyphony balancer: [optimizeSimultaneousNotes] *)

(** [(a, b) => a.midi < b.midi ? a : b] *)
Definition lowerNote (a b : ref) : M ref :=
  let* na := readObject a in
  let* nb := readObject b in
  ret (if midi na <? midi nb then a else b).

(** [(a, b) => a.midi > b.midi ? a : b] *)
Definition higherNote (a b : ref) : M ref :=
  let* na := readObject a in
  let* nb := readObject b in
  ret (if midi na >? midi nb then a else b).

(** The body of either [while] loop: pick a note of [from] with [pick],
    splice it out and push it onto [to]. *)
Definition moveNote (pick : ref -> ref -> M ref) (from to : ref) : M unit :=
  let* chosen := array_reduce pick from in
  let* i := array_indexOf from chosen in
  array_splice1 from i >>
  array_push to chosen.

Definition exceeds (a : ref) (ceiling : Z) : M bool :=
  let* n := array_length a in ret (n >? ceiling).

Definition rebalance (fuel : nat) (config : Config)
  (simultaneousRight simultaneousLeft : ref) : M unit :=
  while fuel (exceeds simultaneousRight (maxRightHandNotes config))
        (moveNote lowerNote simultaneousRight simultaneousLeft) >>
  while fuel (exceeds simultaneousLeft (maxLeftHandNotes config))
        (moveNote higherNote simultaneousLeft simultaneousRight).

(** [n => n.time === note.time && n.midi === note.midi] *)
Definition sameTimeAndPitch (note : ref) (n : ref) : M bool :=
  let* o := readObject n in
  let* this := readObject note in
  ret (Qeq_bool (time o) (time this) && (midi o =? midi this)).

Definition mergeNote (optimized : ref) (note : ref) : M unit :=
  let* seen := array_some (sameTimeAndPitch note) optimized in
  if negb seen
  then let* fresh := copyObject note in array_push optimized fresh
  else ret tt.

Definition processSlice (fuel : nat) (config : Config)
  (rightHandCopy leftHandCopy optimizedRight optimizedLeft : ref)
  (slice : Slice.TimeSlice) : M unit :=
  let active := covers (Slice.startTime slice) (Slice.endTime slice) in
  let* simultaneousRight := array_filter active rightHandCopy in
  let* simultaneousLeft := array_filter active leftHandCopy in
  rebalance fuel config simultaneousRight simultaneousLeft >>
  array_forEach (mergeNote optimizedRight) simultaneousRight >>
  array_forEach (mergeNote optimizedLeft) simultaneousLeft.

Definition optimizeSimultaneousNotes (fuel : nat) (rightHand leftHand : ref)
  (config : Config) : M (ref * ref) :=
  let* rightHandCopy := array_map copyObject rightHand in
  let* leftHandCopy := array_map copyObject leftHand in
  let* allNotes := array_concat rightHandCopy leftHandCopy in
  let* timeSlices := createTimeSlices allNotes in
  let* optimizedRight := newArray [] in
  let* optimizedLeft := newArray [] in
  forM (processSlice fuel config rightHandCopy leftHandCopy
                     optimizedRight optimizedLeft) timeSlices >>
  ret (optimizedRight, optimizedLeft).

(** Running the balancer on two plain note lists: the heap holds one object
    per note and the two input arrays, at references 0 and 1. *)
Definition heap_of (right left : list Note) : Heap :=
  {| objects := right ++ left;
     arrays := [seq 0 (length right); seq (length right) (length left)] |}.

Definition notes_at (h : Heap) (a : ref) : list Note :=
  match arrays h !! a with
  | Some xs => omap (fun r => objects h !! r) xs
  | None => []
  end.

Definition balance (fuel : nat) (right left : list Note) (config : Config)
  : option Arrangement :=
  match optimizeSimultaneousNotes fuel 0%nat 1%nat config (heap_of right left) with
  | Returns (r, l) h => Some {| rightHand := notes_at h r; leftHand := notes_at h l |}
  | _ => None
  end.

(** ** Arrangement emitter: [generatePianoMidi]

    The output file is built by the MIDI library.  Its data are kept
    abstract ([HeaderEvent]), and so is [addNote]: a call on a track either
    returns or throws, and leaves the track in some state in both cases. *)

Inductive Hand := RightSide | LeftSide.

(** The [console.error] lines of the emitter and of the entry point. *)
Inductive LogEntry :=
| ErrorAddingNote (hand : Hand) (index : nat) (note : Note)
| WarningNoNotes (rightCount leftCount : nat)
| ErrorInOptimize.

Module Out.
Record Track := mkTrack {
  name : string;
  instrument : Z;
  notes : list Note
}.
End Out.

Inductive AddResult :=
| Added (t : Out.Track)
| Threw (t : Out.Track).

(** A computation on a state [St] that returns or throws. *)
Inductive Completion (St A : Type) :=
| Normal (a : A) (s : St)
| Abrupt (s : St).
Arguments Normal {St A} a s.
Arguments Abrupt {St A} s.

Definition X (St A : Type) : Type := St -> Completion St A.

Definition x_ret {St A} (a : A) : X St A := fun s => Normal a s.

Definition x_bind {St A B} (m : X St A) (k : A -> X St B) : X St B := fun s =>
  match m s with
  | Normal a s' => k a s'
  | Abrupt s' => Abrupt s'
  end.

(** [try { body } catch (error) { handler }] *)
Definition try_catch {St A} (body handler : X St A) : X St A := fun s =>
  match body s with
  | Normal a s' => Normal a s'
  | Abrupt s' => handler s'
  end.

(** [forEach] with a callback that may throw: the first throw ends the
    iteration. *)
Fixpoint x_forEach {St A} (f : nat -> A -> X St unit) (i : nat) (l : list A)
  : X St unit :=
  match l with
  | [] => x_ret tt
  | x :: l' => x_bind (f i x) (fun _ => x_forEach f (S i) l')
  end.

Section Emitter.

Context {HeaderEvent : Type}.
Variable addNote : Out.Track -> Note -> AddResult.

Record Header := mkHeader {
  tempos : list HeaderEvent;
  timeSignatures : list HeaderEvent;
  keySignatures : list HeaderEvent;
  meta : list HeaderEvent;
  header_name : string
}.

Record Output := mkOutput {
  out_header : Header;
  out_tracks : list Out.Track
}.

(** The state of the emitter while one track is filled: the track and the
    console. *)
Definition EmitState : Type := Out.Track * list LogEntry.

Definition callAddNote (note : Note) : X EmitState unit := fun s =>
  match addNote (fst s) (copyNote note) with
  | Added t => Normal tt (t, snd s)
  | Threw t => Abrupt (t, snd s)
  end.

Definition logError (hand : Hand) (index : nat) (note : Note)
  : X EmitState unit := fun s =>
  Normal tt (fst s, push (snd s) (ErrorAddingNote hand index note)).

Definition emitNote (hand : Hand) (index : nat) (note : Note)
  : X EmitState unit :=
  try_catch (callAddNote note) (logError hand index note).

Definition newTrack (name : string) : Out.Track :=
  {| Out.name := name; Out.instrument := 0; Out.notes := [] |}.

(** Both tracks, then the check that some note was written.  The result is
    the output and the console. *)
Definition generatePianoMidi (header : Header) (arrangement : Arrangement)
  : X (list LogEntry) Output := fun console =>
  match x_forEach (emitNote RightSide) 0 (rightHand arrangement)
                  (newTrack "Right Hand", console) with
  | Abrupt s => Abrupt (snd s)
  | Normal _ (rightTrack, console1) =>
      match x_forEach (emitNote LeftSide) 0 (leftHand arrangement)
                      (newTrack "Left Hand", console1) with
      | Abrupt s => Abrupt (snd s)
      | Normal _ (leftTrack, console2) =>
          let console3 :=
            if Nat.eqb (length (Out.notes rightTrack)) 0
               && Nat.eqb (length (Out.notes leftTrack)) 0
            then push console2
                      (WarningNoNotes (length (rightHand arrangement))
                                      (length (leftHand arrangement)))
            else console2 in
          Normal {| out_header := header;
                    out_tracks := [rightTrack; leftTrack] |} console3
      end
  end.

(** ** Entry point: [optimizeMidiForPiano] *)

Record Midi := mkMidi {
  midi_header : Header;
  midi_tracks : list Raw.Track;
  midi_name : string;
  midi_duration : Q
}.

(** The caller's [options]: a field is [None] when the caller leaves it out. *)
Record Options := mkOptions {
  opt_maxRightHandNotes : option Z;
  opt_maxLeftHandNotes : option Z;
  opt_splitPoint : option Z;
  opt_dynamicSplitPoint : option bool;
  opt_preserveMelody : option bool;
  opt_preserveBass : option bool
}.

Definition defaultOptions : Config :=
  {| maxRightHandNotes := 12;
     maxLeftHandNotes := 10;
     splitPoint := 60;
     dynamicSplitPoint := true;
     preserveMelody := true;
     preserveBass := true |}.

(** [{ ...defaultOptions, ...options }] *)
Definition mergeOptions (options : Options) : Config :=
  {| maxRightHandNotes :=
       default (maxRightHandNotes defaultOptions) (opt_maxRightHandNotes options);
     maxLeftHandNotes :=
       default (maxLeftHandNotes defaultOptions) (opt_maxLeftHandNotes options);
     splitPoint := default (splitPoint defaultOptions) (opt_splitPoint options);
     dynamicSplitPoint :=
       default (dynamicSplitPoint defaultOptions) (opt_dynamicSplitPoint options);
     preserveMelody :=
       default (preserveMelody defaultOptions) (opt_preserveMelody options);
     preserveBass :=
       default (preserveBass defaultOptions) (opt_preserveBass options) |}.

Record Summary := mkSummary {
  originalTracks : nat;
  rightHandNotes : nat;
  leftHandNotes : nat;
  summary_duration : Q
}.

(** The pipeline between the parse of the input file and the write of the
    output file.  The outer [catch] logs a throw and throws it again. *)
Definition optimizeMidiForPiano (midi : Midi) (options : Options)
  : X (list LogEntry) (Output * Summary) :=
  let config := mergeOptions options in
  try_catch
    (let analyzedTracks := analyzeMidiTracks (midi_tracks midi) in
     let pianoArrangement := createPianoArrangement analyzedTracks config in
     x_bind (generatePianoMidi (midi_header midi) pianoArrangement) (fun outputMidi =>
     x_ret (outputMidi,
            {| originalTracks := length (midi_tracks midi);
               rightHandNotes := length (rightHand pianoArrangement);
               leftHandNotes := length (leftHand pianoArrangement);
               summary_duration := midi_duration midi |})))
    (fun console => Abrupt (push console ErrorInOptimize)).

End Emitter.

(** ** Vocabulary of the statements *)

(** The group a track is sorted into: melody, then bass, then the rest. *)
Definition rank (t : Analyzed.Track) : Z :=
  match Analyzed.trackRole t with
  | melody => 0
  | bass => 1
  | _ => 2
  end.

(** The order that [compareTracks] decides: by group, then by descending
    note count. *)
Definition precedes (a b : Analyzed.Track) : Prop :=
  rank a < rank b \/
  (rank a = rank b /\ Analyzed.noteCount b <= Analyzed.noteCount a).

(** A note whose velocity [|| 64] leaves alone. *)
Definition defaulted (n : Note) : Prop := copyNote n = n.

(** A track that survives the classifier. *)
Definition survives (t : Raw.Track) : Prop :=
  Raw.notes t <> [] /\ Raw.channel t <> 9.

#[export] Instance Role_eq_dec : EqDecision Role.
Proof. solve_decision. Defined.

#[export] Instance survives_dec t : Decision (survives t).
Proof. unfold survives. apply _. Defined.

(** The outcome of running [m] on [h]: [Q] on a return, [E] on a throw,
    [T] when the fuel runs out. *)
Definition wp {A} (E : Error -> Heap -> Prop) (T : Prop) (m : M A) (h : Heap)
  (Q : A -> Heap -> Prop) : Prop :=
  match m h with
  | Returns a h' => Q a h'
  | Throws e h' => E e h'
  | OutOfFuel => T
  end.

(** Every object and every array of [h] is still there, with the same
    content, in [h']. *)
Definition unchanged (h h' : Heap) : Prop :=
  (forall r n, objects h !! r = Some n -> objects h' !! r = Some n) /\
  (forall a xs, arrays h !! a = Some xs -> arrays h' !! a = Some xs).

(** A reference that [h0] does not hold: it was allocated later. *)
Definition freshObject (h0 : Heap) (r : ref) : Prop :=
  (length (objects h0) <= r)%nat.

Definition freshArray (h0 : Heap) (a : ref) : Prop :=
  (length (arrays h0) <= a)%nat.

(** [h] extends [h0]: the heap [h0] is a prefix of [h], and the arrays
    allocated since hold fresh objects only. *)
Definition extends (h0 h : Heap) : Prop :=
  objects h0 `prefix_of` objects h /\
  arrays h0 `prefix_of` arrays h /\
  forall a xs, freshArray h0 a -> arrays h !! a = Some xs ->
               Forall (freshObject h0) xs.

(** [m] keeps [h0]: run on an extension of [h0], it ends, whatever the
    outcome, on an extension of [h0]; a returned value satisfies [Q]. *)
Definition keeps (h0 : Heap) {A} (m : M A) (Q : A -> Prop) : Prop :=
  forall h, extends h0 h ->
    wp (fun _ h' => extends h0 h') True m h (fun a h' => extends h0 h' /\ Q a).

(** The pitch of the note object at [r]. *)
Definition pitch (h : Heap) (r : ref) : Z :=
  match objects h !! r with
  | Some n => midi n
  | None => 0
  end.

(** [r] names an object of [h]. *)
Definition live (h : Heap) (r : ref) : Prop := (r < length (objects h))%nat.

(** The choice of the two [reduce] callbacks on pitches: [sign] is 1 for
    [lowerNote] and -1 for [higherNote]. *)
Definition choose (sign : Z) (h : Heap) (a b : ref) : ref :=
  if sign * pitch h a <? sign * pitch h b then a else b.

(** The heap after one note has moved: [from] holds [xs], [to] holds [ys]. *)
Definition with_subsets (h : Heap) (from to : ref) (xs ys : list ref) : Heap :=
  {| objects := objects h;
     arrays := <[to := ys]> (<[from := xs]> (arrays h)) |}.

(** The note that one run of a loop body moves: the last element of [to]
    afterwards. *)
Definition movedNote (pick : ref -> ref -> M ref) (from to : ref) (h : Heap)
  : option ref :=
  match moveNote pick from to h with
  | Returns _ h' => arrays h' !! to ≫= last
  | _ => None
  end.

(** The spec's rule for the right-to-left pass, as the spec words it: scan
    the subset in its order and keep the first note of the lowest pitch. *)
Fixpoint firstLowest (h : Heap) (xs : list ref) : option ref :=
  match xs with
  | [] => None
  | x :: rest =>
      match firstLowest h rest with
      | None => Some x
      | Some y => if pitch h x <=? pitch h y then Some x else Some y
      end
  end.

(** The same for the left-to-right pass: the first note of the highest
    pitch. *)
Fixpoint firstHighest (h : Heap) (xs : list ref) : option ref :=
  match xs with
  | [] => None
  | x :: rest =>
      match firstHighest h rest with
      | None => Some x
      | Some y => if pitch h y <=? pitch h x then Some x else Some y
      end
  end.

(** The track that a call of [addNote] leaves behind, thrown or not. *)
Definition trackOf (r : AddResult) : Out.Track :=
  match r with
  | Added t => t
  | Threw t => t
  end.

(** The track after [addNote] has been called on every note of [notes], in
    order. *)
Fixpoint trackAfter (addNote : Out.Track -> Note -> AddResult)
  (notes : list Note) (t : Out.Track) : Out.Track :=
  match notes with
  | [] => t
  | n :: rest => trackAfter addNote rest (trackOf (addNote t (copyNote n)))
  end.

(** One console line for each note, from position [i] on, on which
    [addNote] throws. *)
Fixpoint errorsFrom (addNote : Out.Track -> Note -> AddResult) (hand : Hand)
  (i : nat) (notes : list Note) (t : Out.Track) : list LogEntry :=
  match notes with
  | [] => []
  | n :: rest =>
      match addNote t (copyNote n) with
      | Added t' => errorsFrom addNote hand (S i) rest t'
      | Threw t' => ErrorAddingNote hand i n :: errorsFrom addNote hand (S i) rest t'
      end
  end.

(** The console line of the final check, if any. *)
Definition emptyWarning (rightTrack leftTrack : Out.Track) (arrangement : Arrangement)
  : list LogEntry :=
  if Nat.eqb (length (Out.notes rightTrack)) 0
     && Nat.eqb (length (Out.notes leftTrack)) 0
  then [WarningNoNotes (length (rightHand arrangement)) (length (leftHand arrangement))]
  else [].

(** A heap with no dangling reference: every array holds references to
    objects of the heap. *)
Definition wellFormed (h : Heap) : Prop :=
  forall a xs, arrays h !! a = Some xs -> Forall (live h) xs.

(** From [h] to [h'] objects were only added, no array was lost, and every
    array of [h] other than [o1] and [o2] kept its content. *)
Definition changes_only (o1 o2 : ref) (h h' : Heap) : Prop :=
  objects h `prefix_of` objects h'
  /\ (forall a, is_Some (arrays h !! a) -> is_Some (arrays h' !! a))
  /\ (forall a xs, arrays h !! a = Some xs -> a <> o1 -> a <> o2 ->
                   arrays h' !! a = Some xs).

(** ** Sample inputs *)

Definition note (m : Z) (t d : Q) (v : Z) : Note :=
  {| midi := m; time := t; duration := d; velocity := Some v |}.

Definition sample_config (maxRight maxLeft : Z) : Config :=
  {| maxRightHandNotes := maxRight;
     maxLeftHandNotes := maxLeft;
     splitPoint := 60;
     dynamicSplitPoint := true;
     preserveMelody := true;
     preserveBass := true |}.

(** Two melody tracks; the second has more notes than the first. *)
Definition two_melodies : list Raw.Track :=
  [ Raw.mkTrack "flute" 0 [note 70 0 1 80];
    Raw.mkTrack "violin" 1 [note 72 0 1 80; note 74 1 1 80] ].

(** A harmony track around the split point, a melody track below it, an
    empty track and a drum track. *)
Definition mixed_tracks : list Raw.Track :=
  [ Raw.mkTrack "piano" 0 [note 59 0 1 70; note 60 1 1 70];
    Raw.mkTrack "silence" 2 [];
    Raw.mkTrack "drums" 9 [note 36 0 1 100];
    Raw.mkTrack "lead" 1 [note 40 0 1 90; note 96 1 1 90; note 96 2 1 90] ].

(** Two notes of pitch 60 in the right subset (array 0), an empty left
    subset (array 1). *)
Definition tie_heap : Heap :=
  {| objects := [note 60 0 1 1; note 60 0 1 2];
     arrays := [[0%nat; 1%nat]; []] |}.

(** Two notes of pitch 40 in the left subset (array 1), an empty right
    subset (array 0). *)
Definition tie_heap_left : Heap :=
  {| objects := [note 40 0 1 1; note 40 0 1 2];
     arrays := [[]; [0%nat; 1%nat]] |}.

(** Three notes in the right subset (array 0), one in the left subset
    (array 1). *)
Definition crowded_heap : Heap :=
  {| objects := [note 70 0 1 80; note 72 0 1 80; note 75 0 1 80; note 40 0 1 80];
     arrays := [[0%nat; 1%nat; 2%nat]; [3%nat]] |}.

(** A library whose [addNote] appends the note, and throws on a pitch
    outside 0..127 without touching the track. *)
Definition strictAddNote (t : Out.Track) (n : Note) : AddResult :=
  if (0 <=? midi n) && (midi n <=? 127)
  then Added {| Out.name := Out.name t;
                Out.instrument := Out.instrument t;
                Out.notes := push (Out.notes t) n |}
  else Threw t.

Definition emptyHeader : @Header unit :=
  {| tempos := []; timeSignatures := []; keySignatures := []; meta := [];
     header_name := "" |}.

(** A right hand whose second note has an impossible pitch. *)
Definition faulty_arrangement : Arrangement :=
  {| rightHand := [note 60 0 1 80; note 200 1 1 80; note 62 2 1 80];
     leftHand := [note 40 0 1 80] |}.

(** A melody track of three notes held together. *)
Definition chord_midi : @Midi unit :=
  {| midi_header := emptyHeader;
     midi_tracks := [Raw.mkTrack "organ" 0
                       [note 70 0 1 80; note 72 0 1 80; note 75 0 1 80]];
     midi_name := "chord";
     midi_duration := 1 |}.

Definition chord_options : Options :=
  {| opt_maxRightHandNotes := Some 2;
     opt_maxLeftHandNotes := Some 3;
     opt_splitPoint := None;
     opt_dynamicSplitPoint := None;
     opt_preserveMelody := None;
     opt_preserveBass := None |}.

(** The same four notes as the caller holds them: two input arrays. *)
Definition crowded_input : Heap :=
  heap_of [note 70 0 1 80; note 72 0 1 80; note 75 0 1 80] [note 40 0 1 80].

(** The classified form of the melody track of [mixed_tracks]. *)
Definition lead_track : Analyzed.Track :=
  {| Analyzed.index := 3;
     Analyzed.name := "lead";
     Analyzed.notes := [note 40 0 1 90; note 96 1 1 90; note 96 2 1 90];
     Analyzed.avgPitch := averagePitch [40; 96; 96];
     Analyzed.trackRole := melody;
     Analyzed.noteCount := 3 |}.

(** ** Polyphony count: [calculateMaxPolyphony] *)

Inductive EventType := noteOn | noteOff.

#[export] Instance EventType_eq_dec : EqDecision EventType.
Proof. solve_decision. Defined.

Module Event.
Record t := mk {
  time : Q;
  type : EventType
}.
End Event.

(** The two [events.push] of the first [forEach] callback. *)
Definition noteEvents (events : list Event.t) (note : Note) : list Event.t :=
  push (push events {| Event.time := time note; Event.type := noteOn |})
       {| Event.time := (time note + duration note)%Q; Event.type := noteOff |}.

(** The second [forEach] callback on the pair [(activeNotes, maxPolyphony)]. *)
Definition countEvent (counts : Z * Z) (event : Event.t) : Z * Z :=
  let activeNotes :=
    match Event.type event with
    | noteOn => fst counts + 1
    | noteOff => fst counts - 1
    end in
  (activeNotes, Z.max (snd counts) activeNotes).

Definition calculateMaxPolyphony (notes : list Note) : Z :=
  let events := fold_left noteEvents notes [] in
  let sorted :=
    js_sort (fun a b => Qle_bool (Event.time a - Event.time b) 0) events in
  snd (fold_left countEvent sorted (0, 0)).

(** ** Vocabulary of the further properties *)

(** The sum that the classifier divides by the number of notes. *)
Definition pitchSum (t : Raw.Track) : Z :=
  fold_left Z.add (map midi (Raw.notes t)) 0.


(** The note objects behind a list of references. *)
Definition valuesOf (h : Heap) (xs : list ref) : list Note :=
  omap (fun r => objects h !! r) xs.

(** The test of [covers] on a note. *)
Definition coversb (bounds : Q * Q) (n : Note) : bool :=
  Qle_bool (time n) (fst bounds) && Qle_bool (snd bounds) (time n + duration n)%Q.

(** The time points that [createTimeSlices] collects from a list of notes. *)
Definition timePointsOf (notes : list Note) : list Q :=
  fold_left (fun timePoints n =>
               set_add (set_add timePoints (time n)) (time n + duration n)%Q)
            notes [].

(** The bounds of the slices of a list of notes. *)
Definition sliceBounds (notes : list Note) : list (Q * Q) :=
  adjacent (js_sort (fun a b => Qle_bool (a - b) 0) (timePointsOf notes)).

(** No two time points of the list are equal as numbers. *)
Fixpoint distinctTimes (l : list Q) : Prop :=
  match l with
  | [] => True
  | t :: l' => Forall (fun u => ~ (t == u)%Q) l' /\ distinctTimes l'
  end.

(** The test of [sameTimeAndPitch] on two notes. *)
Definition sameKey (o n : Note) : bool :=
  Qeq_bool (time o) (time n) && (midi o =? midi n).

(** The merge of the notes [new] into an optimized list, on notes. *)
Definition mergeValue (optimized : list Note) (n : Note) : list Note :=
  if existsb (fun o => sameKey o n) optimized then optimized else push optimized n.

Definition mergeValues (optimized new : list Note) : list Note :=
  fold_left mergeValue new optimized.

(** No two notes of the list have the same start time and pitch. *)
Fixpoint distinctKeys (l : list Note) : Prop :=
  match l with
  | [] => True
  | n :: l' => Forall (fun o => sameKey n o = false) l' /\ distinctKeys l'
  end.

(** What the balancer computes, on notes: [right] and [left] are the input
    hands and [balanced right left maxRight maxLeft bounds R L] says that
    [R] and [L] are optimized lists after the slices [bounds].  In a slice
    the covering notes of both hands are split in two lists [A] and [B],
    the covering notes themselves when both are within their ceilings, and
    [A] is merged into the right list and [B] into the left one. *)
Inductive balanced (right left : list Note) (maxRight maxLeft : Z)
  : list (Q * Q) -> list Note -> list Note -> Prop :=
| balanced_start : balanced right left maxRight maxLeft [] [] []
| balanced_slice bounds b R L A B :
    balanced right left maxRight maxLeft bounds R L ->
    A ++ B ≡ₚ filter (fun n => coversb b n = true) right
              ++ filter (fun n => coversb b n = true) left ->
    Z.of_nat (length B) <= maxLeft ->
    (Z.of_nat (length (filter (fun n => coversb b n = true) right)) <= maxRight ->
     Z.of_nat (length (filter (fun n => coversb b n = true) left)) <= maxLeft ->
     A = filter (fun n => coversb b n = true) right
     /\ B = filter (fun n => coversb b n = true) left) ->
    balanced right left maxRight maxLeft (bounds ++ [b])
             (mergeValues R A) (mergeValues L B).

(** One hand on its own: slice by slice, the notes of [notes] that cover
    the slice are merged into the optimized list. *)
Definition mergeSlices (notes : list Note) (bounds : list (Q * Q)) : list Note :=
  fold_left (fun optimized b =>
               mergeValues optimized (filter (fun n => coversb b n = true) notes))
            bounds [].

(** No slice of [bounds] has more covering notes in a hand than the hand's
    ceiling allows. *)
Definition withinCeilings (right left : list Note) (maxRight maxLeft : Z)
  (bounds : list (Q * Q)) : Prop :=
  Forall (fun b =>
            Z.of_nat (length (filter (fun n => coversb b n = true) right)) <= maxRight
            /\ Z.of_nat (length (filter (fun n => coversb b n = true) left)) <= maxLeft)
         bounds.

(** * Properties *)

(** ** Lists built by [push] *)

Lemma fold_left_push_omap {A B} (f : A -> option B) (l : list A) (acc : list B) :
  fold_left (fun acc x => match f x with None => acc | Some b => push acc b end) l acc
  = acc ++ omap f l.
Proof.
  revert acc. induction l as [|x l IH]; intros acc; simpl.
  - by rewrite app_nil_r.
  - rewrite IH. destruct (f x); [|done].
    unfold push. by rewrite <- app_assoc.
Qed.

Lemma fold_left_push_map {A B} (f : A -> B) (l : list A) (acc : list B) :
  fold_left (fun acc x => push acc (f x)) l acc = acc ++ map f l.
Proof.
  revert acc. induction l as [|x l IH]; intros acc; simpl.
  - by rewrite app_nil_r.
  - rewrite IH. unfold push. by rewrite <- app_assoc.
Qed.

(** ** [sort] *)

Lemma StronglySorted_weaken {A} (R R' : A -> A -> Prop) (l : list A) :
  (forall a b, R a b -> R' a b) -> StronglySorted R l -> StronglySorted R' l.
Proof.
  intros HR. induction 1 as [|x l _ IH Hx]; constructor; [done|].
  eapply Forall_impl; eauto.
Qed.

Section JsSort.
Context {A : Type} (nonpos : A -> A -> bool).

Lemma sort_insert_perm x l : sort_insert nonpos x l ≡ₚ x :: l.
Proof.
  induction l as [|y l IH]; simpl; [done|].
  destruct (nonpos x y); [done|].
  rewrite IH. apply Permutation_swap.
Qed.

Lemma js_sort_perm l : js_sort nonpos l ≡ₚ l.
Proof.
  induction l as [|x l IH]; simpl; [done|].
  fold (js_sort nonpos l). by rewrite sort_insert_perm, IH.
Qed.

Section Sorted.
Hypothesis nonpos_total : forall x y, nonpos x y = true \/ nonpos y x = true.
Hypothesis nonpos_trans :
  forall x y z, nonpos x y = true -> nonpos y z = true -> nonpos x z = true.

Lemma sort_insert_sorted x l :
  StronglySorted (fun a b => nonpos a b = true) l ->
  StronglySorted (fun a b => nonpos a b = true) (sort_insert nonpos x l).
Proof.
  induction l as [|y l IH]; simpl; intros Hs.
  - repeat constructor.
  - apply StronglySorted_cons in Hs as [Hy Hl].
    destruct (nonpos x y) eqn:Hxy.
    + apply StronglySorted_cons. split.
      * constructor; [done|].
        eapply Forall_impl; [exact Hy|]. simpl. eauto.
      * by apply StronglySorted_cons.
    + apply StronglySorted_cons. split; [|by apply IH].
      rewrite sort_insert_perm. constructor; [|done].
      destruct (nonpos_total x y); congruence.
Qed.

Lemma js_sort_sorted l :
  StronglySorted (fun a b => nonpos a b = true) (js_sort nonpos l).
Proof.
  induction l as [|x l IH]; simpl.
  - constructor.
  - by apply sort_insert_sorted.
Qed.
End Sorted.

(** Stability: elements that the comparator does not separate keep their
    order. *)
Lemma sort_insert_filter (P : A -> Prop) `{!forall x, Decision (P x)} x l :
  (forall a b, P a -> P b -> nonpos a b = true) ->
  filter P (sort_insert nonpos x l) = filter P (x :: l).
Proof.
  intros HP. induction l as [|y l IH]; simpl; [done|].
  destruct (nonpos x y) eqn:Hxy; [done|].
  rewrite filter_cons, IH, !filter_cons.
  destruct (decide (P x)) as [Hx|]; [|done].
  destruct (decide (P y)) as [Hy|]; [|done].
  specialize (HP _ _ Hx Hy). congruence.
Qed.

Lemma js_sort_stable (P : A -> Prop) `{!forall x, Decision (P x)} l :
  (forall a b, P a -> P b -> nonpos a b = true) ->
  filter P (js_sort nonpos l) = filter P l.
Proof.
  intros HP. induction l as [|x l IH]; simpl; [done|].
  fold (js_sort nonpos l).
  rewrite sort_insert_filter by done.
  by rewrite !filter_cons, IH.
Qed.

End JsSort.

(** ** The classifier *)

Lemma Role_eqb_eq a b : Role_eqb a b = true <-> a = b.
Proof. destruct a, b; simpl; split; congruence. Qed.

Lemma velocity_or_64_nonzero v : velocity_or_64 v <> 0.
Proof.
  destruct v as [x|]; simpl; [|lia].
  destruct (x =? 0) eqn:E; lia.
Qed.

Lemma copyNote_defaulted n : defaulted (copyNote n).
Proof.
  unfold defaulted, copyNote. simpl. do 2 f_equal.
  pose proof (velocity_or_64_nonzero (velocity n)) as H.
  destruct (velocity_or_64 (velocity n) =? 0) eqn:E; [lia|done].
Qed.

Lemma classify_known avg : classify avg <> unknown.
Proof. unfold classify. destruct (Qltb 65 avg), (Qltb avg 52); discriminate. Qed.

Lemma classify_thresholds :
  classify 70 = melody /\ classify 45 = bass /\ classify 58 = harmony
  /\ classify 65 = harmony /\ classify 52 = harmony.
Proof. by repeat split. Qed.

Lemma analyzeMidiTracks_omap tracks :
  analyzeMidiTracks tracks
  = omap (fun it => analyzeTrack (fst it) (snd it)) (imap pair tracks).
Proof. unfold analyzeMidiTracks, analyzeStep. by rewrite fold_left_push_omap. Qed.

Lemma analyzeTrack_Some i t a :
  analyzeTrack i t = Some a ->
  survives t /\ Analyzed.index a = i /\
  Analyzed.notes a = map copyNote (Raw.notes t) /\
  Analyzed.trackRole a <> unknown /\
  Analyzed.noteCount a = Z.of_nat (length (Raw.notes t)).
Proof.
  unfold analyzeTrack, survives.
  destruct (Nat.eqb_spec (length (Raw.notes t)) 0) as [|Hlen]; simpl; [done|].
  destruct (Z.eqb_spec (Raw.channel t) 9) as [|Hch]; [done|].
  intros [= <-]. simpl. repeat split; auto using classify_known.
  intros E. by rewrite E in Hlen.
Qed.

Lemma analyzeTrack_None i t : analyzeTrack i t = None <-> ~ survives t.
Proof.
  unfold analyzeTrack, survives.
  destruct (Nat.eqb_spec (length (Raw.notes t)) 0) as [Hlen|Hlen]; simpl.
  - split; [|done]. intros _ [H _]. destruct (Raw.notes t); done.
  - destruct (Z.eqb_spec (Raw.channel t) 9) as [Hch|Hch].
    + split; [|done]. intros _ [_ H]. done.
    + split; [done|]. intros H. exfalso. apply H. split; [|done].
      intros E. by rewrite E in Hlen.
Qed.

Lemma analyzeMidiTracks_elem a tracks :
  a ∈ analyzeMidiTracks tracks ->
  exists t, tracks !! Analyzed.index a = Some t /\ survives t /\
            Analyzed.notes a = map copyNote (Raw.notes t) /\
            Analyzed.trackRole a <> unknown.
Proof.
  rewrite analyzeMidiTracks_omap, list_elem_of_omap.
  intros ([i t] & Hin & Ha). simpl in Ha.
  apply list_elem_of_lookup in Hin as [j Hj].
  rewrite list_lookup_imap in Hj.
  destruct (tracks !! j) as [t'|] eqn:Ht; simpl in Hj; [|done].
  injection Hj as <- <-.
  apply analyzeTrack_Some in Ha as (? & -> & ? & ? & ?). eauto.
Qed.

Lemma analyzeMidiTracks_notes_from i tracks :
  map Analyzed.notes
      (omap (fun it => analyzeTrack (fst it) (snd it)) (imap (fun j => pair (i + j)%nat) tracks))
  = map (fun t => map copyNote (Raw.notes t)) (filter survives tracks).
Proof.
  revert i. induction tracks as [|t tracks IH]; intros i; [done|].
  rewrite imap_cons. simpl. rewrite filter_cons.
  assert (Hext : imap ((fun j => pair (i + j)%nat) ∘ S) tracks
                 = imap (fun j => pair (S i + j)%nat) tracks).
  { apply imap_ext. intros j x _. simpl. f_equal. lia. }
  rewrite Hext. replace (i + 0)%nat with i by lia.
  destruct (analyzeTrack i t) as [a|] eqn:Ha.
  - apply analyzeTrack_Some in Ha as (Hs & _ & Hn & _).
    rewrite decide_True by done. simpl. rewrite Hn. f_equal. exact (IH (S i)).
  - apply analyzeTrack_None in Ha. rewrite decide_False by done. exact (IH (S i)).
Qed.

Lemma analyzeMidiTracks_notes tracks :
  map Analyzed.notes (analyzeMidiTracks tracks)
  = map (fun t => map copyNote (Raw.notes t)) (filter survives tracks).
Proof.
  rewrite analyzeMidiTracks_omap. apply (analyzeMidiTracks_notes_from 0).
Qed.

Lemma analyzeMidiTracks_defaulted tracks :
  Forall (fun t => Forall defaulted (Analyzed.notes t)) (analyzeMidiTracks tracks).
Proof.
  apply Forall_forall. intros a Ha.
  apply analyzeMidiTracks_elem in Ha as (t & _ & _ & -> & _).
  apply Forall_map, Forall_forall. intros n _. apply copyNote_defaulted.
Qed.

(** ** The distributor *)

Lemma compareTracks_nonpos a b :
  (compareTracks a b <=? 0) = true <-> precedes a b.
Proof.
  unfold compareTracks, precedes, rank. rewrite Z.leb_le.
  destruct (Analyzed.trackRole a), (Analyzed.trackRole b); simpl; lia.
Qed.

Lemma precedes_total a b : precedes a b \/ precedes b a.
Proof. unfold precedes. lia. Qed.

Lemma precedes_trans a b c : precedes a b -> precedes b c -> precedes a c.
Proof. unfold precedes. lia. Qed.

Lemma collectNotes_bind tracks :
  collectNotes tracks
  = tracks ≫= (fun t => map (tagNote (Analyzed.trackRole t)) (Analyzed.notes t)).
Proof.
  unfold collectNotes.
  assert (H : forall acc,
    fold_left collectTrack tracks acc
    = acc ++ (tracks ≫= (fun t => map (tagNote (Analyzed.trackRole t)) (Analyzed.notes t)))).
  { induction tracks as [|t tracks IH]; intros acc; simpl.
    - by rewrite app_nil_r.
    - rewrite IH. unfold collectTrack. rewrite fold_left_push_map.
      by rewrite <- app_assoc. }
  apply (H []).
Qed.

Lemma distribute_filter config allNotes :
  distribute config allNotes
  = (map (fun n => copyNote (note_of n))
         (filter (fun n => goesRight config n = true) allNotes),
     map (fun n => copyNote (note_of n))
         (filter (fun n => goesRight config n <> true) allNotes)).
Proof.
  unfold distribute.
  assert (H : forall hands,
    fold_left (distributeStep config) allNotes hands
    = (fst hands ++ map (fun n => copyNote (note_of n))
                        (filter (fun n => goesRight config n = true) allNotes),
       snd hands ++ map (fun n => copyNote (note_of n))
                        (filter (fun n => goesRight config n <> true) allNotes))).
  { induction allNotes as [|n l IH]; intros [r s]; simpl.
    - by rewrite !app_nil_r.
    - rewrite IH, !filter_cons. unfold distributeStep, push.
      destruct (goesRight config n) eqn:E; simpl;
        repeat case_decide; try done; simpl; by rewrite <- app_assoc. }
  apply (H ([], [])).
Qed.

Lemma goesRight_true config n :
  goesRight config n = true
  <-> trackRole n = melody \/ splitPoint config <= midi (note_of n).
Proof.
  unfold goesRight. rewrite orb_true_iff, Role_eqb_eq, Z.leb_le. done.
Qed.

Lemma createPianoArrangement_hands tracks config :
  rightHand (createPianoArrangement tracks config)
  ++ leftHand (createPianoArrangement tracks config)
  ≡ₚ map copyNote (mjoin (map Analyzed.notes tracks)).
Proof.
  unfold createPianoArrangement. simpl. rewrite distribute_filter. simpl.
  rewrite <- map_app.
  rewrite (filter_app_complement (fun n => goesRight config n = true)).
  rewrite collectNotes_bind.
  unfold sortedTracks.
  rewrite (js_sort_perm _ tracks).
  induction tracks as [|t tracks IH]; [done|].
  simpl. rewrite !map_app, IH. f_equiv.
  rewrite map_map. clear.
  induction (Analyzed.notes t) as [|n l IH]; simpl; [done|].
  rewrite IH. f_equiv. apply copyNote_defaulted.
Qed.

(** C1.  The initial distribution partitions the notes of the classified
    tracks: the right and left hands together hold every note of every
    track exactly once.  This holds of every list of tracks whose notes
    carry a defaulted velocity, and the tracks that [analyzeMidiTracks]
    returns are such tracks. *)
Theorem createPianoArrangement_partition
  (analyzedTracks : list Analyzed.Track) (tracks : list Raw.Track)
  (config : Config) :
  (Forall (fun t => Forall defaulted (Analyzed.notes t)) analyzedTracks ->
   rightHand (createPianoArrangement analyzedTracks config)
   ++ leftHand (createPianoArrangement analyzedTracks config)
   ≡ₚ mjoin (map Analyzed.notes analyzedTracks))
  /\ rightHand (createPianoArrangement (analyzeMidiTracks tracks) config)
     ++ leftHand (createPianoArrangement (analyzeMidiTracks tracks) config)
     ≡ₚ mjoin (map Analyzed.notes (analyzeMidiTracks tracks)).
Proof.
  assert (Hgen : forall l,
    Forall (fun t => Forall defaulted (Analyzed.notes t)) l ->
    rightHand (createPianoArrangement l config)
    ++ leftHand (createPianoArrangement l config)
    ≡ₚ mjoin (map Analyzed.notes l)).
  { intros l Hdef. rewrite createPianoArrangement_hands.
    assert (H : Forall defaulted (mjoin (map Analyzed.notes l))).
    { induction Hdef as [|t l' Ht _ IH]; simpl; [constructor|].
      by apply Forall_app. }
    induction H as [|n ns Hn _ IH]; simpl; [done|].
    by rewrite Hn, IH. }
  split; [apply Hgen|]. apply Hgen, analyzeMidiTracks_defaulted.
Qed.

Lemma createPianoArrangement_partition_witness :
  rightHand (createPianoArrangement (analyzeMidiTracks mixed_tracks) (sample_config 12 10))
  ++ leftHand (createPianoArrangement (analyzeMidiTracks mixed_tracks) (sample_config 12 10))
  ≡ₚ mjoin (map Analyzed.notes (analyzeMidiTracks mixed_tracks)).
Proof.
  apply (createPianoArrangement_partition (analyzeMidiTracks mixed_tracks) []).
  apply analyzeMidiTracks_defaulted.
Defined.

(** C4.  A note goes to the right hand exactly when its track is a melody
    track or its pitch is at least [splitPoint]; every other note goes to
    the left hand.  With split point 60: pitch 59 of a harmony track goes
    left, pitch 60 goes right, pitch 40 of a melody track goes right. *)
Theorem createPianoArrangement_split_rule
  (analyzedTracks : list Analyzed.Track) (config : Config) :
  let allNotes :=
    sortedTracks analyzedTracks
      ≫= (fun t => map (tagNote (Analyzed.trackRole t)) (Analyzed.notes t)) in
  let right n := trackRole n = melody \/ splitPoint config <= midi (note_of n) in
  rightHand (createPianoArrangement analyzedTracks config)
    = map (fun n => copyNote (note_of n)) (filter right allNotes)
  /\ leftHand (createPianoArrangement analyzedTracks config)
    = map (fun n => copyNote (note_of n)) (filter (fun n => ~ right n) allNotes)
  /\ goesRight (sample_config 12 10) (tagNote harmony (note 59 0 1 70)) = false
  /\ goesRight (sample_config 12 10) (tagNote harmony (note 60 0 1 70)) = true
  /\ goesRight (sample_config 12 10) (tagNote melody (note 40 0 1 70)) = true
  /\ createPianoArrangement (analyzeMidiTracks mixed_tracks) (sample_config 12 10)
     = {| rightHand := [note 40 0 1 90; note 96 1 1 90; note 96 2 1 90; note 60 1 1 70];
          leftHand := [note 59 0 1 70] |}.
Proof.
  intros allNotes right.
  unfold createPianoArrangement. simpl.
  rewrite distribute_filter, collectNotes_bind. simpl. fold allNotes.
  split; [|split; [|repeat split]].
  - f_equal. apply list_filter_iff. intros n. apply goesRight_true.
  - f_equal. apply list_filter_iff. intros n. unfold right.
    by rewrite goesRight_true.
Qed.

(** C5 (as the code has it).  The tracks are reordered, without loss, so
    that melody tracks come first, bass tracks second and the other tracks
    last; inside each of the three groups the tracks are in descending order
    of note count; tracks of one group with the same note count keep their
    original relative order. *)
Theorem sortedTracks_order (analyzedTracks : list Analyzed.Track) :
  sortedTracks analyzedTracks ≡ₚ analyzedTracks
  /\ StronglySorted precedes (sortedTracks analyzedTracks)
  /\ forall g c,
       filter (fun t => rank t = g /\ Analyzed.noteCount t = c)
              (sortedTracks analyzedTracks)
       = filter (fun t => rank t = g /\ Analyzed.noteCount t = c) analyzedTracks.
Proof.
  unfold sortedTracks. split; [apply js_sort_perm|]. split.
  - eapply StronglySorted_weaken; [|apply js_sort_sorted].
    + intros a b. apply compareTracks_nonpos.
    + intros a b. destruct (precedes_total a b) as [H|H];
        apply compareTracks_nonpos in H; auto.
    + intros a b c. rewrite !compareTracks_nonpos. apply precedes_trans.
  - intros g c. apply js_sort_stable.
    intros a b [Ha1 Ha2] [Hb1 Hb2]. apply compareTracks_nonpos.
    unfold precedes. lia.
Qed.

(** C5 as stated fails: two melody tracks, the second with more notes, do
    not keep their original order. *)
Lemma sortedTracks_melody_group_reordered :
  filter (fun t => Analyzed.trackRole t = melody)
         (sortedTracks (analyzeMidiTracks two_melodies))
  <> filter (fun t => Analyzed.trackRole t = melody)
            (analyzeMidiTracks two_melodies).
Proof. vm_compute. intros H. discriminate H. Qed.

(** C6.  Empty tracks and tracks on channel 9 are dropped without an error:
    the classified tracks are, in order, the surviving tracks with their
    notes copied; nothing of a dropped track reaches the arrangement; and
    the role of a classified track is never [unknown]. *)
Theorem analyzeMidiTracks_exclusion (tracks : list Raw.Track) (config : Config) :
  map Analyzed.notes (analyzeMidiTracks tracks)
    = map (fun t => map copyNote (Raw.notes t))
          (filter (fun t => Raw.notes t <> [] /\ Raw.channel t <> 9) tracks)
  /\ (forall a, a ∈ analyzeMidiTracks tracks ->
        exists t, tracks !! Analyzed.index a = Some t
                  /\ Raw.notes t <> [] /\ Raw.channel t <> 9
                  /\ Analyzed.notes a = map copyNote (Raw.notes t))
  /\ (forall a, a ∈ analyzeMidiTracks tracks ->
        Analyzed.trackRole a = melody \/ Analyzed.trackRole a = bass
        \/ Analyzed.trackRole a = harmony)
  /\ rightHand (createPianoArrangement (analyzeMidiTracks tracks) config)
     ++ leftHand (createPianoArrangement (analyzeMidiTracks tracks) config)
     ≡ₚ mjoin (map (fun t => map copyNote (Raw.notes t))
                   (filter (fun t => Raw.notes t <> [] /\ Raw.channel t <> 9) tracks)).
Proof.
  split; [apply analyzeMidiTracks_notes|]. split; [|split].
  - intros a Ha. apply analyzeMidiTracks_elem in Ha as (t & ? & [? ?] & ? & ?).
    eauto 10.
  - intros a Ha. apply analyzeMidiTracks_elem in Ha as (t & _ & _ & _ & Hr).
    destruct (Analyzed.trackRole a); auto. done.
  - rewrite createPianoArrangement_hands, analyzeMidiTracks_notes.
    fold survives.
    induction (filter survives tracks) as [|t l IH]; simpl; [done|].
    rewrite map_app, IH. f_equiv.
    rewrite map_map. clear.
    induction (Raw.notes t) as [|n ns IHn]; simpl; [done|].
    rewrite IHn. f_equiv. apply copyNote_defaulted.
Qed.

Lemma analyzeMidiTracks_exclusion_witness :
  (exists t, mixed_tracks !! Analyzed.index lead_track = Some t
             /\ Raw.notes t <> [] /\ Raw.channel t <> 9
             /\ Analyzed.notes lead_track = map copyNote (Raw.notes t))
  /\ (Analyzed.trackRole lead_track = melody
      \/ Analyzed.trackRole lead_track = bass
      \/ Analyzed.trackRole lead_track = harmony).
Proof.
  assert (Hin : lead_track ∈ analyzeMidiTracks mixed_tracks).
  { apply list_elem_of_lookup. exists 1%nat. reflexivity. }
  destruct (analyzeMidiTracks_exclusion mixed_tracks (sample_config 12 10))
    as (_ & Hsource & Hrole & _).
  split; [apply (Hsource lead_track Hin)|apply (Hrole lead_track Hin)].
Defined.

(** ** The balancer leaves the caller's heap alone *)

Lemma wp_bind {A B} E T (m : M A) (k : A -> M B) h Q :
  wp E T m h (fun a h' => wp E T (k a) h' Q) -> wp E T (bind m k) h Q.
Proof. unfold wp, bind. by destruct (m h). Qed.

Lemma wp_mono {A} (E E' : Error -> Heap -> Prop) (T T' : Prop) (m : M A) h
  (Q Q' : A -> Heap -> Prop) :
  (forall a h', Q a h' -> Q' a h') -> (forall e h', E e h' -> E' e h') ->
  (T -> T') -> wp E T m h Q -> wp E' T' m h Q'.
Proof. unfold wp. destruct (m h); auto. Qed.

Lemma extends_refl h : extends h h.
Proof.
  split; [done|]. split; [done|]. intros a xs Ha Hx.
  apply lookup_lt_Some in Hx. unfold freshArray in Ha. lia.
Qed.

Lemma extends_unchanged h0 h : extends h0 h -> unchanged h0 h.
Proof.
  intros (Ho & Ha & _). split; intros; eapply prefix_lookup_Some; eauto.
Qed.

Section Frame.
Variable h0 : Heap.

Lemma keeps_ret {A} (a : A) (Q : A -> Prop) : Q a -> keeps h0 (ret a) Q.
Proof. intros HQ h Hh. by split. Qed.

Lemma keeps_bind {A B} (m : M A) (k : A -> M B) (Q : A -> Prop) (R : B -> Prop) :
  keeps h0 m Q -> (forall a, Q a -> keeps h0 (k a) R) -> keeps h0 (bind m k) R.
Proof.
  intros Hm Hk h Hh. apply wp_bind.
  eapply wp_mono; [| | |apply Hm, Hh]; simpl; auto.
  intros a h' [Hh' Ha]. by apply Hk.
Qed.

Lemma keeps_mono {A} (m : M A) (Q Q' : A -> Prop) :
  (forall a, Q a -> Q' a) -> keeps h0 m Q -> keeps h0 m Q'.
Proof.
  intros HQ Hm h Hh. eapply wp_mono; [| | |apply Hm, Hh]; simpl; auto.
  intros a h' [? ?]. auto.
Qed.

Lemma keeps_throw {A} e (Q : A -> Prop) : keeps h0 (throw e) Q.
Proof. intros h Hh. done. Qed.

Lemma keeps_newObject n : keeps h0 (newObject n) (freshObject h0).
Proof.
  intros h (Ho & Ha & Hf). unfold wp, newObject. split.
  - split; simpl; [by apply prefix_app_r|]. by split.
  - unfold freshObject. by apply prefix_length.
Qed.

Lemma keeps_readObject r : keeps h0 (readObject r) (fun _ => True).
Proof.
  intros h Hh. unfold wp, readObject. by destruct (objects h !! r).
Qed.

Lemma keeps_newArray xs :
  Forall (freshObject h0) xs -> keeps h0 (newArray xs) (freshArray h0).
Proof.
  intros Hxs h (Ho & Ha & Hf). unfold wp, newArray. split.
  - split; [done|]. simpl. split; [by apply prefix_app_r|].
    intros a ys Hfa Hlk. apply lookup_snoc_Some in Hlk as [[_ Hlk]|[_ <-]]; eauto.
  - unfold freshArray. by apply prefix_length.
Qed.

Lemma keeps_readArray a :
  keeps h0 (readArray a) (fun xs => freshArray h0 a -> Forall (freshObject h0) xs).
Proof.
  intros h Hh. unfold wp, readArray.
  destruct (arrays h !! a) as [xs|] eqn:E; [|done].
  split; [done|]. intros Hfa. destruct Hh as (_ & _ & Hf). eauto.
Qed.

Lemma keeps_writeArray a xs :
  freshArray h0 a -> Forall (freshObject h0) xs ->
  keeps h0 (writeArray a xs) (fun _ => True).
Proof.
  intros Hfa Hxs h Hh. pose proof Hh as (Ho & [k Ha] & Hf).
  unfold wp, writeArray.
  destruct (arrays h !! a) as [old|] eqn:E; [|done].
  split; [|done]. split; [done|]. simpl. split.
  - rewrite Ha. rewrite insert_app_r_alt by exact Hfa.
    by apply prefix_app_r.
  - intros b ys Hfb Hlk.
    apply list_lookup_insert_Some in Hlk as [(-> & <- & _)|[_ Hlk]]; eauto.
Qed.

Lemma keeps_forM {A} (f : A -> M unit) (P : A -> Prop) l :
  (forall x, P x -> keeps h0 (f x) (fun _ => True)) -> Forall P l ->
  keeps h0 (forM f l) (fun _ => True).
Proof.
  intros Hf. induction 1 as [|x l Hx _ IH]; simpl.
  - by apply keeps_ret.
  - eapply keeps_bind; [by apply Hf|]. auto.
Qed.

Lemma keeps_mapM' {A B} (f : A -> M B) (P : A -> Prop) (R : B -> Prop) l :
  (forall x, P x -> keeps h0 (f x) R) -> Forall P l ->
  keeps h0 (mapM' f l) (Forall R).
Proof.
  intros Hf. induction 1 as [|x l Hx _ IH]; simpl.
  - by apply keeps_ret.
  - eapply keeps_bind; [by apply Hf|]. intros y Hy.
    eapply keeps_bind; [exact IH|]. intros ys Hys.
    apply keeps_ret. by constructor.
Qed.

Lemma keeps_filterM {A} (p : A -> M bool) (P : A -> Prop) l :
  (forall x, keeps h0 (p x) (fun _ => True)) -> Forall P l ->
  keeps h0 (filterM p l) (Forall P).
Proof.
  intros Hp. induction 1 as [|x l Hx _ IH]; simpl.
  - by apply keeps_ret.
  - eapply keeps_bind; [by apply Hp|]. intros b _.
    eapply keeps_bind; [exact IH|]. intros ys Hys.
    apply keeps_ret. destruct b; [by constructor|done].
Qed.

Lemma keeps_someM {A} (p : A -> M bool) l :
  (forall x, keeps h0 (p x) (fun _ => True)) ->
  keeps h0 (someM p l) (fun _ => True).
Proof.
  intros Hp. induction l as [|x l IH]; simpl.
  - by apply keeps_ret.
  - eapply keeps_bind; [by apply Hp|]. intros [] _; [by apply keeps_ret|done].
Qed.

Lemma keeps_foldM {A B} (f : B -> A -> M B) (P : A -> Prop) (J : B -> Prop) l acc :
  (forall b x, J b -> P x -> keeps h0 (f b x) J) -> Forall P l -> J acc ->
  keeps h0 (foldM f acc l) J.
Proof.
  intros Hf Hl. revert acc. induction Hl as [|x l Hx _ IH]; simpl; intros acc Hacc.
  - by apply keeps_ret.
  - eapply keeps_bind; [by apply Hf|]. auto.
Qed.

Lemma keeps_while fuel cond body :
  keeps h0 cond (fun _ => True) -> keeps h0 body (fun _ => True) ->
  keeps h0 (while fuel cond body) (fun _ => True).
Proof.
  intros Hc Hb. induction fuel as [|fuel IH]; simpl.
  - intros h Hh. done.
  - eapply keeps_bind; [exact Hc|]. intros [] _; [|by apply keeps_ret].
    eapply keeps_bind; [exact Hb|]. auto.
Qed.

End Frame.

Section FrameBalancer.
Variable h0 : Heap.

Local Abbreviation freshO := (freshObject h0).
Local Abbreviation freshA := (freshArray h0).

Lemma keeps_copyObject r : keeps h0 (copyObject r) freshO.
Proof.
  eapply keeps_bind; [apply keeps_readObject|]. intros n _.
  apply keeps_newObject.
Qed.

Lemma keeps_array_map a : keeps h0 (array_map copyObject a) freshA.
Proof.
  eapply keeps_bind; [apply keeps_readArray|]. intros xs _.
  eapply keeps_bind.
  - apply (keeps_mapM' h0 copyObject (fun _ => True) freshO).
    + intros x _. apply keeps_copyObject.
    + by apply Forall_true.
  - intros ys Hys. by apply keeps_newArray.
Qed.

Lemma keeps_array_concat a b :
  freshA a -> freshA b -> keeps h0 (array_concat a b) freshA.
Proof.
  intros Ha Hb.
  eapply keeps_bind; [apply keeps_readArray|]. intros xs Hxs.
  eapply keeps_bind; [apply keeps_readArray|]. intros ys Hys.
  apply keeps_newArray, Forall_app; auto.
Qed.

Lemma keeps_array_filter p a :
  freshA a -> (forall x, keeps h0 (p x) (fun _ => True)) ->
  keeps h0 (array_filter p a) freshA.
Proof.
  intros Ha Hp.
  eapply keeps_bind; [apply keeps_readArray|]. intros xs Hxs.
  eapply keeps_bind; [apply keeps_filterM; eauto|]. intros ys Hys.
  by apply keeps_newArray.
Qed.

Lemma keeps_array_push a x :
  freshA a -> freshO x -> keeps h0 (array_push a x) (fun _ => True).
Proof.
  intros Ha Hx.
  eapply keeps_bind; [apply keeps_readArray|]. intros xs Hxs.
  apply keeps_writeArray; [done|]. apply Forall_app. auto.
Qed.

Lemma Forall_delete {A} (P : A -> Prop) (l : list A) i :
  Forall P l -> Forall P (delete i l).
Proof.
  intros H. rewrite delete_take_drop.
  apply Forall_app. split; [by apply Forall_take|by apply Forall_drop].
Qed.

Lemma keeps_array_splice1 a i :
  freshA a -> keeps h0 (array_splice1 a i) (fun _ => True).
Proof.
  intros Ha.
  eapply keeps_bind; [apply keeps_readArray|]. intros xs Hxs.
  apply keeps_writeArray; [done|]. apply Forall_delete. auto.
Qed.

Lemma keeps_array_reduce pick a :
  freshA a ->
  (forall x y, freshO x -> freshO y -> keeps h0 (pick x y) freshO) ->
  keeps h0 (array_reduce pick a) freshO.
Proof.
  intros Ha Hpick.
  eapply keeps_bind; [apply keeps_readArray|]. intros xs Hxs.
  specialize (Hxs Ha). destruct Hxs as [|x xs Hx Hxs]; [apply keeps_throw|].
  eapply keeps_foldM; eauto.
Qed.

Lemma keeps_lowerNote a b : freshO a -> freshO b -> keeps h0 (lowerNote a b) freshO.
Proof.
  intros Ha Hb.
  eapply keeps_bind; [apply keeps_readObject|]. intros na _.
  eapply keeps_bind; [apply keeps_readObject|]. intros nb _.
  apply keeps_ret. by destruct (midi na <? midi nb).
Qed.

Lemma keeps_higherNote a b : freshO a -> freshO b -> keeps h0 (higherNote a b) freshO.
Proof.
  intros Ha Hb.
  eapply keeps_bind; [apply keeps_readObject|]. intros na _.
  eapply keeps_bind; [apply keeps_readObject|]. intros nb _.
  apply keeps_ret. by destruct (midi na >? midi nb).
Qed.

Lemma keeps_moveNote pick from to :
  freshA from -> freshA to ->
  (forall x y, freshO x -> freshO y -> keeps h0 (pick x y) freshO) ->
  keeps h0 (moveNote pick from to) (fun _ => True).
Proof.
  intros Hfrom Hto Hpick.
  eapply keeps_bind; [by apply keeps_array_reduce|]. intros chosen Hc.
  eapply keeps_bind.
  { eapply keeps_bind; [apply keeps_readArray|]. intros xs _.
    by apply (keeps_ret h0 _ (fun _ => True)). }
  intros i _.
  eapply keeps_bind; [by apply keeps_array_splice1|]. intros _ _.
  by apply keeps_array_push.
Qed.

Lemma keeps_exceeds a ceiling : keeps h0 (exceeds a ceiling) (fun _ => True).
Proof.
  eapply keeps_bind.
  { eapply keeps_bind; [apply keeps_readArray|]. intros xs _.
    by apply (keeps_ret h0 _ (fun _ => True)). }
  intros n _. by apply keeps_ret.
Qed.

Lemma keeps_rebalance fuel config sr sl :
  freshA sr -> freshA sl -> keeps h0 (rebalance fuel config sr sl) (fun _ => True).
Proof.
  intros Hr Hl.
  eapply keeps_bind.
  { apply keeps_while; [apply keeps_exceeds|].
    apply keeps_moveNote; auto using keeps_lowerNote. }
  intros _ _.
  apply keeps_while; [apply keeps_exceeds|].
  apply keeps_moveNote; auto using keeps_higherNote.
Qed.

Lemma keeps_covers s e r : keeps h0 (covers s e r) (fun _ => True).
Proof.
  eapply keeps_bind; [apply keeps_readObject|]. intros n _. by apply keeps_ret.
Qed.

Lemma keeps_sameTimeAndPitch note n :
  keeps h0 (sameTimeAndPitch note n) (fun _ => True).
Proof.
  eapply keeps_bind; [apply keeps_readObject|]. intros o _.
  eapply keeps_bind; [apply keeps_readObject|]. intros this _.
  by apply keeps_ret.
Qed.

Lemma keeps_mergeNote optimized note :
  freshA optimized -> keeps h0 (mergeNote optimized note) (fun _ => True).
Proof.
  intros Ho.
  eapply keeps_bind.
  { eapply keeps_bind; [apply keeps_readArray|]. intros xs _.
    apply keeps_someM. intros x. apply keeps_sameTimeAndPitch. }
  intros [] _; simpl; [by apply keeps_ret|].
  eapply keeps_bind; [apply keeps_copyObject|]. intros fresh Hf.
  by apply keeps_array_push.
Qed.

Lemma keeps_array_forEach f a :
  (forall x, keeps h0 (f x) (fun _ => True)) ->
  keeps h0 (array_forEach f a) (fun _ => True).
Proof.
  intros Hf.
  eapply keeps_bind; [apply keeps_readArray|]. intros xs _.
  apply (keeps_forM h0 f (fun _ => True)); [auto|by apply Forall_true].
Qed.

Lemma keeps_processSlice fuel config rc lc oR oL slice :
  freshA rc -> freshA lc -> freshA oR -> freshA oL ->
  keeps h0 (processSlice fuel config rc lc oR oL slice) (fun _ => True).
Proof.
  intros Hrc Hlc HoR HoL. unfold processSlice.
  eapply keeps_bind; [apply keeps_array_filter; auto using keeps_covers|].
  intros sr Hsr.
  eapply keeps_bind; [apply keeps_array_filter; auto using keeps_covers|].
  intros sl Hsl.
  eapply keeps_bind; [by apply keeps_rebalance|]. intros _ _.
  eapply keeps_bind; [apply keeps_array_forEach; auto using keeps_mergeNote|].
  intros _ _.
  apply keeps_array_forEach; auto using keeps_mergeNote.
Qed.

Lemma keeps_createTimeSlices notes :
  freshA notes -> keeps h0 (createTimeSlices notes) (fun _ => True).
Proof.
  intros Hn.
  eapply keeps_bind; [apply keeps_readArray|]. intros ns _.
  eapply keeps_bind.
  { apply (keeps_foldM h0 addTimePoints (fun _ => True) (fun _ => True));
      [|by apply Forall_true|done].
    intros tp r _ _.
    eapply keeps_bind; [apply keeps_readObject|]. intros n _. by apply keeps_ret. }
  intros timePoints _.
  eapply keeps_mono; [|apply (keeps_mapM' h0 _ (fun _ => True) (fun _ => True))];
    [done| |by apply Forall_true].
  intros bounds _.
  eapply keeps_bind; [apply keeps_array_filter; auto using keeps_covers|].
  intros a _. by apply keeps_ret.
Qed.

Lemma keeps_optimizeSimultaneousNotes fuel rightHand leftHand config :
  keeps h0 (optimizeSimultaneousNotes fuel rightHand leftHand config)
        (fun hands => freshA (fst hands) /\ freshA (snd hands)).
Proof.
  unfold optimizeSimultaneousNotes.
  eapply keeps_bind; [apply keeps_array_map|]. intros rc Hrc.
  eapply keeps_bind; [apply keeps_array_map|]. intros lc Hlc.
  eapply keeps_bind; [by apply keeps_array_concat|]. intros allNotes Hall.
  eapply keeps_bind; [by apply keeps_createTimeSlices|]. intros timeSlices _.
  eapply keeps_bind; [by apply keeps_newArray|]. intros oR HoR.
  eapply keeps_bind; [by apply keeps_newArray|]. intros oL HoL.
  eapply keeps_bind.
  { apply (keeps_forM h0 _ (fun _ => True)); [|by apply Forall_true].
    intros slice _. by apply keeps_processSlice. }
  intros _ _. by apply keeps_ret.
Qed.

End FrameBalancer.

(** Whatever the outcome, the heap the balancer was called on is still
    there; what it returns is new. *)
Lemma optimizeSimultaneousNotes_keeps
  (fuel : nat) (rightHand leftHand : ref) (config : Config) (h : Heap) :
  match optimizeSimultaneousNotes fuel rightHand leftHand config h with
  | Returns (optimizedRight, optimizedLeft) h' =>
      unchanged h h'
      /\ freshArray h optimizedRight /\ freshArray h optimizedLeft
      /\ (forall xs, arrays h' !! optimizedRight = Some xs ->
                     Forall (freshObject h) xs)
      /\ (forall xs, arrays h' !! optimizedLeft = Some xs ->
                     Forall (freshObject h) xs)
  | Throws _ h' => unchanged h h'
  | OutOfFuel => True
  end.
Proof.
  pose proof (keeps_optimizeSimultaneousNotes h fuel rightHand leftHand config
                h (extends_refl h)) as H.
  unfold wp in H.
  destruct (optimizeSimultaneousNotes fuel rightHand leftHand config h)
    as [[r l] h'|e h'|]; [|by apply extends_unchanged|done].
  destruct H as [Hext [Hr Hl]]. simpl in Hr, Hl.
  split; [by apply extends_unchanged|].
  destruct Hext as (_ & _ & Hf). eauto 10.
Qed.

(** ** One pass of the balancer on a pair of subsets *)

Lemma bind_Returns {A B} (m : M A) (k : A -> M B) h a h' :
  m h = Returns a h' -> bind m k h = k a h'.
Proof. unfold bind. by intros ->. Qed.

Lemma readObject_live h r :
  live h r -> exists n, objects h !! r = Some n /\ readObject r h = Returns n h.
Proof.
  intros Hr. apply lookup_lt_is_Some in Hr as [n Hn].
  exists n. split; [done|]. unfold readObject. by rewrite Hn.
Qed.

Lemma lowerNote_choose h a b :
  live h a -> live h b -> lowerNote a b h = Returns (choose 1 h a b) h.
Proof.
  intros Ha Hb.
  destruct (readObject_live h a Ha) as (na & Hna & Ra).
  destruct (readObject_live h b Hb) as (nb & Hnb & Rb).
  unfold lowerNote. rewrite (bind_Returns _ _ _ _ _ Ra), (bind_Returns _ _ _ _ _ Rb).
  unfold ret, choose, pitch. rewrite Hna, Hnb.
  by rewrite !Z.mul_1_l.
Qed.

Lemma higherNote_choose h a b :
  live h a -> live h b -> higherNote a b h = Returns (choose (-1) h a b) h.
Proof.
  intros Ha Hb.
  destruct (readObject_live h a Ha) as (na & Hna & Ra).
  destruct (readObject_live h b Hb) as (nb & Hnb & Rb).
  unfold higherNote. rewrite (bind_Returns _ _ _ _ _ Ra), (bind_Returns _ _ _ _ _ Rb).
  unfold ret, choose, pitch. rewrite Hna, Hnb. do 2 f_equal.
  destruct (Z.gtb_spec (midi na) (midi nb)), (Z.ltb_spec (-1 * midi na) (-1 * midi nb));
    done || lia.
Qed.

Section Pass.
Variable sign : Z.
Variable pick : ref -> ref -> M ref.
Hypothesis pick_choose :
  forall h a b, live h a -> live h b -> pick a b h = Returns (choose sign h a b) h.

Lemma choose_live h a b : live h a -> live h b -> live h (choose sign h a b).
Proof. intros. unfold choose. by destruct (_ <? _). Qed.

Lemma foldM_pick h x rest :
  live h x -> Forall (live h) rest ->
  foldM pick x rest h = Returns (fold_left (choose sign h) rest x) h.
Proof.
  intros Hx Hrest. revert x Hx.
  induction Hrest as [|y rest Hy _ IH]; intros x Hx; simpl; [done|].
  rewrite (bind_Returns _ _ _ _ _ (pick_choose h x y Hx Hy)).
  apply IH. by apply choose_live.
Qed.

(** The note that [reduce] returns is the last one of the extremal pitch. *)
Lemma fold_choose_last h x rest :
  exists i, (x :: rest) !! i = Some (fold_left (choose sign h) rest x) /\
    forall j y, (x :: rest) !! j = Some y ->
      sign * pitch h (fold_left (choose sign h) rest x) <= sign * pitch h y /\
      ((i < j)%nat ->
       sign * pitch h (fold_left (choose sign h) rest x) < sign * pitch h y).
Proof.
  induction rest as [|b rest IH] using rev_ind.
  - exists 0%nat. split; [done|]. intros [|j] y Hy; simpl in *; [|done].
    injection Hy as <-. lia.
  - destruct IH as (i & Hi & Hmin). rewrite fold_left_app. simpl.
    set (c := fold_left (choose sign h) rest x) in *.
    assert (Hlen : (i < length (x :: rest))%nat) by by eapply lookup_lt_Some.
    unfold choose.
    destruct (Z.ltb_spec (sign * pitch h c) (sign * pitch h b)) as [Hlt|Hge].
    + exists i. split.
      * change (x :: rest ++ [b]) with ((x :: rest) ++ [b]).
        by apply lookup_app_l_Some.
      * intros j y Hy. change (x :: rest ++ [b]) with ((x :: rest) ++ [b]) in Hy.
        apply lookup_app_Some in Hy as [Hy|[Hj Hy]]; [by apply Hmin|].
        apply list_lookup_singleton_Some in Hy as [_ <-]. lia.
    + exists (length (x :: rest)). split.
      * change (x :: rest ++ [b]) with ((x :: rest) ++ [b]).
        by rewrite list_lookup_middle.
      * intros j y Hy. change (x :: rest ++ [b]) with ((x :: rest) ++ [b]) in Hy.
        apply lookup_app_Some in Hy as [Hy|[Hj Hy]].
        -- pose proof (lookup_lt_Some _ _ _ Hy).
           destruct (Hmin j y Hy) as [Hle _]. split; [lia|lia].
        -- apply list_lookup_singleton_Some in Hy as [Hj' <-]. split; [lia|lia].
Qed.

End Pass.

Lemma readArray_run h a xs : arrays h !! a = Some xs -> readArray a h = Returns xs h.
Proof. unfold readArray. by intros ->. Qed.

Lemma writeArray_run h a old xs :
  arrays h !! a = Some old ->
  writeArray a xs h
  = Returns tt {| objects := objects h; arrays := <[a := xs]> (arrays h) |}.
Proof. unfold writeArray. by intros ->. Qed.

Lemma indexOf_from_first k x xs i :
  xs !! i = Some x -> (forall j, (j < i)%nat -> xs !! j <> Some x) ->
  indexOf_from k x xs = k + Z.of_nat i.
Proof.
  revert k i. induction xs as [|y xs IH]; intros k i Hi Hfirst; [done|]. simpl.
  destruct (Nat.eqb_spec y x) as [->|Hne].
  - destruct i as [|i]; [lia|]. by destruct (Hfirst 0%nat ltac:(lia)).
  - destruct i as [|i]; simpl in Hi; [congruence|].
    rewrite (IH (k + 1) i Hi); [lia|].
    intros j Hj. apply (Hfirst (S j)). lia.
Qed.

Lemma indexOf_from_elem k x xs :
  x ∈ xs ->
  exists i, xs !! i = Some x /\ indexOf_from k x xs = k + Z.of_nat i.
Proof.
  revert k. induction xs as [|y xs IH]; intros k Hin; [by apply elem_of_nil in Hin|].
  simpl. destruct (Nat.eqb_spec y x) as [->|Hne].
  - exists 0%nat. split; [done|lia].
  - apply elem_of_cons in Hin as [->|Hin]; [done|].
    destruct (IH (k + 1) Hin) as (i & Hi & ->). exists (S i). split; [done|lia].
Qed.

Lemma indexOf_from_NoDup x xs i :
  NoDup xs -> xs !! i = Some x -> indexOf_from 0 x xs = Z.of_nat i.
Proof.
  intros Hnd Hi. rewrite (indexOf_from_first 0 x xs i Hi); [lia|].
  intros j Hj Hx. pose proof (NoDup_lookup _ _ _ _ Hnd Hi Hx). lia.
Qed.

Lemma splice1_delete i xs :
  (i < length xs)%nat -> splice1 (Z.of_nat i) xs = delete i xs.
Proof.
  intros Hi. unfold splice1.
  destruct (Z.ltb_spec (Z.of_nat i) 0) as [|_]; [lia|].
  rewrite Z.min_l by lia. by rewrite Nat2Z.id.
Qed.

Lemma with_subsets_same h from to xs ys :
  arrays h !! from = Some xs -> arrays h !! to = Some ys ->
  with_subsets h from to xs ys = h.
Proof.
  intros Hf Ht. destruct h as [os ars]. unfold with_subsets. simpl in *.
  f_equal. rewrite (list_insert_id _ from) by done. by apply list_insert_id.
Qed.

Lemma with_subsets_again h from to xs ys xs' ys' :
  with_subsets (with_subsets h from to xs ys) from to xs' ys'
  = with_subsets h from to xs' ys'.
Proof.
  unfold with_subsets. simpl. f_equal.
  destruct (decide (from = to)) as [->|Hne].
  - by rewrite !list_insert_insert_eq.
  - rewrite (list_insert_insert_ne _ from to) by done.
    by rewrite !list_insert_insert_eq.
Qed.

Lemma with_subsets_swap h from to xs ys xs' ys' :
  from <> to ->
  with_subsets (with_subsets h from to xs ys) to from ys' xs'
  = with_subsets h from to xs' ys'.
Proof.
  intros Hne. unfold with_subsets. simpl. f_equal.
  rewrite list_insert_insert_eq.
  rewrite (list_insert_insert_ne _ from to) by done.
  by rewrite list_insert_insert_eq.
Qed.

Lemma with_subsets_lookup h from to xs ys old_from old_to :
  from <> to ->
  arrays h !! from = Some old_from -> arrays h !! to = Some old_to ->
  arrays (with_subsets h from to xs ys) !! from = Some xs /\
  arrays (with_subsets h from to xs ys) !! to = Some ys.
Proof.
  intros Hne Hf Ht. unfold with_subsets. simpl.
  apply lookup_lt_Some in Hf, Ht. split.
  - rewrite list_lookup_insert_ne by done. by apply list_lookup_insert_eq.
  - apply list_lookup_insert_eq. by rewrite length_insert.
Qed.

Section PassRun.
Variable sign : Z.
Variable pick : ref -> ref -> M ref.
Hypothesis pick_choose :
  forall h a b, live h a -> live h b -> pick a b h = Returns (choose sign h a b) h.

(** One run of the loop body on a non-empty subset. *)
Lemma moveNote_run h from to x rest ys :
  arrays h !! from = Some (x :: rest) -> arrays h !! to = Some ys ->
  from <> to -> Forall (live h) (x :: rest) ->
  let c := fold_left (choose sign h) rest x in
  exists i, (x :: rest) !! i = Some c
    /\ indexOf_from 0 c (x :: rest) = Z.of_nat i
    /\ moveNote pick from to h
       = Returns tt (with_subsets h from to (delete i (x :: rest)) (push ys c)).
Proof.
  intros Hf Ht Hne Hlive c.
  apply Forall_cons in Hlive as [Hx Hrest].
  destruct (fold_choose_last sign h x rest) as (i0 & Hi0 & _). fold c in Hi0.
  assert (Hin : c ∈ x :: rest) by (apply list_elem_of_lookup; eauto).
  destruct (indexOf_from_elem 0 c (x :: rest) Hin) as (i & Hi & Hidx).
  exists i. split; [done|]. split; [lia|].
  unfold moveNote, array_reduce, array_indexOf, array_splice1, array_push.
  unfold bind at 1 2. rewrite (readArray_run _ _ _ Hf).
  rewrite (foldM_pick sign pick pick_choose h x rest Hx Hrest). fold c.
  unfold bind at 1 2. rewrite (readArray_run _ _ _ Hf). unfold ret.
  rewrite Hidx, Z.add_0_l.
  unfold bind at 1 2. rewrite (readArray_run _ _ _ Hf).
  rewrite (writeArray_run _ _ _ _ Hf).
  rewrite splice1_delete by (by eapply lookup_lt_Some).
  assert (Ht' : <[from:=delete i (x :: rest)]> (arrays h) !! to = Some ys)
    by by rewrite list_lookup_insert_ne.
  unfold bind. rewrite (readArray_run _ _ ys) by done.
  by rewrite (writeArray_run _ _ ys) by done.
Qed.

(** On an empty subset the body throws. *)
Lemma moveNote_empty h from to :
  arrays h !! from = Some [] -> moveNote pick from to h = Throws ReduceOfEmpty h.
Proof.
  intros Hf. unfold moveNote, array_reduce.
  unfold bind at 1 2. by rewrite (readArray_run _ _ _ Hf).
Qed.

Lemma exceeds_run h a xs ceiling :
  arrays h !! a = Some xs ->
  exceeds a ceiling h = Returns (Z.of_nat (length xs) >? ceiling) h.
Proof.
  intros Ha. unfold exceeds, array_length.
  unfold bind at 1 2. by rewrite (readArray_run _ _ _ Ha).
Qed.

(** One loop: it stops with the subset at or under a ceiling that is not
    negative, throws on a negative ceiling, and runs out of fuel only when
    the fuel does not exceed the size of the subset. *)
Lemma shrink_wp ceiling from to fuel : forall h xs ys,
  arrays h !! from = Some xs -> arrays h !! to = Some ys ->
  from <> to -> Forall (live h) xs ->
  wp (fun e _ => e = ReduceOfEmpty /\ ceiling < 0) (fuel <= length xs)%nat
     (while fuel (exceeds from ceiling) (moveNote pick from to)) h
     (fun _ h' => exists xs' ys',
        h' = with_subsets h from to xs' ys'
        /\ xs' ++ ys' ≡ₚ xs ++ ys
        /\ Z.of_nat (length xs') <= ceiling
        /\ (Z.of_nat (length xs) <= ceiling -> xs' = xs /\ ys' = ys)).
Proof.
  induction fuel as [|fuel IH]; intros h xs ys Hf Ht Hne Hlive.
  - unfold wp. simpl. lia.
  - simpl. apply wp_bind. unfold wp at 1. rewrite (exceeds_run _ _ _ _ Hf).
    destruct (Z.gtb_spec (Z.of_nat (length xs)) ceiling) as [Hgt|Hle].
    + apply wp_bind. destruct xs as [|x rest].
      { unfold wp. rewrite (moveNote_empty _ _ _ Hf). simpl in Hgt.
        split; [done|lia]. }
      destruct (moveNote_run h from to x rest ys Hf Ht Hne Hlive) as (i & Hi & _ & Hrun).
      unfold wp at 1. rewrite Hrun.
      destruct (with_subsets_lookup h from to (delete i (x :: rest))
                  (push ys (fold_left (choose sign h) rest x)) _ _ Hne Hf Ht)
        as [Hf1 Ht1].
      eapply wp_mono; [| | |apply (IH _ _ _ Hf1 Ht1 Hne)].
      * intros _ h' (xs' & ys' & -> & Hperm & Hlen & _).
        exists xs', ys'. split; [apply with_subsets_again|].
        split; [|split; [done|lia]].
        rewrite Hperm. unfold push.
        transitivity ((fold_left (choose sign h) rest x :: delete i (x :: rest)) ++ ys).
        { rewrite (assoc (++)). symmetry. apply Permutation_cons_append. }
        apply Permutation_app_tail. symmetry. by apply delete_Permutation.
      * done.
      * rewrite length_delete by eauto. simpl. lia.
      * by apply Forall_delete.
    + unfold wp, ret. exists xs, ys.
      split; [by rewrite with_subsets_same|]. split; [done|]. split; [lia|done].
Qed.

End PassRun.

(** ** Both passes on one slice *)

Lemma rebalance_wp config fuel h sr sl xs ys :
  arrays h !! sr = Some xs -> arrays h !! sl = Some ys ->
  sr <> sl -> Forall (live h) (xs ++ ys) ->
  wp (fun e _ => e = ReduceOfEmpty
                 /\ (maxRightHandNotes config < 0 \/ maxLeftHandNotes config < 0))
     (fuel <= length xs + length ys)%nat
     (rebalance fuel config sr sl) h
     (fun _ h' => exists xs' ys',
        h' = with_subsets h sr sl xs' ys'
        /\ xs' ++ ys' ≡ₚ xs ++ ys
        /\ Z.of_nat (length ys') <= maxLeftHandNotes config
        /\ 0 <= maxRightHandNotes config /\ 0 <= maxLeftHandNotes config
        /\ (Z.of_nat (length xs) <= maxRightHandNotes config ->
            Z.of_nat (length ys) <= maxLeftHandNotes config ->
            xs' = xs /\ ys' = ys)).
Proof.
  intros Hr Hl Hne Hlive. unfold rebalance. apply wp_bind.
  apply Forall_app in Hlive as Hlive'. destruct Hlive' as [Hlx Hly].
  eapply wp_mono;
    [| | |apply (shrink_wp 1 lowerNote lowerNote_choose _ sr sl fuel h xs ys)];
    try done; [|simpl; tauto|lia].
  simpl. intros _ h1 (xs1 & ys1 & -> & Hperm1 & Hlen1 & Hid1).
  destruct (with_subsets_lookup h sr sl xs1 ys1 _ _ Hne Hr Hl) as [Hr1 Hl1].
  assert (Hlive1 : Forall (live h) (xs1 ++ ys1)) by by rewrite Hperm1.
  apply Forall_app in Hlive1 as [_ Hly1].
  assert (Hsize : (length xs1 + length ys1 = length xs + length ys)%nat).
  { rewrite <- !length_app. by rewrite Hperm1. }
  eapply wp_mono;
    [| | |apply (shrink_wp (-1) higherNote higherNote_choose _ sl sr fuel _ ys1 xs1)];
    try done; [|simpl; tauto|lia].
  simpl. intros _ h2 (ys2 & xs2 & -> & Hperm2 & Hlen2 & Hid2).
  exists xs2, ys2. split; [by apply with_subsets_swap|].
  split.
  { rewrite <- Hperm1. rewrite (comm (++) xs1). rewrite <- Hperm2. apply (comm (++)). }
  split; [done|]. split; [lia|]. split; [lia|].
  intros Hx Hy. destruct (Hid1 Hx) as [-> ->].
  destruct (Hid2 Hy) as [-> ->]. done.
Qed.

Lemma wp_Returns {A} E T (m : M A) h Q :
  wp E T m h Q -> ~ T -> (forall e h', ~ E e h') -> exists a h', m h = Returns a h' /\ Q a h'.
Proof.
  unfold wp. destruct (m h) as [a h'|e h'|]; intros H HT HE.
  - eauto.
  - by destruct (HE e h').
  - done.
Qed.

(** C3 (as the code has it).  One run of a loop body moves, from the subset
    being shrunk to the end of the other one, a note of the lowest pitch
    (right-to-left pass) or of the highest pitch (left-to-right pass); when
    several notes have that pitch, it is the LAST of them in the order of
    the subset. *)
Theorem moveNote_moves_last_extremum
  (h : Heap) (from to : ref) (xs ys : list ref) :
  arrays h !! from = Some xs -> arrays h !! to = Some ys ->
  from <> to -> xs <> [] -> NoDup xs -> Forall (live h) xs ->
  (exists i c, xs !! i = Some c
     /\ (forall j y, xs !! j = Some y ->
           pitch h c <= pitch h y /\ ((i < j)%nat -> pitch h c < pitch h y))
     /\ moveNote lowerNote from to h
        = Returns tt (with_subsets h from to (delete i xs) (ys ++ [c])))
  /\
  (exists i c, xs !! i = Some c
     /\ (forall j y, xs !! j = Some y ->
           pitch h y <= pitch h c /\ ((i < j)%nat -> pitch h y < pitch h c))
     /\ moveNote higherNote from to h
        = Returns tt (with_subsets h from to (delete i xs) (ys ++ [c]))).
Proof.
  intros Hf Ht Hne Hxs Hnd Hlive.
  destruct xs as [|x rest]; [done|]. split.
  - destruct (moveNote_run 1 lowerNote lowerNote_choose h from to x rest ys)
      as (i & Hi & _ & Hrun); try done.
    destruct (fold_choose_last 1 h x rest) as (i' & Hi' & Hmin).
    assert (i' = i) as -> by (eapply NoDup_lookup; eauto).
    eexists i, _. split; [exact Hi|]. split; [|exact Hrun].
    intros j y Hy. destruct (Hmin j y Hy). lia.
  - destruct (moveNote_run (-1) higherNote higherNote_choose h from to x rest ys)
      as (i & Hi & _ & Hrun); try done.
    destruct (fold_choose_last (-1) h x rest) as (i' & Hi' & Hmin).
    assert (i' = i) as -> by (eapply NoDup_lookup; eauto).
    eexists i, _. split; [exact Hi|]. split; [|exact Hrun].
    intros j y Hy. destruct (Hmin j y Hy). lia.
Qed.

Lemma moveNote_moves_last_extremum_witness :
  (exists i c, [0; 1]%nat !! i = Some c
     /\ (forall j y, [0; 1]%nat !! j = Some y ->
           pitch tie_heap c <= pitch tie_heap y
           /\ ((i < j)%nat -> pitch tie_heap c < pitch tie_heap y))
     /\ moveNote lowerNote 0%nat 1%nat tie_heap
        = Returns tt (with_subsets tie_heap 0%nat 1%nat (delete i [0; 1]%nat) ([] ++ [c])))
  /\
  (exists i c, [0; 1]%nat !! i = Some c
     /\ (forall j y, [0; 1]%nat !! j = Some y ->
           pitch tie_heap y <= pitch tie_heap c
           /\ ((i < j)%nat -> pitch tie_heap y < pitch tie_heap c))
     /\ moveNote higherNote 0%nat 1%nat tie_heap
        = Returns tt (with_subsets tie_heap 0%nat 1%nat (delete i [0; 1]%nat) ([] ++ [c]))).
Proof.
  apply (moveNote_moves_last_extremum tie_heap 0%nat 1%nat [0; 1]%nat []).
  - reflexivity.
  - reflexivity.
  - lia.
  - discriminate.
  - by apply (bool_decide_unpack _).
  - repeat constructor; unfold live; simpl; lia.
Defined.

(** [firstLowest] and [firstHighest] return the first note of the extremal
    pitch. *)
Lemma firstLowest_first h xs c :
  firstLowest h xs = Some c ->
  exists i, xs !! i = Some c
    /\ forall j y, xs !! j = Some y ->
          pitch h c <= pitch h y /\ ((j < i)%nat -> pitch h c < pitch h y).
Proof.
  revert c. induction xs as [|x rest IH]; intros c; simpl; [done|].
  destruct (firstLowest h rest) as [m|] eqn:Hm.
  - destruct (IH m eq_refl) as (i & Hi & Hmin).
    destruct (Z.leb_spec (pitch h x) (pitch h m)) as [Hle|Hgt]; intros [= <-].
    + exists 0%nat. split; [done|]. intros [|j] y Hy; simpl in Hy.
      * injection Hy as <-. lia.
      * destruct (Hmin j y Hy). lia.
    + exists (S i). split; [done|]. intros [|j] y Hy; simpl in Hy.
      * injection Hy as <-. lia.
      * destruct (Hmin j y Hy). split; [lia|]. intros ?. lia.
  - intros [= <-].
    destruct rest as [|z rest];
      [|simpl in Hm; destruct (firstLowest h rest); [destruct (_ <=? _)|]; done].
    exists 0%nat. split; [done|]. intros [|j] y Hy; simpl in Hy; [|done].
    injection Hy as <-. lia.
Qed.

Lemma firstHighest_first h xs c :
  firstHighest h xs = Some c ->
  exists i, xs !! i = Some c
    /\ forall j y, xs !! j = Some y ->
          pitch h y <= pitch h c /\ ((j < i)%nat -> pitch h y < pitch h c).
Proof.
  revert c. induction xs as [|x rest IH]; intros c; simpl; [done|].
  destruct (firstHighest h rest) as [m|] eqn:Hm.
  - destruct (IH m eq_refl) as (i & Hi & Hmax).
    destruct (Z.leb_spec (pitch h m) (pitch h x)) as [Hle|Hgt]; intros [= <-].
    + exists 0%nat. split; [done|]. intros [|j] y Hy; simpl in Hy.
      * injection Hy as <-. lia.
      * destruct (Hmax j y Hy). lia.
    + exists (S i). split; [done|]. intros [|j] y Hy; simpl in Hy.
      * injection Hy as <-. lia.
      * destruct (Hmax j y Hy). split; [lia|]. intros ?. lia.
  - intros [= <-].
    destruct rest as [|z rest];
      [|simpl in Hm; destruct (firstHighest h rest); [destruct (_ <=? _)|]; done].
    exists 0%nat. split; [done|]. intros [|j] y Hy; simpl in Hy; [|done].
    injection Hy as <-. lia.
Qed.

(** C3 as stated fails: with two notes of the same lowest (highest) pitch,
    the note moved is not the first one of that pitch. *)
Lemma moveNote_tie_not_first :
  movedNote lowerNote 0%nat 1%nat tie_heap <> firstLowest tie_heap [0; 1]%nat
  /\ movedNote higherNote 1%nat 0%nat tie_heap_left
     <> firstHighest tie_heap_left [0; 1]%nat.
Proof. split; vm_compute; discriminate. Qed.

(** C9.  With a left ceiling that is not negative, when both passes have
    run on a slice the left subset holds at most [maxLeftHandNotes] notes.
    The passes do not complete only when the right ceiling is negative
    (the first pass throws) or when the fuel does not exceed the number of
    notes of the slice. *)
Theorem rebalance_left_ceiling
  (config : Config) (fuel : nat) (h : Heap) (sr sl : ref) (xs ys : list ref) :
  arrays h !! sr = Some xs -> arrays h !! sl = Some ys ->
  sr <> sl -> Forall (live h) (xs ++ ys) ->
  0 <= maxLeftHandNotes config ->
  match rebalance fuel config sr sl h with
  | Returns _ h' =>
      exists ys', arrays h' !! sl = Some ys'
                  /\ Z.of_nat (length ys') <= maxLeftHandNotes config
  | Throws e _ => e = ReduceOfEmpty /\ maxRightHandNotes config < 0
  | OutOfFuel => (fuel <= length xs + length ys)%nat
  end.
Proof.
  intros Hr Hl Hne Hlive HmaxL.
  pose proof (rebalance_wp config fuel h sr sl xs ys Hr Hl Hne Hlive) as H.
  unfold wp in H. destruct (rebalance fuel config sr sl h) as [[] h'|e h'|].
  - destruct H as (xs' & ys' & -> & _ & Hlen & _).
    exists ys'. split; [|done].
    by destruct (with_subsets_lookup h sr sl xs' ys' _ _ Hne Hr Hl).
  - destruct H as [-> [?|?]]; [done|lia].
  - done.
Qed.

Lemma rebalance_left_ceiling_witness :
  match rebalance 10 (sample_config 1 1) 0%nat 1%nat crowded_heap with
  | Returns _ h' =>
      exists ys', arrays h' !! 1%nat = Some ys'
                  /\ Z.of_nat (length ys') <= maxLeftHandNotes (sample_config 1 1)
  | Throws e _ => e = ReduceOfEmpty /\ maxRightHandNotes (sample_config 1 1) < 0
  | OutOfFuel => (10 <= length [0; 1; 2]%nat + length [3%nat])%nat
  end.
Proof.
  apply (rebalance_left_ceiling (sample_config 1 1) 10 crowded_heap 0%nat 1%nat
           [0; 1; 2]%nat [3%nat]).
  - reflexivity.
  - reflexivity.
  - lia.
  - repeat constructor; unfold live; simpl; lia.
  - simpl. lia.
Defined.

(** The right ceiling, checked first, can be exceeded again by the second
    pass: with both ceilings at 1 the right subset ends with three notes. *)
Lemma rebalance_right_ceiling_exceeded :
  exists h', rebalance 10 (sample_config 1 1) 0%nat 1%nat crowded_heap = Returns tt h'
             /\ arrays h' !! 0%nat = Some [2; 1; 0]%nat
             /\ arrays h' !! 1%nat = Some [3%nat].
Proof. eexists. split; [vm_compute; reflexivity|]. by split. Qed.

(** ** The emitter *)

Section EmitterFacts.
Context {HeaderEvent : Type}.
Variable addNote : Out.Track -> Note -> AddResult.

Lemma x_forEach_emitNote hand notes : forall i t console,
  x_forEach (emitNote addNote hand) i notes (t, console)
  = Normal tt (trackAfter addNote notes t,
               console ++ errorsFrom addNote hand i notes t).
Proof.
  induction notes as [|n rest IH]; intros i t console; simpl.
  - unfold x_ret. by rewrite app_nil_r.
  - unfold x_bind, emitNote, try_catch, callAddNote, logError. simpl.
    destruct (addNote t (copyNote n)) as [t'|t']; simpl.
    + apply IH.
    + rewrite IH. unfold push. by rewrite <- app_assoc.
Qed.

Lemma generatePianoMidi_run (header : @Header HeaderEvent) arrangement console :
  let rightTrack :=
    trackAfter addNote (rightHand arrangement) (newTrack "Right Hand") in
  let leftTrack :=
    trackAfter addNote (leftHand arrangement) (newTrack "Left Hand") in
  generatePianoMidi addNote header arrangement console
  = Normal {| out_header := header; out_tracks := [rightTrack; leftTrack] |}
           (console
            ++ errorsFrom addNote RightSide 0 (rightHand arrangement)
                          (newTrack "Right Hand")
            ++ errorsFrom addNote LeftSide 0 (leftHand arrangement)
                          (newTrack "Left Hand")
            ++ emptyWarning rightTrack leftTrack arrangement).
Proof.
  intros rightTrack leftTrack. unfold generatePianoMidi.
  rewrite !x_forEach_emitNote. fold rightTrack leftTrack.
  unfold emptyWarning, push.
  destruct (_ && _); by rewrite <- ?app_assoc, ?app_nil_r.
Qed.

Lemma trackAfter_app notes1 notes2 t :
  trackAfter addNote (notes1 ++ notes2) t
  = trackAfter addNote notes2 (trackAfter addNote notes1 t).
Proof. revert t. induction notes1 as [|n l IH]; intros t; simpl; auto. Qed.

End EmitterFacts.

(** C7.  The emitter always returns: a throw of [addNote] is caught and
    logged with the note and its position, and [addNote] is still called,
    in order, on every later note of that hand and on every note of the
    other hand.  In particular the notes after a failing one are emitted as
    if the emission had started after it. *)
Theorem generatePianoMidi_continues {HeaderEvent : Type}
  (addNote : Out.Track -> Note -> AddResult)
  (header : @Header HeaderEvent) (arrangement : Arrangement)
  (console : list LogEntry) :
  let rightTrack :=
    trackAfter addNote (rightHand arrangement) (newTrack "Right Hand") in
  let leftTrack :=
    trackAfter addNote (leftHand arrangement) (newTrack "Left Hand") in
  generatePianoMidi addNote header arrangement console
  = Normal {| out_header := header; out_tracks := [rightTrack; leftTrack] |}
           (console
            ++ errorsFrom addNote RightSide 0 (rightHand arrangement)
                          (newTrack "Right Hand")
            ++ errorsFrom addNote LeftSide 0 (leftHand arrangement)
                          (newTrack "Left Hand")
            ++ emptyWarning rightTrack leftTrack arrangement)
  /\ (forall before failing after t,
        trackAfter addNote (before ++ failing :: after) t
        = trackAfter addNote after
            (trackOf (addNote (trackAfter addNote before t) (copyNote failing))))
  /\ (forall hand i failing after t t',
        addNote t (copyNote failing) = Threw t' ->
        errorsFrom addNote hand i (failing :: after) t
        = ErrorAddingNote hand i failing :: errorsFrom addNote hand (S i) after t').
Proof.
  intros rightTrack leftTrack. split; [apply generatePianoMidi_run|]. split.
  - intros before failing after t. by rewrite trackAfter_app.
  - intros hand i failing after t t' Hthrow. simpl. by rewrite Hthrow.
Qed.

Lemma generatePianoMidi_continues_witness :
  errorsFrom strictAddNote RightSide 1 [note 200 1 1 80; note 62 2 1 80]
             (trackAfter strictAddNote [note 60 0 1 80] (newTrack "Right Hand"))
  = ErrorAddingNote RightSide 1 (note 200 1 1 80)
    :: errorsFrom strictAddNote RightSide 2 [note 62 2 1 80]
                  (trackAfter strictAddNote [note 60 0 1 80] (newTrack "Right Hand")).
Proof.
  destruct (generatePianoMidi_continues strictAddNote emptyHeader
              faulty_arrangement []) as (_ & _ & Hlogged).
  apply Hlogged. reflexivity.
Defined.

(** With a library that rejects pitch 200: the note is logged and skipped,
    the notes after it and the left hand are emitted. *)
Lemma generatePianoMidi_skips_bad_note :
  generatePianoMidi strictAddNote emptyHeader faulty_arrangement []
  = Normal
      {| out_header := emptyHeader;
         out_tracks :=
           [ {| Out.name := "Right Hand"; Out.instrument := 0;
                Out.notes := [note 60 0 1 80; note 62 2 1 80] |};
             {| Out.name := "Left Hand"; Out.instrument := 0;
                Out.notes := [note 40 0 1 80] |} ] |}
      [ErrorAddingNote RightSide 1 (note 200 1 1 80)].
Proof. reflexivity. Qed.

(** ** The entry point *)

(** C2.  The entry point emits the initial distribution: the arrangement
    handed to the emitter is the result of [createPianoArrangement] on the
    classified tracks, and no step of the balancer stands between them. *)
Theorem optimizeMidiForPiano_unbalanced {HeaderEvent : Type}
  (addNote : Out.Track -> Note -> AddResult)
  (midi : @Midi HeaderEvent) (options : Options) (console : list LogEntry) :
  let initial :=
    createPianoArrangement (analyzeMidiTracks (midi_tracks midi))
                           (mergeOptions options) in
  exists console',
    generatePianoMidi addNote (midi_header midi) initial console
    = Normal {| out_header := midi_header midi;
                out_tracks :=
                  [trackAfter addNote (rightHand initial) (newTrack "Right Hand");
                   trackAfter addNote (leftHand initial) (newTrack "Left Hand")] |}
             console'
    /\ optimizeMidiForPiano addNote midi options console
       = Normal
           ({| out_header := midi_header midi;
               out_tracks :=
                 [trackAfter addNote (rightHand initial) (newTrack "Right Hand");
                  trackAfter addNote (leftHand initial) (newTrack "Left Hand")] |},
            {| originalTracks := length (midi_tracks midi);
               rightHandNotes := length (rightHand initial);
               leftHandNotes := length (leftHand initial);
               summary_duration := midi_duration midi |})
           console'.
Proof.
  intros initial. eexists. split; [apply generatePianoMidi_run|].
  unfold optimizeMidiForPiano, try_catch, x_bind. fold initial.
  by rewrite generatePianoMidi_run.
Qed.

(** Three notes held together in a melody track, with a right ceiling of 2:
    the entry point emits the three of them in the right hand, where the
    balancer, run on the same distribution, leaves two. *)
Lemma optimizeMidiForPiano_exceeds_ceiling :
  let config := mergeOptions chord_options in
  let initial :=
    createPianoArrangement (analyzeMidiTracks (midi_tracks chord_midi)) config in
  (exists out summary console,
     optimizeMidiForPiano strictAddNote chord_midi chord_options []
     = Normal (out, summary) console
     /\ map Out.notes (out_tracks out) = [rightHand initial; leftHand initial]
     /\ rightHandNotes summary = 3%nat)
  /\ balance 10 (rightHand initial) (leftHand initial) config
     = Some {| rightHand := [note 72 0 1 80; note 75 0 1 80];
               leftHand := [note 70 0 1 80] |}.
Proof.
  split; [|vm_compute; reflexivity].
  eexists _, _, _. split; [vm_compute; reflexivity|]. by split.
Qed.

(** ** The balancer returns *)

Lemma live_prefix h h' r :
  objects h `prefix_of` objects h' -> live h r -> live h' r.
Proof. unfold live. intros Hp%prefix_length. lia. Qed.

Lemma changes_only_refl o1 o2 h : changes_only o1 o2 h h.
Proof. by repeat split. Qed.

Lemma changes_only_trans o1 o2 h1 h2 h3 :
  changes_only o1 o2 h1 h2 -> changes_only o1 o2 h2 h3 -> changes_only o1 o2 h1 h3.
Proof.
  intros (Ho1 & Hs1 & Hk1) (Ho2 & Hs2 & Hk2). split; [by etrans|]. split; eauto.
Qed.

(** Allocation changes no array. *)
Lemma changes_only_alloc o1 o2 h ns k :
  changes_only o1 o2 h {| objects := objects h ++ ns; arrays := arrays h ++ k |}.
Proof.
  split; [by apply prefix_app_r|]. simpl. split.
  - intros a [xs Ha]. exists xs. by apply lookup_app_l_Some.
  - intros a xs Ha _ _. by apply lookup_app_l_Some.
Qed.

Lemma wellFormed_alloc h ns k :
  wellFormed h ->
  Forall (Forall (fun r => r < length (objects h ++ ns))%nat) k ->
  wellFormed {| objects := objects h ++ ns; arrays := arrays h ++ k |}.
Proof.
  intros Hwf Hk a xs Ha. simpl in Ha. unfold live. simpl.
  apply lookup_app_Some in Ha as [Ha|[_ Ha]].
  - eapply Forall_impl; [by eapply Hwf|]. intros r Hr. unfold live in Hr.
    rewrite length_app. lia.
  - eapply Forall_lookup_1 in Hk; eauto.
Qed.

Lemma wellFormed_write h a xs :
  wellFormed h -> Forall (live h) xs ->
  wellFormed {| objects := objects h; arrays := <[a := xs]> (arrays h) |}.
Proof.
  intros Hwf Hxs b ys Hb. simpl in Hb.
  apply list_lookup_insert_Some in Hb as [(_ & <- & _)|[_ Hb]]; [done|].
  by eapply Hwf.
Qed.

Lemma copyObject_run h r :
  live h r ->
  exists n, copyObject r h
            = Returns (length (objects h))
                      {| objects := objects h ++ [n]; arrays := arrays h |}.
Proof.
  intros Hr. destruct (readObject_live h r Hr) as (n & _ & Hrun).
  exists n. unfold copyObject. by rewrite (bind_Returns _ _ _ _ _ Hrun).
Qed.

Lemma mapM'_copyObject xs : forall h,
  Forall (live h) xs ->
  exists ns ys,
    mapM' copyObject xs h
    = Returns ys {| objects := objects h ++ ns; arrays := arrays h |}
    /\ length ys = length xs
    /\ Forall (fun r => r < length (objects h ++ ns))%nat ys.
Proof.
  induction xs as [|x xs IH]; intros h Hlive.
  - exists [], []. simpl. unfold ret. rewrite app_nil_r. by destruct h.
  - apply Forall_cons in Hlive as [Hx Hxs].
    destruct (copyObject_run h x Hx) as (n & Hrun).
    set (h1 := {| objects := objects h ++ [n]; arrays := arrays h |}) in *.
    destruct (IH h1) as (ns & ys & Hrun' & Hlen & Hys).
    { eapply Forall_impl; [exact Hxs|]. intros r.
      apply live_prefix. simpl. by apply prefix_app_r. }
    exists (n :: ns), (length (objects h) :: ys). simpl.
    rewrite (bind_Returns _ _ _ _ _ Hrun), (bind_Returns _ _ _ _ _ Hrun').
    unfold ret. simpl. rewrite <- app_assoc. simpl.
    split; [done|]. split; [by rewrite Hlen|].
    simpl in Hys. rewrite <- app_assoc in Hys. simpl in Hys.
    constructor; [|done]. rewrite length_app. simpl. lia.
Qed.

Lemma array_map_run h a xs :
  arrays h !! a = Some xs -> Forall (live h) xs ->
  exists ns ys,
    array_map copyObject a h
    = Returns (length (arrays h))
              {| objects := objects h ++ ns; arrays := arrays h ++ [ys] |}
    /\ length ys = length xs
    /\ Forall (fun r => r < length (objects h ++ ns))%nat ys.
Proof.
  intros Ha Hlive.
  destruct (mapM'_copyObject xs h Hlive) as (ns & ys & Hrun & Hlen & Hys).
  exists ns, ys. split; [|done]. unfold array_map.
  rewrite (bind_Returns _ _ _ _ _ (readArray_run _ _ _ Ha)).
  by rewrite (bind_Returns _ _ _ _ _ Hrun).
Qed.

Lemma array_concat_run h a b xs ys :
  arrays h !! a = Some xs -> arrays h !! b = Some ys ->
  array_concat a b h
  = Returns (length (arrays h))
            {| objects := objects h; arrays := arrays h ++ [xs ++ ys] |}.
Proof.
  intros Ha Hb. unfold array_concat.
  rewrite (bind_Returns _ _ _ _ _ (readArray_run _ _ _ Ha)).
  by rewrite (bind_Returns _ _ _ _ _ (readArray_run _ _ _ Hb)).
Qed.

Lemma sublist_Forall {A} (P : A -> Prop) (ys xs : list A) :
  sublist ys xs -> Forall P xs -> Forall P ys.
Proof.
  induction 1 as [|x ys xs _ IH|x ys xs _ IH]; intros HP; [done| |].
  - apply Forall_cons in HP as [? ?]. constructor; auto.
  - apply Forall_cons in HP as [? ?]. auto.
Qed.

Lemma covers_run h s e r : live h r -> exists b, covers s e r h = Returns b h.
Proof.
  intros Hr. destruct (readObject_live h r Hr) as (n & _ & Hrun).
  eexists. unfold covers. by rewrite (bind_Returns _ _ _ _ _ Hrun).
Qed.

Lemma filterM_covers h s e xs :
  Forall (live h) xs ->
  exists ys, filterM (covers s e) xs h = Returns ys h /\ sublist ys xs.
Proof.
  induction 1 as [|x xs Hx _ (ys & Hrun & Hsub)]; simpl.
  - by exists [].
  - destruct (covers_run h s e x Hx) as (b & Hb).
    rewrite (bind_Returns _ _ _ _ _ Hb), (bind_Returns _ _ _ _ _ Hrun).
    destruct b; eexists; (split; [reflexivity|]); by constructor.
Qed.

Lemma array_filter_run h s e a xs :
  arrays h !! a = Some xs -> Forall (live h) xs ->
  exists ys, sublist ys xs
    /\ array_filter (covers s e) a h
       = Returns (length (arrays h))
                 {| objects := objects h; arrays := arrays h ++ [ys] |}.
Proof.
  intros Ha Hlive.
  destruct (filterM_covers h s e xs Hlive) as (ys & Hrun & Hsub).
  exists ys. split; [done|]. unfold array_filter.
  rewrite (bind_Returns _ _ _ _ _ (readArray_run _ _ _ Ha)).
  by rewrite (bind_Returns _ _ _ _ _ Hrun).
Qed.

Lemma addTimePoints_run h timePoints r :
  live h r -> exists timePoints', addTimePoints timePoints r h = Returns timePoints' h.
Proof.
  intros Hr. destruct (readObject_live h r Hr) as (n & _ & Hrun).
  eexists. unfold addTimePoints. by rewrite (bind_Returns _ _ _ _ _ Hrun).
Qed.

Lemma foldM_addTimePoints h ns : forall timePoints,
  Forall (live h) ns ->
  exists timePoints', foldM addTimePoints timePoints ns h = Returns timePoints' h.
Proof.
  induction ns as [|r ns IH]; intros tp Hlive; simpl; [by eexists|].
  apply Forall_cons in Hlive as [Hr Hns].
  destruct (addTimePoints_run h tp r Hr) as (tp' & Hrun).
  rewrite (bind_Returns _ _ _ _ _ Hrun).
  apply IH, Hns.
Qed.

Lemma makeSlice_run h notes ns bounds :
  arrays h !! notes = Some ns -> Forall (live h) ns ->
  exists slice ys, sublist ys ns
    /\ makeSlice notes bounds h
       = Returns slice {| objects := objects h; arrays := arrays h ++ [ys] |}.
Proof.
  intros Hn Hlive.
  destruct (array_filter_run h (fst bounds) (snd bounds) notes ns Hn Hlive)
    as (ys & Hsub & Hrun).
  eexists _, ys. split; [done|]. unfold makeSlice.
  by rewrite (bind_Returns _ _ _ _ _ Hrun).
Qed.

Lemma mapM'_makeSlice notes ns bounds : forall h,
  arrays h !! notes = Some ns -> Forall (live h) ns ->
  exists slices k,
    mapM' (makeSlice notes) bounds h
    = Returns slices {| objects := objects h; arrays := arrays h ++ k |}
    /\ Forall (Forall (live h)) k.
Proof.
  induction bounds as [|b bounds IH]; intros h Hn Hlive; simpl.
  - exists [], []. unfold ret. rewrite app_nil_r. by destruct h.
  - destruct (makeSlice_run h notes ns b Hn Hlive) as (slice & ys & Hsub & Hrun).
    set (h1 := {| objects := objects h; arrays := arrays h ++ [ys] |}) in *.
    destruct (IH h1) as (slices & k & Hrun' & Hk); [by apply lookup_app_l_Some|done|].
    eexists _, (ys :: k).
    rewrite (bind_Returns _ _ _ _ _ Hrun), (bind_Returns _ _ _ _ _ Hrun').
    unfold ret. simpl. rewrite <- app_assoc. simpl. split; [done|].
    constructor; [|done]. by eapply sublist_Forall.
Qed.

Lemma createTimeSlices_run h notes ns :
  arrays h !! notes = Some ns -> Forall (live h) ns ->
  exists slices k,
    createTimeSlices notes h
    = Returns slices {| objects := objects h; arrays := arrays h ++ k |}
    /\ Forall (Forall (live h)) k.
Proof.
  intros Hn Hlive. unfold createTimeSlices.
  rewrite (bind_Returns _ _ _ _ _ (readArray_run _ _ _ Hn)).
  destruct (foldM_addTimePoints h ns [] Hlive) as (tp & Hrun).
  rewrite (bind_Returns _ _ _ _ _ Hrun).
  by apply mapM'_makeSlice with ns.
Qed.

Lemma sameTimeAndPitch_run h note n :
  live h note -> live h n -> exists b, sameTimeAndPitch note n h = Returns b h.
Proof.
  intros Hnote Hn.
  destruct (readObject_live h n Hn) as (o & _ & Ho).
  destruct (readObject_live h note Hnote) as (this & _ & Hthis).
  eexists. unfold sameTimeAndPitch.
  by rewrite (bind_Returns _ _ _ _ _ Ho), (bind_Returns _ _ _ _ _ Hthis).
Qed.

Lemma someM_sameTimeAndPitch h note zs :
  live h note -> Forall (live h) zs ->
  exists b, someM (sameTimeAndPitch note) zs h = Returns b h.
Proof.
  intros Hnote. induction 1 as [|z zs Hz _ [b IH]]; simpl; [by eexists|].
  destruct (sameTimeAndPitch_run h note z Hnote Hz) as ([] & Hrun);
    rewrite (bind_Returns _ _ _ _ _ Hrun); eauto.
Qed.

(** One note merged into an optimized list: at most one object is added
    and only the array [optimized] is written. *)
Lemma mergeNote_run h optimized note zs :
  arrays h !! optimized = Some zs -> Forall (live h) zs -> live h note ->
  exists ns zs',
    mergeNote optimized note h
    = Returns tt {| objects := objects h ++ ns;
                    arrays := <[optimized := zs']> (arrays h) |}
    /\ Forall (fun r => r < length (objects h ++ ns))%nat zs'.
Proof.
  intros Ho Hzs Hnote.
  destruct (someM_sameTimeAndPitch h note zs Hnote Hzs) as (seen & Hseen).
  unfold mergeNote, array_some.
  rewrite (bind_Returns _ _ h seen h)
    by by rewrite (bind_Returns _ _ _ _ _ (readArray_run _ _ _ Ho)).
  destruct seen; simpl.
  - exists [], zs. unfold ret. rewrite app_nil_r, list_insert_id by done.
    split; [by destruct h|done].
  - destruct (copyObject_run h note Hnote) as (n & Hcopy).
    rewrite (bind_Returns _ _ _ _ _ Hcopy).
    exists [n], (push zs (length (objects h))). unfold array_push.
    rewrite (bind_Returns _ _ _ zs _) by by apply readArray_run.
    rewrite (writeArray_run _ _ zs) by done. simpl. split; [done|].
    rewrite length_app. simpl. apply Forall_app. split.
    + eapply Forall_impl; [exact Hzs|]. unfold live. intros. lia.
    + repeat constructor. lia.
Qed.

Lemma forM_mergeNote optimized notes : forall h zs,
  arrays h !! optimized = Some zs -> Forall (live h) zs -> Forall (live h) notes ->
  exists ns zs',
    forM (mergeNote optimized) notes h
    = Returns tt {| objects := objects h ++ ns;
                    arrays := <[optimized := zs']> (arrays h) |}
    /\ Forall (fun r => r < length (objects h ++ ns))%nat zs'.
Proof.
  induction notes as [|note notes IH]; intros h zs Ho Hzs Hnotes; simpl.
  - exists [], zs. unfold ret. rewrite app_nil_r, list_insert_id by done.
    split; [by destruct h|done].
  - apply Forall_cons in Hnotes as [Hnote Hnotes].
    destruct (mergeNote_run h optimized note zs Ho Hzs Hnote)
      as (ns1 & zs1 & Hrun1 & Hzs1).
    set (h1 := {| objects := objects h ++ ns1;
                  arrays := <[optimized := zs1]> (arrays h) |}) in *.
    destruct (IH h1 zs1) as (ns2 & zs2 & Hrun2 & Hzs2).
    { simpl. apply list_lookup_insert_eq. by eapply lookup_lt_Some. }
    { done. }
    { eapply Forall_impl; [exact Hnotes|]. intros r.
      apply live_prefix. simpl. by apply prefix_app_r. }
    exists (ns1 ++ ns2), zs2.
    rewrite (bind_Returns _ _ _ _ _ Hrun1), Hrun2. subst h1. simpl in *.
    rewrite list_insert_insert_eq, <- app_assoc. split; [done|].
    by rewrite <- app_assoc in Hzs2.
Qed.

Lemma array_forEach_mergeNote h optimized a notes zs :
  arrays h !! a = Some notes -> arrays h !! optimized = Some zs ->
  Forall (live h) zs -> Forall (live h) notes ->
  exists ns zs',
    array_forEach (mergeNote optimized) a h
    = Returns tt {| objects := objects h ++ ns;
                    arrays := <[optimized := zs']> (arrays h) |}
    /\ Forall (fun r => r < length (objects h ++ ns))%nat zs'.
Proof.
  intros Ha Ho Hzs Hnotes. unfold array_forEach.
  rewrite (bind_Returns _ _ _ _ _ (readArray_run _ _ _ Ha)).
  by apply forM_mergeNote with zs.
Qed.

Lemma wellFormed_merge h o ns zs :
  wellFormed h -> Forall (fun r => r < length (objects h ++ ns))%nat zs ->
  wellFormed {| objects := objects h ++ ns; arrays := <[o := zs]> (arrays h) |}.
Proof.
  intros Hwf Hzs a xs Ha. simpl in Ha. unfold live. simpl.
  apply list_lookup_insert_Some in Ha as [(_ & <- & _)|[_ Ha]]; [done|].
  eapply Forall_impl; [by eapply Hwf|]. intros r Hr. unfold live in Hr.
  rewrite length_app. lia.
Qed.

Lemma changes_only_merge o1 o2 o h ns zs :
  o = o1 \/ o = o2 ->
  changes_only o1 o2 h
    {| objects := objects h ++ ns; arrays := <[o := zs]> (arrays h) |}.
Proof.
  intros Ho. split; [by apply prefix_app_r|]. simpl. split.
  - intros a Ha. apply lookup_lt_is_Some. rewrite length_insert.
    by apply lookup_lt_is_Some.
  - intros a xs Ha H1 H2. rewrite list_lookup_insert_ne; [done|].
    destruct Ho; congruence.
Qed.

(** Writing two arrays that [h] does not have changes no array of [h]. *)
Lemma changes_only_subsets o1 o2 h h2 sr sl xs ys :
  changes_only o1 o2 h h2 ->
  arrays h !! sr = None -> arrays h !! sl = None ->
  changes_only o1 o2 h (with_subsets h2 sr sl xs ys).
Proof.
  intros (Hobj & Hsome & Hkeep) Hsr Hsl. split; [done|]. simpl. split.
  - intros a Ha. apply lookup_lt_is_Some. rewrite !length_insert.
    by apply lookup_lt_is_Some, Hsome.
  - intros a zs Ha H1 H2.
    rewrite !list_lookup_insert_ne by congruence. by apply Hkeep.
Qed.

Lemma wellFormed_newArray h xs :
  wellFormed h -> Forall (live h) xs ->
  wellFormed {| objects := objects h; arrays := arrays h ++ [xs] |}.
Proof.
  intros Hwf Hxs a ys Ha. simpl in Ha.
  apply lookup_app_Some in Ha as [Ha|[_ Ha]]; [by eapply Hwf|].
  apply list_lookup_singleton_Some in Ha as [_ <-]. done.
Qed.

Lemma changes_only_newArray o1 o2 h xs :
  changes_only o1 o2 h {| objects := objects h; arrays := arrays h ++ [xs] |}.
Proof.
  split; [done|]. simpl. split.
  - intros a [ys Ha]. exists ys. by apply lookup_app_l_Some.
  - intros a ys Ha _ _. by apply lookup_app_l_Some.
Qed.

Lemma wellFormed_subsets h from to xs ys :
  wellFormed h -> Forall (live h) xs -> Forall (live h) ys ->
  wellFormed (with_subsets h from to xs ys).
Proof.
  intros Hwf Hxs Hys. unfold with_subsets.
  apply (wellFormed_write {| objects := objects h;
                             arrays := <[from := xs]> (arrays h) |}); [|done].
  by apply wellFormed_write.
Qed.

(** One slice: it ends without an error when the ceilings are not negative
    and the fuel exceeds the number of notes; it leaves a well-formed heap
    and writes no array of the heap it started on, except the two optimized
    lists. *)
Lemma processSlice_wp fuel config rc lc oR oL slice h cr cl :
  wellFormed h ->
  arrays h !! rc = Some cr -> arrays h !! lc = Some cl ->
  is_Some (arrays h !! oR) -> is_Some (arrays h !! oL) ->
  wp (fun e _ => e = ReduceOfEmpty
                 /\ (maxRightHandNotes config < 0 \/ maxLeftHandNotes config < 0))
     (fuel <= length cr + length cl)%nat
     (processSlice fuel config rc lc oR oL slice) h
     (fun _ h' => wellFormed h' /\ changes_only oR oL h h').
Proof.
  intros Hwf Hrc Hlc HoR HoL. unfold processSlice.
  set (s := Slice.startTime slice). set (e := Slice.endTime slice).
  destruct (array_filter_run h s e rc cr Hrc (Hwf _ _ Hrc)) as (xs & Hsubx & Hrun1).
  set (sr := length (arrays h)) in *.
  set (h1 := {| objects := objects h; arrays := arrays h ++ [xs] |}) in *.
  assert (Hwf1 : wellFormed h1).
  { apply wellFormed_newArray; [done|]. eapply sublist_Forall; eauto. }
  assert (Hlc1 : arrays h1 !! lc = Some cl) by by apply lookup_app_l_Some.
  destruct (array_filter_run h1 s e lc cl Hlc1 (Hwf1 _ _ Hlc1)) as (ys & Hsuby & Hrun2).
  set (sl := length (arrays h1)) in *.
  set (h2 := {| objects := objects h1; arrays := arrays h1 ++ [ys] |}) in *.
  assert (Hwf2 : wellFormed h2).
  { apply wellFormed_newArray; [done|]. eapply sublist_Forall; eauto. }
  assert (Hsl : sl = S sr).
  { unfold sl, sr, h1. simpl. rewrite length_app. simpl. lia. }
  assert (Hsr2 : arrays h2 !! sr = Some xs).
  { unfold h2, h1. simpl. apply lookup_app_l_Some. by apply list_lookup_middle. }
  assert (Hsl2 : arrays h2 !! sl = Some ys).
  { unfold h2. simpl. by apply list_lookup_middle. }
  assert (Hch2 : changes_only oR oL h h2).
  { eapply changes_only_trans; apply changes_only_newArray. }
  assert (Hnone : forall a, (sr <= a)%nat -> arrays h !! a = None).
  { intros a Ha. by apply lookup_ge_None. }
  apply wp_bind. unfold wp at 1. rewrite Hrun1.
  apply wp_bind. unfold wp at 1. rewrite Hrun2.
  apply wp_bind.
  eapply wp_mono; [| | |apply (rebalance_wp config fuel h2 sr sl xs ys)];
    try done.
  - simpl. intros _ h3 (xs' & ys' & -> & Hperm & _).
    assert (Hlive3 : Forall (live h2) (xs' ++ ys')).
    { rewrite Hperm. apply Forall_app. split; by eapply Hwf2. }
    apply Forall_app in Hlive3 as [Hxs' Hys'].
    set (h3 := with_subsets h2 sr sl xs' ys') in *.
    assert (Hwf3 : wellFormed h3) by by apply wellFormed_subsets.
    assert (Hch3 : changes_only oR oL h h3).
    { apply changes_only_subsets; [done|apply Hnone; lia..]. }
    destruct (with_subsets_lookup h2 sr sl xs' ys' _ _ ltac:(lia) Hsr2 Hsl2)
      as [Hsr3 Hsl3]. fold h3 in Hsr3, Hsl3.
    destruct (proj1 (proj2 Hch3) oR HoR) as [zr HoR3].
    destruct (array_forEach_mergeNote h3 oR sr xs' zr Hsr3 HoR3 (Hwf3 _ _ HoR3) Hxs')
      as (ns4 & zr4 & Hrun4 & Hzr4).
    set (h4 := {| objects := objects h3 ++ ns4;
                  arrays := <[oR := zr4]> (arrays h3) |}) in *.
    assert (Hwf4 : wellFormed h4) by by apply wellFormed_merge.
    assert (Hch34 : changes_only oR oL h3 h4) by (apply changes_only_merge; auto).
    assert (HoR_lt : (oR < sr)%nat) by by apply lookup_lt_is_Some.
    assert (HoL_lt : (oL < sr)%nat) by by apply lookup_lt_is_Some.
    assert (Hsl4 : arrays h4 !! sl = Some ys').
    { apply (proj2 (proj2 Hch34)); [done|lia|lia]. }
    destruct (proj1 (proj2 (changes_only_trans _ _ _ _ _ Hch3 Hch34)) oL HoL)
      as [zl HoL4].
    destruct (array_forEach_mergeNote h4 oL sl ys' zl Hsl4 HoL4 (Hwf4 _ _ HoL4))
      as (ns5 & zl5 & Hrun5 & Hzl5).
    { eapply Forall_impl; [exact Hys'|]. intros r. apply live_prefix.
      simpl. by apply prefix_app_r. }
    apply wp_bind. unfold wp at 1. rewrite Hrun4.
    unfold wp. rewrite Hrun5. split; [by apply wellFormed_merge|].
    eapply changes_only_trans; [exact Hch3|].
    eapply changes_only_trans; [exact Hch34|].
    apply changes_only_merge. auto.
  - apply sublist_length in Hsubx, Hsuby. lia.
  - lia.
  - apply Forall_app. split; by eapply Hwf2.
Qed.

Lemma forM_processSlice_wp fuel config rc lc oR oL cr cl slices : forall h,
  rc <> oR -> rc <> oL -> lc <> oR -> lc <> oL ->
  wellFormed h ->
  arrays h !! rc = Some cr -> arrays h !! lc = Some cl ->
  is_Some (arrays h !! oR) -> is_Some (arrays h !! oL) ->
  wp (fun e _ => e = ReduceOfEmpty
                 /\ (maxRightHandNotes config < 0 \/ maxLeftHandNotes config < 0))
     (fuel <= length cr + length cl)%nat
     (forM (processSlice fuel config rc lc oR oL) slices) h
     (fun _ h' => wellFormed h' /\ changes_only oR oL h h').
Proof.
  induction slices as [|slice slices IH];
    intros h H1 H2 H3 H4 Hwf Hrc Hlc HoR HoL; simpl.
  - split; [done|apply changes_only_refl].
  - apply wp_bind.
    eapply wp_mono; [| | |by apply (processSlice_wp fuel config rc lc oR oL slice h cr cl)];
      try done.
    simpl. intros _ h1 [Hwf1 Hch1].
    pose proof Hch1 as (_ & Hsome & Hkeep).
    eapply wp_mono; [| | |apply (IH h1)]; try done; eauto.
    simpl. intros _ h2 [Hwf2 Hch2]. split; [done|].
    by eapply changes_only_trans.
Qed.

(** The whole balancer on a well-formed heap. *)
Lemma optimizeSimultaneousNotes_wp fuel rightHand leftHand config h xsR xsL :
  wellFormed h ->
  arrays h !! rightHand = Some xsR -> arrays h !! leftHand = Some xsL ->
  wp (fun e _ => e = ReduceOfEmpty
                 /\ (maxRightHandNotes config < 0 \/ maxLeftHandNotes config < 0))
     (fuel <= length xsR + length xsL)%nat
     (optimizeSimultaneousNotes fuel rightHand leftHand config) h
     (fun hands h' =>
        wellFormed h' /\ fst hands <> snd hands
        /\ is_Some (arrays h' !! fst hands) /\ is_Some (arrays h' !! snd hands)).
Proof.
  intros Hwf HR HL. unfold optimizeSimultaneousNotes.
  (* the copies *)
  destruct (array_map_run h rightHand xsR HR (Hwf _ _ HR)) as (ns1 & cr & Hrun1 & Hlen1 & Hcr).
  set (rc := length (arrays h)) in *.
  set (h1 := {| objects := objects h ++ ns1; arrays := arrays h ++ [cr] |}) in *.
  assert (Hwf1 : wellFormed h1) by (apply wellFormed_alloc; [done|by repeat constructor]).
  assert (HL1 : arrays h1 !! leftHand = Some xsL) by by apply lookup_app_l_Some.
  destruct (array_map_run h1 leftHand xsL HL1 (Hwf1 _ _ HL1)) as (ns2 & cl & Hrun2 & Hlen2 & Hcl).
  set (lc := length (arrays h1)) in *.
  set (h2 := {| objects := objects h1 ++ ns2; arrays := arrays h1 ++ [cl] |}) in *.
  assert (Hwf2 : wellFormed h2) by (apply wellFormed_alloc; [done|by repeat constructor]).
  assert (Hrc2 : arrays h2 !! rc = Some cr).
  { unfold h2, h1. simpl. apply lookup_app_l_Some. by apply list_lookup_middle. }
  assert (Hlc2 : arrays h2 !! lc = Some cl).
  { unfold h2. simpl. by apply list_lookup_middle. }
  (* the combined array and the slices *)
  pose proof (array_concat_run h2 rc lc cr cl Hrc2 Hlc2) as Hrun3.
  set (allNotes := length (arrays h2)) in *.
  set (h3 := {| objects := objects h2; arrays := arrays h2 ++ [cr ++ cl] |}) in *.
  assert (Hwf3 : wellFormed h3).
  { apply wellFormed_newArray; [done|]. apply Forall_app. split; by eapply Hwf2. }
  assert (Hall3 : arrays h3 !! allNotes = Some (cr ++ cl)).
  { unfold h3. simpl. by apply list_lookup_middle. }
  destruct (createTimeSlices_run h3 allNotes (cr ++ cl) Hall3 (Hwf3 _ _ Hall3))
    as (slices & k & Hrun4 & Hk).
  set (h4 := {| objects := objects h3; arrays := arrays h3 ++ k |}) in *.
  assert (Hwf4 : wellFormed h4).
  { intros a xs Ha. unfold h4 in Ha. simpl in Ha.
    apply lookup_app_Some in Ha as [Ha|[_ Ha]]; [by eapply Hwf3|].
    eapply Forall_lookup_1 in Hk; eauto. }
  (* the two optimized lists *)
  set (oR := length (arrays h4)).
  set (h5 := {| objects := objects h4; arrays := arrays h4 ++ [[]] |}).
  set (oL := length (arrays h5)).
  set (h6 := {| objects := objects h5; arrays := arrays h5 ++ [[]] |}).
  assert (Hwf6 : wellFormed h6) by by repeat apply wellFormed_newArray.
  assert (Hsizes : (rc < lc /\ lc < oR /\ oR < oL)%nat).
  { unfold oL, oR, lc, rc, h5, h4, h3, h2, h1. simpl.
    rewrite !length_app. simpl. lia. }
  assert (Hrc6 : arrays h6 !! rc = Some cr).
  { unfold h6, h5, h4, h3. simpl. by do 4 apply lookup_app_l_Some. }
  assert (Hlc6 : arrays h6 !! lc = Some cl).
  { unfold h6, h5, h4, h3. simpl. by do 4 apply lookup_app_l_Some. }
  assert (HoR6 : is_Some (arrays h6 !! oR)).
  { exists []. unfold h6. simpl. apply lookup_app_l_Some. by apply list_lookup_middle. }
  assert (HoL6 : is_Some (arrays h6 !! oL)).
  { exists []. unfold h6. simpl. by apply list_lookup_middle. }
  apply wp_bind. unfold wp at 1. rewrite Hrun1.
  apply wp_bind. unfold wp at 1. rewrite Hrun2.
  apply wp_bind. unfold wp at 1. rewrite Hrun3.
  apply wp_bind. unfold wp at 1. rewrite Hrun4.
  apply wp_bind. unfold wp at 1, newArray. fold h4 oR h5.
  apply wp_bind. unfold wp at 1, newArray. fold oL h6.
  apply wp_bind.
  eapply wp_mono;
    [| | |apply (forM_processSlice_wp fuel config rc lc oR oL cr cl slices h6)];
    try done; try lia.
  simpl. intros _ h7 [Hwf7 (_ & Hsome & _)].
  unfold wp, ret. simpl. split; [done|]. split; [lia|]. split; auto.
Qed.

(** On a well-formed heap and with ceilings that are not negative, the
    balancer returns once the fuel exceeds the number of input notes, and
    it never throws. *)
Lemma optimizeSimultaneousNotes_returns config h rightHand leftHand xsR xsL :
  wellFormed h ->
  arrays h !! rightHand = Some xsR -> arrays h !! leftHand = Some xsL ->
  0 <= maxRightHandNotes config -> 0 <= maxLeftHandNotes config ->
  (forall fuel, (length xsR + length xsL < fuel)%nat ->
     exists optimizedRight optimizedLeft h',
       optimizeSimultaneousNotes fuel rightHand leftHand config h
       = Returns (optimizedRight, optimizedLeft) h'
       /\ wellFormed h' /\ optimizedRight <> optimizedLeft
       /\ is_Some (arrays h' !! optimizedRight)
       /\ is_Some (arrays h' !! optimizedLeft))
  /\ (forall fuel e h',
        optimizeSimultaneousNotes fuel rightHand leftHand config h <> Throws e h').
Proof.
  intros Hwf HR HL HmaxR HmaxL.
  assert (Hwp := fun fuel =>
    optimizeSimultaneousNotes_wp fuel rightHand leftHand config h xsR xsL Hwf HR HL).
  split.
  - intros fuel Hfuel. specialize (Hwp fuel).
    apply wp_Returns in Hwp as ([r l] & h' & Hrun & ?); [|lia|].
    + exists r, l, h'. by split.
    + intros e h' [_ ?]. lia.
  - intros fuel e h' Hrun. specialize (Hwp fuel).
    unfold wp in Hwp. rewrite Hrun in Hwp. lia.
Qed.

Lemma wellFormed_heap_of right left : wellFormed (heap_of right left).
Proof.
  intros a xs Ha. unfold heap_of in Ha. simpl in Ha.
  assert (Hseq : forall j n, (j + n <= length (right ++ left))%nat ->
                             Forall (live (heap_of right left)) (seq j n)).
  { intros j n Hjn. apply Forall_seq. intros i Hi. unfold live. simpl. lia. }
  destruct a as [|[|a]]; simpl in Ha; [| |done]; injection Ha as <-;
    apply Hseq; rewrite length_app; lia.
Qed.

(** ** The claims on the balancer as a whole *)

(** C8.  The balancer does not change what the caller holds: whatever the
    outcome, every object and every array of the heap it was called on is
    still there with the same content.  The two arrays it returns are new,
    and so is every note object in them.  It does return, on a well-formed
    heap with ceilings that are not negative, once the fuel exceeds the
    number of input notes. *)
Theorem optimizeSimultaneousNotes_frame
  (fuel : nat) (rightHand leftHand : ref) (config : Config) (h : Heap) :
  match optimizeSimultaneousNotes fuel rightHand leftHand config h with
  | Returns (optimizedRight, optimizedLeft) h' =>
      unchanged h h'
      /\ freshArray h optimizedRight /\ freshArray h optimizedLeft
      /\ (forall xs, arrays h' !! optimizedRight = Some xs ->
                     Forall (freshObject h) xs)
      /\ (forall xs, arrays h' !! optimizedLeft = Some xs ->
                     Forall (freshObject h) xs)
  | Throws _ h' => unchanged h h'
  | OutOfFuel => True
  end
  /\ (forall xsR xsL,
        wellFormed h ->
        arrays h !! rightHand = Some xsR -> arrays h !! leftHand = Some xsL ->
        0 <= maxRightHandNotes config -> 0 <= maxLeftHandNotes config ->
        (length xsR + length xsL < fuel)%nat ->
        exists optimizedRight optimizedLeft h',
          optimizeSimultaneousNotes fuel rightHand leftHand config h
          = Returns (optimizedRight, optimizedLeft) h'
          /\ optimizedRight <> optimizedLeft
          /\ is_Some (arrays h' !! optimizedRight)
          /\ is_Some (arrays h' !! optimizedLeft)).
Proof.
  split; [apply optimizeSimultaneousNotes_keeps|].
  intros xsR xsL Hwf HR HL HmaxR HmaxL Hfuel.
  destruct (optimizeSimultaneousNotes_returns config h rightHand leftHand
              xsR xsL Hwf HR HL HmaxR HmaxL) as [Hret _].
  destruct (Hret fuel Hfuel) as (r & l & h' & Hrun & _ & ? & ? & ?).
  by exists r, l, h'.
Qed.

Lemma optimizeSimultaneousNotes_frame_witness :
  exists optimizedRight optimizedLeft h',
    optimizeSimultaneousNotes 10 0%nat 1%nat (sample_config 2 2) crowded_input
    = Returns (optimizedRight, optimizedLeft) h'
    /\ optimizedRight <> optimizedLeft
    /\ is_Some (arrays h' !! optimizedRight)
    /\ is_Some (arrays h' !! optimizedLeft).
Proof.
  destruct (optimizeSimultaneousNotes_frame 10 0%nat 1%nat (sample_config 2 2)
              crowded_input) as [_ Hreturns].
  apply (Hreturns [0; 1; 2]%nat [3%nat]).
  - apply wellFormed_heap_of.
  - reflexivity.
  - reflexivity.
  - simpl. lia.
  - simpl. lia.
  - simpl. lia.
Defined.

(** C10.  With ceilings that are not negative, the two loops of a slice end
    without an error once the fuel exceeds the number of notes of the slice,
    and no amount of fuel makes them throw: [reduce] never meets an empty
    subset.  Each run of a loop body takes exactly one note out of the
    subset being shrunk.  With a negative ceiling the loops empty a subset
    and [reduce] throws.  The same holds of the balancer as a whole, where
    the subsets are those of the slices: with ceilings that are not
    negative it returns and never throws. *)
Theorem rebalance_terminates
  (config : Config) (h : Heap) (sr sl : ref) (xs ys : list ref) :
  arrays h !! sr = Some xs -> arrays h !! sl = Some ys ->
  sr <> sl -> wellFormed h ->
  (0 <= maxRightHandNotes config -> 0 <= maxLeftHandNotes config ->
     (forall fuel, (length xs + length ys < fuel)%nat ->
        exists h', rebalance fuel config sr sl h = Returns tt h')
     /\ (forall fuel e h', rebalance fuel config sr sl h <> Throws e h')
     /\ (forall fuel, (length xs + length ys < fuel)%nat ->
           exists hands h',
             optimizeSimultaneousNotes fuel sr sl config h = Returns hands h')
     /\ (forall fuel e h',
           optimizeSimultaneousNotes fuel sr sl config h <> Throws e h'))
  /\ (xs <> [] ->
        (exists h' xs', moveNote lowerNote sr sl h = Returns tt h'
           /\ arrays h' !! sr = Some xs' /\ S (length xs') = length xs)
        /\ (exists h' xs', moveNote higherNote sr sl h = Returns tt h'
           /\ arrays h' !! sr = Some xs' /\ S (length xs') = length xs))
  /\ (maxRightHandNotes config < 0 \/ maxLeftHandNotes config < 0 ->
      forall fuel, (length xs + length ys < fuel)%nat ->
        exists h', rebalance fuel config sr sl h = Throws ReduceOfEmpty h').
Proof.
  intros Hr Hl Hne Hwf.
  assert (Hlive : Forall (live h) (xs ++ ys)).
  { apply Forall_app. split; by eapply Hwf. }
  assert (Hwp := fun fuel => rebalance_wp config fuel h sr sl xs ys Hr Hl Hne Hlive).
  split; [|split].
  - intros HR HL.
    destruct (optimizeSimultaneousNotes_returns config h sr sl xs ys Hwf Hr Hl HR HL)
      as [Hret Hnothrow].
    split; [|split; [|split; [|exact Hnothrow]]].
    + intros fuel Hfuel. specialize (Hwp fuel).
      apply wp_Returns in Hwp as ([] & h' & Hrun & _); [eauto|lia|].
      intros e h' [_ ?]. lia.
    + intros fuel e h' Hrun. specialize (Hwp fuel).
      unfold wp in Hwp. rewrite Hrun in Hwp. lia.
    + intros fuel Hfuel.
      destruct (Hret fuel Hfuel) as (r & l & h' & Hrun & _). eauto.
  - intros Hxs. destruct xs as [|x rest]; [done|].
    apply Forall_app in Hlive as [Hlx _]. split.
    + destruct (moveNote_run 1 lowerNote lowerNote_choose h sr sl x rest ys)
        as (i & Hi & _ & Hrun); try done.
      eexists _, _. split; [exact Hrun|].
      split; [by eapply with_subsets_lookup|].
      rewrite length_delete by eauto. simpl. lia.
    + destruct (moveNote_run (-1) higherNote higherNote_choose h sr sl x rest ys)
        as (i & Hi & _ & Hrun); try done.
      eexists _, _. split; [exact Hrun|].
      split; [by eapply with_subsets_lookup|].
      rewrite length_delete by eauto. simpl. lia.
  - intros Hneg fuel Hfuel. specialize (Hwp fuel). unfold wp in Hwp.
    destruct (rebalance fuel config sr sl h) as [[] h'|e h'|].
    + destruct Hwp as (? & ? & _ & _ & _ & ? & ? & _). lia.
    + destruct Hwp as [-> _]. eauto.
    + lia.
Qed.

Lemma rebalance_terminates_witness :
  (0 <= maxRightHandNotes (sample_config 1 1) ->
   0 <= maxLeftHandNotes (sample_config 1 1) ->
     (forall fuel, (length [0; 1; 2]%nat + length [3%nat] < fuel)%nat ->
        exists h', rebalance fuel (sample_config 1 1) 0%nat 1%nat crowded_input
                   = Returns tt h')
     /\ (forall fuel e h',
           rebalance fuel (sample_config 1 1) 0%nat 1%nat crowded_input <> Throws e h')
     /\ (forall fuel, (length [0; 1; 2]%nat + length [3%nat] < fuel)%nat ->
           exists hands h',
             optimizeSimultaneousNotes fuel 0%nat 1%nat (sample_config 1 1) crowded_input
             = Returns hands h')
     /\ (forall fuel e h',
           optimizeSimultaneousNotes fuel 0%nat 1%nat (sample_config 1 1) crowded_input
           <> Throws e h'))
  /\ ([0; 1; 2]%nat <> [] ->
        (exists h' xs', moveNote lowerNote 0%nat 1%nat crowded_input = Returns tt h'
           /\ arrays h' !! 0%nat = Some xs' /\ S (length xs') = length [0; 1; 2]%nat)
        /\ (exists h' xs', moveNote higherNote 0%nat 1%nat crowded_input = Returns tt h'
           /\ arrays h' !! 0%nat = Some xs' /\ S (length xs') = length [0; 1; 2]%nat))
  /\ (maxRightHandNotes (sample_config 1 1) < 0
      \/ maxLeftHandNotes (sample_config 1 1) < 0 ->
      forall fuel, (length [0; 1; 2]%nat + length [3%nat] < fuel)%nat ->
        exists h', rebalance fuel (sample_config 1 1) 0%nat 1%nat crowded_input
                   = Throws ReduceOfEmpty h').
Proof.
  apply (rebalance_terminates (sample_config 1 1) crowded_input 0%nat 1%nat
           [0; 1; 2]%nat [3%nat]).
  - reflexivity.
  - reflexivity.
  - lia.
  - apply wellFormed_heap_of.
Defined.

(** A negative right ceiling: on a slice the first loop moves the three
    notes to the left subset and then throws; so does the balancer as a
    whole, in the first slice. *)
Lemma rebalance_negative_ceiling_throws :
  (exists h', rebalance 10 (sample_config (-1) 10) 0%nat 1%nat crowded_heap
              = Throws ReduceOfEmpty h'
              /\ arrays h' !! 0%nat = Some [])
  /\ (exists h', optimizeSimultaneousNotes 10 0%nat 1%nat (sample_config (-1) 10)
                                           crowded_input
                 = Throws ReduceOfEmpty h').
Proof.
  split; eexists; [split; [vm_compute; reflexivity|done]|vm_compute; reflexivity].
Qed.

(** * Further properties *)

(** ** [calculateMaxPolyphony] *)

Lemma noteEvents_bind notes :
  fold_left noteEvents notes []
  = notes ≫= (fun n => [ {| Event.time := time n; Event.type := noteOn |};
                         {| Event.time := (time n + duration n)%Q;
                            Event.type := noteOff |} ]).
Proof.
  assert (H : forall acc,
    fold_left noteEvents notes acc
    = acc ++ (notes ≫= (fun n =>
                [ {| Event.time := time n; Event.type := noteOn |};
                  {| Event.time := (time n + duration n)%Q;
                     Event.type := noteOff |} ]))).
  { induction notes as [|n notes IH]; intros acc; simpl.
    - by rewrite app_nil_r.
    - rewrite IH. unfold noteEvents, push. by rewrite <- !app_assoc. }
  apply (H []).
Qed.

(** The number of [noteOn] events of a list. *)
Lemma countEvent_bounds events : forall active best,
  best <= snd (fold_left countEvent events (active, best))
  /\ snd (fold_left countEvent events (active, best))
     <= Z.max best
          (active + Z.of_nat (length (filter (fun e => Event.type e = noteOn) events))).
Proof.
  induction events as [|e events IH]; intros active best; simpl.
  - lia.
  - rewrite filter_cons.
    destruct (decide (Event.type e = noteOn)) as [He|He].
    + replace (countEvent (active, best) e)
        with (active + 1, Z.max best (active + 1))
        by (unfold countEvent; by rewrite He).
      destruct (IH (active + 1) (Z.max best (active + 1))) as [H1 H2].
      simpl length. lia.
    + replace (countEvent (active, best) e)
        with (active - 1, Z.max best (active - 1))
        by (unfold countEvent; by destruct (Event.type e)).
      destruct (IH (active - 1) (Z.max best (active - 1))) as [H1 H2]. lia.
Qed.

Lemma noteOn_count notes :
  length (filter (fun e => Event.type e = noteOn)
            (notes ≫= (fun n => [ {| Event.time := time n; Event.type := noteOn |};
                                  {| Event.time := (time n + duration n)%Q;
                                     Event.type := noteOff |} ])))
  = length notes.
Proof.
  induction notes as [|n notes IH]; [done|].
  by rewrite bind_cons, filter_app, length_app, IH.
Qed.

(** X1.  The polyphony count is never negative and never exceeds the number
    of notes. *)
Theorem calculateMaxPolyphony_bounds (notes : list Note) :
  0 <= calculateMaxPolyphony notes <= Z.of_nat (length notes).
Proof.
  unfold calculateMaxPolyphony.
  set (sorted := js_sort _ _).
  destruct (countEvent_bounds sorted 0 0) as [Hlo Hhi].
  split; [done|].
  assert (Hlen : length (filter (fun e => Event.type e = noteOn) sorted)
                 = length notes).
  { unfold sorted. rewrite js_sort_perm, noteEvents_bind. apply noteOn_count. }
  rewrite Hlen in Hhi. lia.
Qed.

(** The head of a sorted list of events. *)
Lemma sort_insert_head {A} (nonpos : A -> A -> bool) x l :
  exists l', sort_insert nonpos x l = x :: l'
    \/ exists y l0, l = y :: l0 /\ nonpos x y = false
                    /\ sort_insert nonpos x l = y :: l'.
Proof.
  destruct l as [|y l]; simpl; [by eexists; left|].
  destruct (nonpos x y) eqn:E; eexists; [by left|].
  right. by exists y, l.
Qed.

Lemma sorted_events_head notes :
  notes <> [] ->
  Forall (fun n => (0 <= duration n)%Q) notes ->
  exists e rest,
    js_sort (fun a b => Qle_bool (Event.time a - Event.time b) 0)
            (fold_left noteEvents notes [])
    = e :: rest /\ Event.type e = noteOn.
Proof.
  rewrite noteEvents_bind.
  induction notes as [|n notes IH]; [done|]. intros _ Hdur.
  apply Forall_cons in Hdur as [Hn Hrest]. simpl.
  set (nonpos := fun a b => Qle_bool (Event.time a - Event.time b) 0).
  set (on := {| Event.time := time n; Event.type := noteOn |}).
  set (off := {| Event.time := (time n + duration n)%Q; Event.type := noteOff |}).
  fold (js_sort nonpos (notes ≫= (fun n =>
         [ {| Event.time := time n; Event.type := noteOn |};
           {| Event.time := (time n + duration n)%Q; Event.type := noteOff |} ]))).
  set (s := js_sort nonpos _) in *.
  assert (Hs : s = [] \/ exists e rest, s = e :: rest /\ Event.type e = noteOn).
  { destruct notes as [|n' notes']; [by left|]. right. by apply IH. }
  assert (Honoff : nonpos on off = true).
  { unfold nonpos, on, off. simpl. apply Qle_bool_iff. lra. }
  destruct (sort_insert_head nonpos off s) as (l1 & [H1|(y & l0 & Hy & _ & H1)]);
    rewrite H1; simpl.
  - rewrite Honoff. by exists on, (off :: l1).
  - destruct Hs as [->|(e & rest & Hs & He)]; [done|].
    rewrite Hy in Hs. injection Hs as -> ->.
    destruct (nonpos on e); eexists _, _; (split; [reflexivity|done]).
Qed.

(** X2.  A non-empty list of notes whose durations are not negative has a
    polyphony count of at least 1. *)
Theorem calculateMaxPolyphony_positive (notes : list Note) :
  notes <> [] ->
  Forall (fun n => (0 <= duration n)%Q) notes ->
  1 <= calculateMaxPolyphony notes.
Proof.
  intros Hne Hdur. unfold calculateMaxPolyphony.
  destruct (sorted_events_head notes Hne Hdur) as (e & rest & -> & He).
  simpl. unfold countEvent at 2. rewrite He. simpl.
  destruct (countEvent_bounds rest 1 1) as [Hlo _]. exact Hlo.
Qed.

Lemma calculateMaxPolyphony_positive_witness :
  1 <= calculateMaxPolyphony [note 60 0 1 80; note 64 (1 # 2) 1 80].
Proof.
  apply calculateMaxPolyphony_positive.
  - discriminate.
  - repeat constructor; simpl; lra.
Defined.

(** The hypothesis on durations is needed: the [noteOff] of a note of
    negative duration is sorted before its [noteOn], and the count stays 0.
    The count also depends on the order of the notes: a note that starts
    when another one ends is counted with it only when it comes first. *)
Lemma calculateMaxPolyphony_edge_cases :
  calculateMaxPolyphony [note 60 1 (-1) 80] = 0
  /\ calculateMaxPolyphony [note 60 0 1 80; note 64 1 1 80] = 1
  /\ calculateMaxPolyphony [note 64 1 1 80; note 60 0 1 80] = 2.
Proof. by repeat split. Qed.

(** ** [analyzeMidiTracks] *)

Lemma Qltb_lt a b : Qltb a b = true <-> (a < b)%Q.
Proof.
  unfold Qltb. rewrite negb_true_iff. split.
  - intros H. apply Qnot_le_lt. intros Hle. apply Qle_bool_iff in Hle. congruence.
  - intros H. destruct (Qle_bool b a) eqn:E; [|done].
    apply Qle_bool_iff in E. by apply Qlt_not_le in H.
Qed.

Lemma average_above (c S n : Z) :
  0 < n -> (inject_Z c < inject_Z S / inject_Z n)%Q <-> c * n < S.
Proof.
  intros Hn. destruct n as [|p|p]; try lia.
  unfold Qlt, Qdiv, Qmult, Qinv, inject_Z. simpl. lia.
Qed.

Lemma average_below (c S n : Z) :
  0 < n -> (inject_Z S / inject_Z n < inject_Z c)%Q <-> S < c * n.
Proof.
  intros Hn. destruct n as [|p|p]; try lia.
  unfold Qlt, Qdiv, Qmult, Qinv, inject_Z. simpl. lia.
Qed.

Lemma classify_sum (S n : Z) :
  0 < n ->
  (classify (inject_Z S / inject_Z n) = melody <-> 65 * n < S)
  /\ (classify (inject_Z S / inject_Z n) = bass <-> S < 52 * n)
  /\ (classify (inject_Z S / inject_Z n) = harmony <-> 52 * n <= S <= 65 * n).
Proof.
  intros Hn. unfold classify.
  pose proof (average_above 65 S n Hn) as Ha.
  pose proof (average_below 52 S n Hn) as Hb.
  destruct (Qltb 65 _) eqn:E1.
  - apply (Qltb_lt 65) in E1. apply Ha in E1.
    repeat split; try done; intros; lia.
  - assert (~ 65 * n < S).
    { intros H. apply Ha, (Qltb_lt 65) in H. congruence. }
    destruct (Qltb _ 52) eqn:E2.
    + apply (Qltb_lt _ 52) in E2. apply Hb in E2.
      repeat split; try done; intros; lia.
    + assert (~ S < 52 * n).
      { intros H'. apply Hb, (Qltb_lt _ 52) in H'. congruence. }
      repeat split; try done; intros; lia.
Qed.

Lemma analyzeTrack_role i t a :
  analyzeTrack i t = Some a ->
  Analyzed.trackRole a
  = classify (inject_Z (pitchSum t) / inject_Z (Z.of_nat (length (Raw.notes t))))
  /\ Raw.notes t <> [].
Proof.
  unfold analyzeTrack.
  destruct (Nat.eqb_spec (length (Raw.notes t)) 0) as [|Hlen]; simpl; [done|].
  destruct (Raw.channel t =? 9); [done|].
  intros [= <-]. simpl. unfold averagePitch, pitchSum.
  rewrite length_map. split; [done|]. intros E. by rewrite E in Hlen.
Qed.

(** X3.  The role of a classified track is decided by the sum of its
    pitches against its number of notes: melody when the sum exceeds 65
    times the count, bass when it is under 52 times the count, harmony in
    between (both bounds included). *)
Theorem analyzeMidiTracks_role_by_sum (tracks : list Raw.Track) (a : Analyzed.Track) :
  a ∈ analyzeMidiTracks tracks ->
  exists t, tracks !! Analyzed.index a = Some t
    /\ (Analyzed.trackRole a = melody
        <-> 65 * Z.of_nat (length (Raw.notes t)) < pitchSum t)
    /\ (Analyzed.trackRole a = bass
        <-> pitchSum t < 52 * Z.of_nat (length (Raw.notes t)))
    /\ (Analyzed.trackRole a = harmony
        <-> 52 * Z.of_nat (length (Raw.notes t)) <= pitchSum t
            <= 65 * Z.of_nat (length (Raw.notes t))).
Proof.
  rewrite analyzeMidiTracks_omap, list_elem_of_omap.
  intros ([i t] & Hin & Ha). simpl in Ha.
  apply list_elem_of_lookup in Hin as [j Hj].
  rewrite list_lookup_imap in Hj.
  destruct (tracks !! j) as [t'|] eqn:Ht; simpl in Hj; [|done].
  injection Hj as <- <-.
  pose proof (analyzeTrack_Some _ _ _ Ha) as (_ & Hidx & _).
  apply analyzeTrack_role in Ha as [-> Hne].
  exists t'. rewrite Hidx. split; [done|].
  apply classify_sum. destruct (Raw.notes t'); [done|]. simpl. lia.
Qed.

Lemma analyzeMidiTracks_role_by_sum_witness :
  exists t, mixed_tracks !! Analyzed.index lead_track = Some t
    /\ (Analyzed.trackRole lead_track = melody
        <-> 65 * Z.of_nat (length (Raw.notes t)) < pitchSum t)
    /\ (Analyzed.trackRole lead_track = bass
        <-> pitchSum t < 52 * Z.of_nat (length (Raw.notes t)))
    /\ (Analyzed.trackRole lead_track = harmony
        <-> 52 * Z.of_nat (length (Raw.notes t)) <= pitchSum t
            <= 65 * Z.of_nat (length (Raw.notes t))).
Proof.
  apply (analyzeMidiTracks_role_by_sum mixed_tracks lead_track).
  apply list_elem_of_lookup. exists 1%nat. reflexivity.
Defined.

Lemma analyzeTracks_indices tracks : forall i,
  let l := omap (fun it => analyzeTrack (fst it) (snd it))
                (imap (fun j => pair (i + j)%nat) tracks) in
  Forall (fun a => (i <= Analyzed.index a)%nat) l
  /\ StronglySorted lt (map Analyzed.index l).
Proof.
  induction tracks as [|t tracks IH]; intros i; simpl; [by repeat constructor|].
  assert (Hext : imap ((fun j => pair (i + j)%nat) ∘ S) tracks
                 = imap (fun j => pair (S i + j)%nat) tracks).
  { apply imap_ext. intros j x _. simpl. f_equal. lia. }
  rewrite Hext. destruct (IH (S i)) as [Hge Hsorted].
  assert (Hge' : Forall (fun a => (i <= Analyzed.index a)%nat)
                   (omap (fun it => analyzeTrack (fst it) (snd it))
                         (imap (fun j => pair (S i + j)%nat) tracks))).
  { eapply Forall_impl; [exact Hge|]. simpl. intros. lia. }
  replace (i + 0)%nat with i by lia.
  destruct (analyzeTrack i t) as [a|] eqn:Ha; [|done].
  apply analyzeTrack_Some in Ha as (_ & Hidx & _). simpl. split.
  - constructor; [lia|done].
  - constructor; [done|]. apply Forall_map.
    eapply Forall_impl; [exact Hge|]. simpl. intros. lia.
Qed.

(** X4.  The classifier keeps the tracks in their original order: the
    classified tracks carry strictly increasing positions, the positions
    are those of the tracks that have a note and are not on channel 9, and
    [noteCount] is the number of notes of the track, never 0. *)
Theorem analyzeMidiTracks_order (tracks : list Raw.Track) :
  StronglySorted lt (map Analyzed.index (analyzeMidiTracks tracks))
  /\ (forall i, i ∈ map Analyzed.index (analyzeMidiTracks tracks)
                <-> exists t, tracks !! i = Some t
                              /\ Raw.notes t <> [] /\ Raw.channel t <> 9)
  /\ Forall (fun a => Analyzed.noteCount a = Z.of_nat (length (Analyzed.notes a))
                      /\ 0 < Analyzed.noteCount a)
            (analyzeMidiTracks tracks).
Proof.
  split; [|split].
  - rewrite analyzeMidiTracks_omap. apply (analyzeTracks_indices tracks 0).
  - intros i. rewrite list_elem_of_fmap. split.
    + intros (a & -> & Ha).
      apply analyzeMidiTracks_elem in Ha as (t & Ht & [? ?] & _). eauto.
    + intros (t & Ht & Hn & Hc).
      destruct (analyzeTrack i t) as [a|] eqn:Ha.
      * exists a. pose proof (analyzeTrack_Some _ _ _ Ha) as (_ & Hidx & _).
        split; [done|]. rewrite analyzeMidiTracks_omap, list_elem_of_omap.
        exists (i, t). split; [|done].
        apply list_elem_of_lookup. exists i. by rewrite list_lookup_imap, Ht.
      * apply analyzeTrack_None in Ha. destruct Ha. by split.
  - apply Forall_forall. intros a Ha.
    rewrite analyzeMidiTracks_omap, list_elem_of_omap in Ha.
    destruct Ha as ([i t] & _ & Ha). simpl in Ha.
    apply analyzeTrack_Some in Ha as ([Hne _] & _ & -> & _ & ->).
    rewrite length_map. split; [done|].
    destruct (Raw.notes t); [done|]. simpl. lia.
Qed.

(** ** [createPianoArrangement] *)

Lemma copyNote_velocity n :
  velocity (copyNote n)
  = match velocity n with
    | Some v => if v =? 0 then Some 64 else Some v
    | None => Some 64
    end.
Proof. unfold copyNote, velocity_or_64. simpl. by destruct (velocity n) as [v|]; [destruct (v =? 0)|]. Qed.

(** X5.  Whatever the tracks, classified or not, the two hands together
    hold exactly one copy of every note, in which only the velocity may
    differ: it is 64 when the note has none or has 0.  No emitted note has
    a missing or zero velocity. *)
Theorem createPianoArrangement_defaults_velocity
  (analyzedTracks : list Analyzed.Track) (config : Config) :
  rightHand (createPianoArrangement analyzedTracks config)
  ++ leftHand (createPianoArrangement analyzedTracks config)
  ≡ₚ map copyNote (mjoin (map Analyzed.notes analyzedTracks))
  /\ (forall n, midi (copyNote n) = midi n /\ time (copyNote n) = time n
                /\ duration (copyNote n) = duration n
                /\ velocity (copyNote n)
                   = match velocity n with
                     | Some v => if v =? 0 then Some 64 else Some v
                     | None => Some 64
                     end)
  /\ Forall (fun n => exists v, velocity n = Some v /\ v <> 0)
            (rightHand (createPianoArrangement analyzedTracks config)
             ++ leftHand (createPianoArrangement analyzedTracks config)).
Proof.
  split; [apply createPianoArrangement_hands|]. split.
  - intros n. repeat split. apply copyNote_velocity.
  - rewrite createPianoArrangement_hands. apply Forall_map, Forall_forall.
    intros n _. eexists. split; [reflexivity|]. apply velocity_or_64_nonzero.
Qed.

Lemma createPianoArrangement_filter tracks config :
  rightHand (createPianoArrangement tracks config)
  = map (fun n => copyNote (note_of n))
        (filter (fun n => goesRight config n = true)
                (collectNotes (sortedTracks tracks)))
  /\ leftHand (createPianoArrangement tracks config)
     = map (fun n => copyNote (note_of n))
           (filter (fun n => goesRight config n <> true)
                   (collectNotes (sortedTracks tracks))).
Proof. unfold createPianoArrangement. simpl. by rewrite distribute_filter. Qed.

(** X6.  Every left-hand note has a pitch below the split point.  When no
    track is a melody track, every right-hand note has a pitch at or above
    it: the hands are then separated by pitch alone. *)
Theorem createPianoArrangement_split_invariant
  (analyzedTracks : list Analyzed.Track) (config : Config) :
  Forall (fun n => midi n < splitPoint config)
         (leftHand (createPianoArrangement analyzedTracks config))
  /\ (Forall (fun t => Analyzed.trackRole t <> melody) analyzedTracks ->
      Forall (fun n => splitPoint config <= midi n)
             (rightHand (createPianoArrangement analyzedTracks config))).
Proof.
  destruct (createPianoArrangement_filter analyzedTracks config) as [-> ->].
  split.
  - apply Forall_map, Forall_forall. intros n Hn.
    apply list_elem_of_filter in Hn as [Hn _]. simpl.
    destruct (goesRight config n) eqn:E; [done|].
    unfold goesRight in E. apply orb_false_iff in E as [_ E].
    apply Z.leb_gt in E. exact E.
  - intros Hroles. apply Forall_map, Forall_forall. intros n Hn.
    apply list_elem_of_filter in Hn as [Hright Hn]. simpl.
    apply goesRight_true in Hright as [Hmel|Hsplit]; [|done].
    exfalso. rewrite collectNotes_bind in Hn.
    apply list_elem_of_bind in Hn as (t & Hn & Ht).
    apply list_elem_of_fmap in Hn as (m & -> & _). simpl in Hmel.
    assert (Ht' : t ∈ analyzedTracks).
    { unfold sortedTracks in Ht. by rewrite js_sort_perm in Ht. }
    eapply Forall_forall in Hroles; eauto.
Qed.

Lemma createPianoArrangement_split_invariant_witness :
  Forall (fun n => splitPoint (sample_config 12 10) <= midi n)
         (rightHand (createPianoArrangement
                       [ {| Analyzed.index := 0; Analyzed.name := "piano";
                            Analyzed.notes := [note 59 0 1 70; note 60 1 1 70];
                            Analyzed.avgPitch := averagePitch [59; 60];
                            Analyzed.trackRole := harmony;
                            Analyzed.noteCount := 2 |} ]
                       (sample_config 12 10))).
Proof.
  apply createPianoArrangement_split_invariant.
  repeat constructor. discriminate.
Defined.



(** ** [optimizeMidiForPiano] and [generatePianoMidi] *)

(** X7.  The run of the entry point on a parsed file never throws, and its
    summary adds up: the two hand counts sum to the number of notes of the
    tracks that have a note and are not on channel 9, and [originalTracks]
    counts every track of the file, dropped or not. *)
Theorem optimizeMidiForPiano_summary {HeaderEvent : Type}
  (addNote : Out.Track -> Note -> AddResult)
  (midi : @Midi HeaderEvent) (options : Options) (console : list LogEntry) :
  exists out summary console',
    optimizeMidiForPiano addNote midi options console
    = Normal (out, summary) console'
    /\ (rightHandNotes summary + leftHandNotes summary
        = length (mjoin (map Raw.notes (filter survives (midi_tracks midi)))))%nat
    /\ originalTracks summary = length (midi_tracks midi)
    /\ summary_duration summary = midi_duration midi.
Proof.
  eexists _, _, _. split.
  { unfold optimizeMidiForPiano, try_catch, x_bind.
    rewrite generatePianoMidi_run. reflexivity. }
  cbn [rightHandNotes leftHandNotes originalTracks summary_duration].
  split; [|done].
  rewrite <- length_app, createPianoArrangement_hands, length_map.
  rewrite analyzeMidiTracks_notes.
  induction (filter survives (midi_tracks midi)) as [|t l IH]; [done|].
  simpl. by rewrite !length_app, length_map, IH.
Qed.







(** ** [createTimeSlices] *)

Lemma valuesOf_cons h x xs :
  valuesOf h (x :: xs)
  = match objects h !! x with
    | Some n => n :: valuesOf h xs
    | None => valuesOf h xs
    end.
Proof. reflexivity. Qed.

Lemma valuesOf_live h xs :
  Forall (live h) xs -> length (valuesOf h xs) = length xs.
Proof.
  induction 1 as [|x xs Hx _ IH]; [done|]. rewrite valuesOf_cons.
  apply lookup_lt_is_Some in Hx as [n ->]. simpl. by rewrite IH.
Qed.

Lemma valuesOf_app h xs ys : valuesOf h (xs ++ ys) = valuesOf h xs ++ valuesOf h ys.
Proof. unfold valuesOf. apply omap_app. Qed.

Lemma valuesOf_prefix h h' xs :
  objects h `prefix_of` objects h' -> Forall (live h) xs ->
  valuesOf h' xs = valuesOf h xs.
Proof.
  intros Hp. induction 1 as [|x xs Hx _ IH]; [done|]. rewrite !valuesOf_cons.
  apply lookup_lt_is_Some in Hx as [n Hn].
  by rewrite (prefix_lookup_Some _ _ _ _ Hn Hp), Hn, IH.
Qed.

Lemma covers_coversb h s e r n :
  objects h !! r = Some n -> covers s e r h = Returns (coversb (s, e) n) h.
Proof.
  intros Hn. unfold covers, bind, readObject. by rewrite Hn.
Qed.

(** [filter] with [covers]: the references kept are those of the covering
    notes, in order. *)
Lemma filterM_covers_values h s e xs :
  Forall (live h) xs ->
  exists ys, filterM (covers s e) xs h = Returns ys h
    /\ sublist ys xs
    /\ valuesOf h ys = filter (fun n => coversb (s, e) n = true) (valuesOf h xs).
Proof.
  induction 1 as [|x xs Hx _ (ys & Hrun & Hsub & Hval)]; cbn [filterM].
  - by exists [].
  - apply lookup_lt_is_Some in Hx as [n Hn].
    rewrite (bind_Returns _ _ _ _ _ (covers_coversb h s e x n Hn)).
    rewrite (bind_Returns _ _ _ _ _ Hrun). unfold ret.
    rewrite valuesOf_cons, Hn, filter_cons.
    destruct (coversb (s, e) n) eqn:E.
    + exists (x :: ys). rewrite decide_True by done.
      split; [done|]. split; [by constructor|].
      by rewrite valuesOf_cons, Hn, Hval.
    + exists ys. rewrite decide_False by done.
      split; [done|]. split; [by constructor|done].
Qed.

Lemma array_filter_values h s e a xs :
  arrays h !! a = Some xs -> Forall (live h) xs ->
  exists ys, sublist ys xs
    /\ valuesOf h ys = filter (fun n => coversb (s, e) n = true) (valuesOf h xs)
    /\ array_filter (covers s e) a h
       = Returns (length (arrays h))
                 {| objects := objects h; arrays := arrays h ++ [ys] |}.
Proof.
  intros Ha Hlive.
  destruct (filterM_covers_values h s e xs Hlive) as (ys & Hrun & Hsub & Hval).
  exists ys. split; [done|]. split; [done|]. unfold array_filter.
  rewrite (bind_Returns _ _ _ _ _ (readArray_run _ _ _ Ha)).
  by rewrite (bind_Returns _ _ _ _ _ Hrun).
Qed.

Lemma foldM_addTimePoints_values h ns : forall timePoints,
  Forall (live h) ns ->
  foldM addTimePoints timePoints ns h
  = Returns (fold_left (fun tp n =>
                          set_add (set_add tp (time n)) (time n + duration n)%Q)
                       (valuesOf h ns) timePoints) h.
Proof.
  induction ns as [|r ns IH]; intros tp Hlive; cbn [foldM]; [done|].
  apply Forall_cons in Hlive as [Hr Hns].
  apply lookup_lt_is_Some in Hr as [n Hn].
  assert (Hrun : addTimePoints tp r h
                 = Returns (set_add (set_add tp (time n)) (time n + duration n)%Q) h).
  { unfold addTimePoints, bind, readObject. by rewrite Hn. }
  by rewrite (bind_Returns _ _ _ _ _ Hrun), (IH _ Hns), valuesOf_cons, Hn.
Qed.

(** The slices built from a list of bounds: one array per slice. *)
Lemma mapM'_makeSlice_values notes ns bounds : forall h,
  arrays h !! notes = Some ns -> Forall (live h) ns ->
  exists slices k,
    mapM' (makeSlice notes) bounds h
    = Returns slices {| objects := objects h; arrays := arrays h ++ k |}
    /\ map (fun sl => (Slice.startTime sl, Slice.endTime sl)) slices = bounds
    /\ Forall (fun sl => Slice.duration sl
                         = (Slice.endTime sl - Slice.startTime sl)%Q) slices
    /\ map Slice.notes slices = seq (length (arrays h)) (length bounds)
    /\ Forall2 (fun b ys =>
                  sublist ys ns
                  /\ valuesOf h ys
                     = filter (fun n => coversb b n = true) (valuesOf h ns))
               bounds k.
Proof.
  induction bounds as [|b bounds IH]; intros h Hn Hlive; simpl.
  - exists [], []. unfold ret. rewrite app_nil_r. by destruct h.
  - destruct (array_filter_values h (fst b) (snd b) notes ns Hn Hlive)
      as (ys & Hsub & Hval & Hrun).
    set (h1 := {| objects := objects h; arrays := arrays h ++ [ys] |}) in *.
    destruct (IH h1) as (slices & k & Hrun' & Hb & Hd & Hrefs & Hk);
      [by apply lookup_app_l_Some|done|].
    eexists (_ :: slices), (ys :: k). unfold makeSlice at 1.
    rewrite (bind_Returns _ _ h _ h1)
      by (by rewrite (bind_Returns _ _ _ _ _ Hrun)).
    rewrite (bind_Returns _ _ _ _ _ Hrun').
    unfold ret. simpl. rewrite <- app_assoc. simpl.
    split; [done|]. split; [by rewrite Hb; destruct b|].
    split; [by constructor|]. split.
    { f_equal. rewrite Hrefs. unfold h1. simpl. rewrite length_app. simpl.
      f_equal. lia. }
    constructor; [|done]. by destruct b.
Qed.

Lemma createTimeSlices_values h notes ns :
  arrays h !! notes = Some ns -> Forall (live h) ns ->
  exists slices k,
    createTimeSlices notes h
    = Returns slices {| objects := objects h; arrays := arrays h ++ k |}
    /\ map (fun sl => (Slice.startTime sl, Slice.endTime sl)) slices
       = sliceBounds (valuesOf h ns)
    /\ Forall (fun sl => Slice.duration sl
                         = (Slice.endTime sl - Slice.startTime sl)%Q) slices
    /\ map Slice.notes slices
       = seq (length (arrays h)) (length (sliceBounds (valuesOf h ns)))
    /\ Forall2 (fun b ys =>
                  sublist ys ns
                  /\ valuesOf h ys
                     = filter (fun n => coversb b n = true) (valuesOf h ns))
               (sliceBounds (valuesOf h ns)) k.
Proof.
  intros Hn Hlive. unfold createTimeSlices.
  rewrite (bind_Returns _ _ _ _ _ (readArray_run _ _ _ Hn)).
  rewrite (bind_Returns _ _ _ _ _ (foldM_addTimePoints_values h ns [] Hlive)).
  by apply mapM'_makeSlice_values.
Qed.

Lemma existsb_Qeq_false t l :
  existsb (Qeq_bool t) l = false -> Forall (fun u => ~ (u == t)%Q) l.
Proof.
  induction l as [|u l IH]; simpl; [constructor|].
  intros [Hu Hl]%orb_false_iff. constructor; [|by apply IH].
  intros Heq. symmetry in Heq. apply Qeq_bool_iff in Heq. congruence.
Qed.

Lemma distinctTimes_snoc l t :
  distinctTimes l -> Forall (fun u => ~ (u == t)%Q) l -> distinctTimes (l ++ [t]).
Proof.
  induction l as [|u l IH]; simpl; [by repeat constructor|].
  intros [Hu Hl] Ht. apply Forall_cons in Ht as [Hut Ht]. split; [|by apply IH].
  apply Forall_app. split; [done|]. by repeat constructor.
Qed.

Lemma set_add_distinct l t : distinctTimes l -> distinctTimes (set_add l t).
Proof.
  intros Hl. unfold set_add. destruct (existsb _ _) eqn:E; [done|].
  apply distinctTimes_snoc; [done|]. by apply existsb_Qeq_false.
Qed.

Lemma timePointsOf_distinct notes : distinctTimes (timePointsOf notes).
Proof.
  unfold timePointsOf.
  assert (H : forall tp, distinctTimes tp ->
    distinctTimes (fold_left (fun timePoints n =>
       set_add (set_add timePoints (time n)) (time n + duration n)%Q) notes tp)).
  { induction notes as [|n notes IH]; intros tp Htp; simpl; [done|].
    apply IH. by do 2 apply set_add_distinct. }
  by apply H.
Qed.

Lemma set_add_has l t u :
  Exists (fun v => (v == u)%Q) (set_add l t)
  <-> Exists (fun v => (v == u)%Q) l \/ (t == u)%Q.
Proof.
  unfold set_add. destruct (existsb _ _) eqn:E.
  - split; [by left|]. intros [H|H]; [done|].
    apply existsb_exists in E as (v & Hv & Hvt).
    apply Qeq_bool_iff in Hvt. apply Exists_exists. exists v.
    split; [by apply list_elem_of_In|]. by rewrite <- Hvt.
  - unfold push. rewrite Exists_app, Exists_cons, Exists_nil. tauto.
Qed.

Lemma timePointsOf_has notes u :
  Exists (fun v => (v == u)%Q) (timePointsOf notes)
  <-> exists n, n ∈ notes
        /\ ((time n == u)%Q \/ (time n + duration n == u)%Q).
Proof.
  unfold timePointsOf.
  assert (H : forall tp,
    Exists (fun v => (v == u)%Q)
      (fold_left (fun timePoints n =>
         set_add (set_add timePoints (time n)) (time n + duration n)%Q) notes tp)
    <-> Exists (fun v => (v == u)%Q) tp
        \/ exists n, n ∈ notes
             /\ ((time n == u)%Q \/ (time n + duration n == u)%Q)).
  { induction notes as [|n notes IH]; intros tp; simpl.
    - split; [by left|]. intros [H|(n & Hn & _)]; [done|].
      by apply elem_of_nil in Hn.
    - rewrite IH, !set_add_has. split.
      + intros [[[H|H]|H]|(m & Hm & H)]; eauto.
        * right. exists n. split; [left|]; auto.
        * right. exists n. split; [left|]; auto.
        * right. exists m. split; [by right|done].
      + intros [H|(m & Hm & H)]; [tauto|].
        apply elem_of_cons in Hm as [->|Hm]; [tauto|]. right. eauto. }
  rewrite H, Exists_nil. tauto.
Qed.

Lemma Qle_bool_minus x y : Qle_bool (x - y) 0 = true <-> (x <= y)%Q.
Proof. rewrite Qle_bool_iff. split; intros; lra. Qed.

Lemma sort_insert_strict x s :
  StronglySorted Qlt s -> Forall (fun y => ~ (x == y)%Q) s ->
  StronglySorted Qlt (sort_insert (fun a b => Qle_bool (a - b) 0) x s).
Proof.
  induction s as [|y s IH]; simpl; intros Hs Hx; [by repeat constructor|].
  apply StronglySorted_cons in Hs as [Hy Hs].
  apply Forall_cons in Hx as [Hxy Hx].
  destruct (Qle_bool (x - y) 0) eqn:E.
  - apply Qle_bool_minus in E.
    assert (Hlt : (x < y)%Q).
    { apply Qle_lteq in E as [E|E]; [done|by destruct Hxy]. }
    apply StronglySorted_cons. split; [|by apply StronglySorted_cons].
    constructor; [done|]. eapply Forall_impl; [exact Hy|].
    simpl. intros z Hz. by apply Qlt_trans with y.
  - assert (Hlt : (y < x)%Q).
    { apply Qnot_le_lt. intros Hle. apply Qle_bool_minus in Hle. congruence. }
    apply StronglySorted_cons. split; [|by apply IH].
    rewrite sort_insert_perm. by constructor.
Qed.

Lemma js_sort_strict l :
  distinctTimes l ->
  StronglySorted Qlt (js_sort (fun a b => Qle_bool (a - b) 0) l).
Proof.
  induction l as [|x l IH]; simpl; intros Hl; [constructor|].
  destruct Hl as [Hx Hl]. apply sort_insert_strict; [by apply IH|].
  fold (js_sort (fun a b => Qle_bool (a - b) 0) l).
  by rewrite js_sort_perm.
Qed.

Lemma adjacent_lookup l i a b :
  adjacent l !! i = Some (a, b) <-> l !! i = Some a /\ l !! S i = Some b.
Proof.
  revert i. induction l as [|x [|y l] IH]; intros i.
  - simpl. split; [done|]. by intros [? _].
  - simpl. split; [done|]. intros [_ H]. by destruct i.
  - change (adjacent (x :: y :: l)) with ((x, y) :: adjacent (y :: l)).
    destruct i as [|i]; simpl.
    + split; [by intros [= -> ->]|]. by intros [[= ->] [= ->]].
    + apply IH.
Qed.

Lemma adjacent_length l : length (adjacent l) = (length l - 1)%nat.
Proof.
  induction l as [|x [|y l] IH]; [done..|].
  change (adjacent (x :: y :: l)) with ((x, y) :: adjacent (y :: l)).
  simpl length in *. rewrite IH. lia.
Qed.

Lemma StronglySorted_lookup_lt {A} (R : A -> A -> Prop) l i j a b :
  StronglySorted R l -> l !! i = Some a -> l !! j = Some b -> (i < j)%nat ->
  R a b.
Proof.
  intros Hs. revert i j. induction Hs as [|x l _ IH Hx]; intros i j Hi Hj Hij.
  - done.
  - destruct i as [|i], j as [|j]; simpl in *; try lia.
    + injection Hi as ->. eapply Forall_lookup_1 in Hx; eauto.
    + eapply IH; eauto. lia.
Qed.

Lemma sliceBounds_strict notes b :
  b ∈ sliceBounds notes -> (fst b < snd b)%Q.
Proof.
  intros Hb. apply list_elem_of_lookup in Hb as [i Hi]. destruct b as [s e].
  apply adjacent_lookup in Hi as [Hs He].
  pose proof (js_sort_strict _ (timePointsOf_distinct notes)) as Hsorted.
  eapply (StronglySorted_lookup_lt Qlt); eauto.
Qed.

(** X10.  On an array of live notes [createTimeSlices] returns slices that
    tile the time line: every slice starts strictly before it ends, its
    [duration] is the difference, each slice ends where the next one
    starts, and every bound is the start or the end of a note.  There is
    one slice less than there are distinct time points, hence none when
    the notes have fewer than two of them. *)
Theorem createTimeSlices_tiles (h : Heap) (notes : ref) (ns : list ref) :
  arrays h !! notes = Some ns -> Forall (live h) ns ->
  exists slices h',
    createTimeSlices notes h = Returns slices h'
    /\ length slices = (length (timePointsOf (valuesOf h ns)) - 1)%nat
    /\ Forall (fun sl =>
                 (Slice.startTime sl < Slice.endTime sl)%Q
                 /\ Slice.duration sl = (Slice.endTime sl - Slice.startTime sl)%Q
                 /\ (exists n, n ∈ valuesOf h ns
                       /\ ((time n == Slice.startTime sl)%Q
                           \/ (time n + duration n == Slice.startTime sl)%Q))
                 /\ (exists n, n ∈ valuesOf h ns
                       /\ ((time n == Slice.endTime sl)%Q
                           \/ (time n + duration n == Slice.endTime sl)%Q)))
              slices
    /\ (forall i a b, slices !! i = Some a -> slices !! S i = Some b ->
                      Slice.endTime a = Slice.startTime b).
Proof.
  intros Hn Hlive.
  destruct (createTimeSlices_values h notes ns Hn Hlive)
    as (slices & k & Hrun & Hb & Hd & _ & _).
  eexists slices, _. split; [exact Hrun|].
  pose proof (sliceBounds_strict (valuesOf h ns)) as Hstrict.
  unfold sliceBounds in Hb, Hstrict.
  set (sorted := js_sort (fun a b => Qle_bool (a - b) 0)
                         (timePointsOf (valuesOf h ns))) in *.
  assert (Hperm : sorted ≡ₚ timePointsOf (valuesOf h ns)) by apply js_sort_perm.
  assert (Hbound : forall sl i, slices !! i = Some sl ->
            sorted !! i = Some (Slice.startTime sl)
            /\ sorted !! S i = Some (Slice.endTime sl)).
  { intros sl i Hi. apply adjacent_lookup.
    by rewrite <- Hb, list_lookup_fmap, Hi. }
  assert (Hpoint : forall t i, sorted !! i = Some t ->
            exists n, n ∈ valuesOf h ns
              /\ ((time n == t)%Q \/ (time n + duration n == t)%Q)).
  { intros t i Hi. apply timePointsOf_has. apply Exists_exists.
    exists t. split; [|reflexivity].
    rewrite <- Hperm. apply list_elem_of_lookup. eauto. }
  split; [|split].
  - rewrite <- (length_map (fun sl => (Slice.startTime sl, Slice.endTime sl))), Hb.
    by rewrite adjacent_length, Hperm.
  - apply Forall_lookup. intros i sl Hi.
    destruct (Hbound sl i Hi) as [Hs He]. split.
    { apply (Hstrict (Slice.startTime sl, Slice.endTime sl)).
      rewrite <- Hb. apply list_elem_of_fmap. exists sl. split; [done|].
      apply list_elem_of_lookup. eauto. }
    split; [by eapply Forall_lookup_1 in Hd|]. split; eauto.
  - intros i a b Ha Hb'. destruct (Hbound a i Ha) as [_ He].
    destruct (Hbound b (S i) Hb') as [Hs _]. congruence.
Qed.

Lemma createTimeSlices_tiles_witness :
  exists slices h',
    createTimeSlices 0%nat crowded_heap = Returns slices h'
    /\ length slices
       = (length (timePointsOf (valuesOf crowded_heap [0; 1; 2]%nat)) - 1)%nat
    /\ Forall (fun sl =>
                 (Slice.startTime sl < Slice.endTime sl)%Q
                 /\ Slice.duration sl = (Slice.endTime sl - Slice.startTime sl)%Q
                 /\ (exists n, n ∈ valuesOf crowded_heap [0; 1; 2]%nat
                       /\ ((time n == Slice.startTime sl)%Q
                           \/ (time n + duration n == Slice.startTime sl)%Q))
                 /\ (exists n, n ∈ valuesOf crowded_heap [0; 1; 2]%nat
                       /\ ((time n == Slice.endTime sl)%Q
                           \/ (time n + duration n == Slice.endTime sl)%Q)))
              slices
    /\ (forall i a b, slices !! i = Some a -> slices !! S i = Some b ->
                      Slice.endTime a = Slice.startTime b).
Proof.
  apply (createTimeSlices_tiles crowded_heap 0%nat [0; 1; 2]%nat).
  - reflexivity.
  - repeat constructor; unfold live; simpl; lia.
Defined.

(** X11.  [createTimeSlices] writes nothing that exists: it adds no object
    and one array per slice, after the arrays of the heap.  The array of
    the slice at position [i] is the one allocated at position [i], and it
    holds the references of the input array whose notes cover the slice
    (start at or before its start, end at or after its end), in the order
    of the input array. *)
Theorem createTimeSlices_containment (h : Heap) (notes : ref) (ns : list ref) :
  arrays h !! notes = Some ns -> Forall (live h) ns ->
  exists slices k,
    createTimeSlices notes h
    = Returns slices {| objects := objects h; arrays := arrays h ++ k |}
    /\ length k = length slices
    /\ forall i sl, slices !! i = Some sl ->
         Slice.notes sl = (length (arrays h) + i)%nat
         /\ exists ys, k !! i = Some ys
              /\ sublist ys ns
              /\ valuesOf h ys
                 = filter (fun n => coversb (Slice.startTime sl, Slice.endTime sl) n
                                    = true)
                          (valuesOf h ns).
Proof.
  intros Hn Hlive.
  destruct (createTimeSlices_values h notes ns Hn Hlive)
    as (slices & k & Hrun & Hb & _ & Hrefs & Hk).
  exists slices, k. split; [exact Hrun|].
  assert (Hlen : length k = length slices).
  { apply Forall2_length in Hk.
    by rewrite <- Hk, <- Hb, length_map. }
  split; [done|]. intros i sl Hi. split.
  - assert (Hr : map Slice.notes slices !! i = Some (Slice.notes sl))
      by by rewrite list_lookup_fmap, Hi.
    rewrite Hrefs in Hr. apply lookup_seq in Hr as [-> _]. done.
  - assert (Hbi : sliceBounds (valuesOf h ns) !! i
                  = Some (Slice.startTime sl, Slice.endTime sl))
      by by rewrite <- Hb, list_lookup_fmap, Hi.
    destruct (Forall2_lookup_l _ _ _ _ _ Hk Hbi) as (ys & Hys & Hsub & Hval).
    eauto.
Qed.

Lemma createTimeSlices_containment_witness :
  exists slices k,
    createTimeSlices 0%nat crowded_heap
    = Returns slices {| objects := objects crowded_heap;
                        arrays := arrays crowded_heap ++ k |}
    /\ length k = length slices
    /\ forall i sl, slices !! i = Some sl ->
         Slice.notes sl = (length (arrays crowded_heap) + i)%nat
         /\ exists ys, k !! i = Some ys
              /\ sublist ys [0; 1; 2]%nat
              /\ valuesOf crowded_heap ys
                 = filter (fun n => coversb (Slice.startTime sl, Slice.endTime sl) n
                                    = true)
                          (valuesOf crowded_heap [0; 1; 2]%nat).
Proof.
  apply (createTimeSlices_containment crowded_heap 0%nat [0; 1; 2]%nat).
  - reflexivity.
  - repeat constructor; unfold live; simpl; lia.
Defined.

(** ** The balancer on notes *)

Lemma valuesOf_objects h h' xs :
  objects h = objects h' -> valuesOf h xs = valuesOf h' xs.
Proof. unfold valuesOf. by intros ->. Qed.

Lemma valuesOf_Permutation h xs ys :
  xs ≡ₚ ys -> valuesOf h xs ≡ₚ valuesOf h ys.
Proof. unfold valuesOf. by intros ->. Qed.

Lemma valuesOf_elem h xs n :
  n ∈ valuesOf h xs <-> exists r, r ∈ xs /\ objects h !! r = Some n.
Proof. unfold valuesOf. apply list_elem_of_omap. Qed.

Lemma copyObject_value h r n :
  objects h !! r = Some n ->
  copyObject r h
  = Returns (length (objects h))
            {| objects := objects h ++ [n]; arrays := arrays h |}.
Proof. intros Hn. unfold copyObject, bind, readObject, newObject. by rewrite Hn. Qed.

Lemma mapM'_copyObject_values xs : forall h,
  Forall (live h) xs ->
  exists ns ys,
    mapM' copyObject xs h
    = Returns ys {| objects := objects h ++ ns; arrays := arrays h |}
    /\ Forall (fun r => r < length (objects h ++ ns))%nat ys
    /\ omap (fun r => (objects h ++ ns) !! r) ys = valuesOf h xs.
Proof.
  induction xs as [|x xs IH]; intros h Hlive.
  - exists [], []. simpl. unfold ret. rewrite app_nil_r. by destruct h.
  - apply Forall_cons in Hlive as [Hx Hxs].
    apply lookup_lt_is_Some in Hx as [n Hn].
    pose proof (copyObject_value h x n Hn) as Hrun.
    set (h1 := {| objects := objects h ++ [n]; arrays := arrays h |}) in *.
    assert (Hp : objects h `prefix_of` objects h1) by by apply prefix_app_r.
    destruct (IH h1) as (ns & ys & Hrun' & Hys & Hval).
    { eapply Forall_impl; [exact Hxs|]. intros r. by apply live_prefix. }
    exists (n :: ns), (length (objects h) :: ys). cbn [mapM'].
    rewrite (bind_Returns _ _ _ _ _ Hrun), (bind_Returns _ _ _ _ _ Hrun').
    unfold ret. subst h1. cbn [objects arrays] in *.
    rewrite <- !app_assoc in *. cbn [app] in *.
    split; [done|]. split.
    { constructor; [|done]. rewrite length_app. simpl. lia. }
    cbn [omap list_omap]. rewrite list_lookup_middle by done.
    rewrite valuesOf_cons, Hn. f_equal. etrans; [exact Hval|].
    apply (valuesOf_prefix h {| objects := objects h ++ [n]; arrays := arrays h |});
      [by apply prefix_app_r|done].
Qed.

Lemma array_map_values h a xs :
  arrays h !! a = Some xs -> Forall (live h) xs ->
  exists ns ys,
    array_map copyObject a h
    = Returns (length (arrays h))
              {| objects := objects h ++ ns; arrays := arrays h ++ [ys] |}
    /\ Forall (fun r => r < length (objects h ++ ns))%nat ys
    /\ omap (fun r => (objects h ++ ns) !! r) ys = valuesOf h xs.
Proof.
  intros Ha Hlive.
  destruct (mapM'_copyObject_values xs h Hlive) as (ns & ys & Hrun & Hys & Hval).
  exists ns, ys. split; [|done]. unfold array_map.
  rewrite (bind_Returns _ _ _ _ _ (readArray_run _ _ _ Ha)).
  by rewrite (bind_Returns _ _ _ _ _ Hrun).
Qed.

Lemma sameTimeAndPitch_value h note n r o :
  objects h !! note = Some n -> objects h !! r = Some o ->
  sameTimeAndPitch note r h = Returns (sameKey o n) h.
Proof.
  intros Hn Ho. unfold sameTimeAndPitch, bind, readObject. by rewrite Ho, Hn.
Qed.

Lemma someM_sameTimeAndPitch_values h note n zs :
  objects h !! note = Some n -> Forall (live h) zs ->
  someM (sameTimeAndPitch note) zs h
  = Returns (existsb (fun o => sameKey o n) (valuesOf h zs)) h.
Proof.
  intros Hn. induction 1 as [|z zs Hz _ IH]; cbn [someM]; [done|].
  apply lookup_lt_is_Some in Hz as [o Ho].
  rewrite (bind_Returns _ _ _ _ _ (sameTimeAndPitch_value h note n z o Hn Ho)).
  rewrite valuesOf_cons, Ho. simpl. destruct (sameKey o n); [done|]. exact IH.
Qed.

Lemma mergeNote_values h optimized note n zs :
  arrays h !! optimized = Some zs -> Forall (live h) zs ->
  objects h !! note = Some n ->
  exists ns zs',
    mergeNote optimized note h
    = Returns tt {| objects := objects h ++ ns;
                    arrays := <[optimized := zs']> (arrays h) |}
    /\ Forall (fun r => r < length (objects h ++ ns))%nat zs'
    /\ omap (fun r => (objects h ++ ns) !! r) zs' = mergeValue (valuesOf h zs) n.
Proof.
  intros Ho Hzs Hn.
  pose proof (someM_sameTimeAndPitch_values h note n zs Hn Hzs) as Hseen.
  unfold mergeNote, array_some.
  rewrite (bind_Returns _ _ h _ h)
    by (rewrite (bind_Returns _ _ _ _ _ (readArray_run _ _ _ Ho)); exact Hseen).
  unfold mergeValue. destruct (existsb _ _); simpl.
  - exists [], zs. unfold ret. rewrite app_nil_r, list_insert_id by done.
    split; [by destruct h|]. split; [done|]. reflexivity.
  - rewrite (bind_Returns _ _ _ _ _ (copyObject_value h note n Hn)).
    exists [n], (push zs (length (objects h))). unfold array_push.
    rewrite (bind_Returns _ _ _ zs _) by by apply readArray_run.
    rewrite (writeArray_run _ _ zs) by done. simpl. split; [done|].
    split.
    + rewrite length_app. simpl. apply Forall_app. split.
      * eapply Forall_impl; [exact Hzs|]. unfold live. intros. lia.
      * repeat constructor. lia.
    + unfold push. rewrite omap_app. simpl.
      rewrite list_lookup_middle by done. simpl. f_equal.
      apply (valuesOf_prefix h {| objects := objects h ++ [n]; arrays := arrays h |});
        [by apply prefix_app_r|done].
Qed.

Lemma forM_mergeNote_values optimized notes : forall h zs,
  arrays h !! optimized = Some zs -> Forall (live h) zs -> Forall (live h) notes ->
  exists ns zs',
    forM (mergeNote optimized) notes h
    = Returns tt {| objects := objects h ++ ns;
                    arrays := <[optimized := zs']> (arrays h) |}
    /\ Forall (fun r => r < length (objects h ++ ns))%nat zs'
    /\ omap (fun r => (objects h ++ ns) !! r) zs'
       = mergeValues (valuesOf h zs) (valuesOf h notes).
Proof.
  induction notes as [|note notes IH]; intros h zs Ho Hzs Hnotes; cbn [forM].
  - exists [], zs. unfold ret. rewrite app_nil_r, list_insert_id by done.
    split; [by destruct h|done].
  - apply Forall_cons in Hnotes as [Hnote Hnotes].
    apply lookup_lt_is_Some in Hnote as [n Hn].
    destruct (mergeNote_values h optimized note n zs Ho Hzs Hn)
      as (ns1 & zs1 & Hrun1 & Hzs1 & Hval1).
    set (h1 := {| objects := objects h ++ ns1;
                  arrays := <[optimized := zs1]> (arrays h) |}) in *.
    assert (Hp : objects h `prefix_of` objects h1) by by apply prefix_app_r.
    destruct (IH h1 zs1) as (ns2 & zs2 & Hrun2 & Hzs2 & Hval2).
    { simpl. apply list_lookup_insert_eq. by eapply lookup_lt_Some. }
    { done. }
    { eapply Forall_impl; [exact Hnotes|]. intros r. by apply live_prefix. }
    exists (ns1 ++ ns2), zs2.
    rewrite (bind_Returns _ _ _ _ _ Hrun1), Hrun2. subst h1.
    cbn [objects arrays] in *.
    rewrite list_insert_insert_eq, <- !app_assoc in *.
    split; [done|]. split; [done|].
    rewrite Hval2. rewrite (valuesOf_cons h), Hn. unfold mergeValues.
    cbn [fold_left]. f_equal; [|exact Hval1].
    apply (valuesOf_prefix h {| objects := objects h ++ ns1; arrays := arrays h |});
      [by apply prefix_app_r|done].
Qed.

Lemma array_forEach_mergeNote_values h optimized a notes zs :
  arrays h !! a = Some notes -> arrays h !! optimized = Some zs ->
  Forall (live h) zs -> Forall (live h) notes ->
  exists ns zs',
    array_forEach (mergeNote optimized) a h
    = Returns tt {| objects := objects h ++ ns;
                    arrays := <[optimized := zs']> (arrays h) |}
    /\ Forall (fun r => r < length (objects h ++ ns))%nat zs'
    /\ omap (fun r => (objects h ++ ns) !! r) zs'
       = mergeValues (valuesOf h zs) (valuesOf h notes).
Proof.
  intros Ha Ho Hzs Hnotes. unfold array_forEach.
  rewrite (bind_Returns _ _ _ _ _ (readArray_run _ _ _ Ha)).
  by apply forM_mergeNote_values.
Qed.

(** One slice, on the notes: the two subsets that are merged hold, between
    them, the notes of both hands that cover the slice; the left one is
    within its ceiling, and nothing moved when both were within theirs. *)
Lemma processSlice_values fuel config rc lc oR oL slice h cr cl zr zl :
  oR <> oL -> wellFormed h ->
  arrays h !! rc = Some cr -> arrays h !! lc = Some cl ->
  arrays h !! oR = Some zr -> arrays h !! oL = Some zl ->
  let b := (Slice.startTime slice, Slice.endTime slice) in
  let activeRight := filter (fun n => coversb b n = true) (valuesOf h cr) in
  let activeLeft := filter (fun n => coversb b n = true) (valuesOf h cl) in
  wp (fun e _ => e = ReduceOfEmpty
                 /\ (maxRightHandNotes config < 0 \/ maxLeftHandNotes config < 0))
     (fuel <= length cr + length cl)%nat
     (processSlice fuel config rc lc oR oL slice) h
     (fun _ h' =>
        wellFormed h' /\ changes_only oR oL h h'
        /\ exists zr' zl' A B,
             arrays h' !! oR = Some zr' /\ arrays h' !! oL = Some zl'
             /\ A ++ B ≡ₚ activeRight ++ activeLeft
             /\ Z.of_nat (length B) <= maxLeftHandNotes config
             /\ (Z.of_nat (length activeRight) <= maxRightHandNotes config ->
                 Z.of_nat (length activeLeft) <= maxLeftHandNotes config ->
                 A = activeRight /\ B = activeLeft)
             /\ valuesOf h' zr' = mergeValues (valuesOf h zr) A
             /\ valuesOf h' zl' = mergeValues (valuesOf h zl) B).
Proof.
  intros Hne Hwf Hrc Hlc HoR HoL b activeRight activeLeft.
  subst b activeRight activeLeft. unfold processSlice.
  set (s := Slice.startTime slice) in *. set (e := Slice.endTime slice) in *.
  destruct (array_filter_values h s e rc cr Hrc (Hwf _ _ Hrc))
    as (xs & Hsubx & Hvalx & Hrun1).
  set (sr := length (arrays h)) in *.
  set (h1 := {| objects := objects h; arrays := arrays h ++ [xs] |}) in *.
  assert (Hwf1 : wellFormed h1).
  { apply wellFormed_newArray; [done|]. eapply sublist_Forall; eauto. }
  assert (Hlc1 : arrays h1 !! lc = Some cl) by by apply lookup_app_l_Some.
  destruct (array_filter_values h1 s e lc cl Hlc1 (Hwf1 _ _ Hlc1))
    as (ys & Hsuby & Hvaly & Hrun2).
  change (valuesOf h ys
          = filter (fun n => coversb (s, e) n = true) (valuesOf h cl)) in Hvaly.
  set (sl := length (arrays h1)) in *.
  set (h2 := {| objects := objects h1; arrays := arrays h1 ++ [ys] |}) in *.
  assert (Hwf2 : wellFormed h2).
  { apply wellFormed_newArray; [done|]. eapply sublist_Forall; eauto. }
  assert (Hsl : sl = S sr).
  { unfold sl, sr, h1. simpl. rewrite length_app. simpl. lia. }
  assert (Hsr2 : arrays h2 !! sr = Some xs).
  { unfold h2, h1. simpl. apply lookup_app_l_Some. by apply list_lookup_middle. }
  assert (Hsl2 : arrays h2 !! sl = Some ys).
  { unfold h2. simpl. by apply list_lookup_middle. }
  assert (Hch2 : changes_only oR oL h h2).
  { eapply changes_only_trans; apply changes_only_newArray. }
  assert (Hnone : forall a, (sr <= a)%nat -> arrays h !! a = None).
  { intros a Ha. by apply lookup_ge_None. }
  assert (HoR_lt : (oR < sr)%nat) by by eapply lookup_lt_Some.
  assert (HoL_lt : (oL < sr)%nat) by by eapply lookup_lt_Some.
  assert (Hlx : Forall (live h) xs) by (eapply sublist_Forall; eauto).
  assert (Hly : Forall (live h) ys) by (eapply sublist_Forall; eauto).
  apply wp_bind. unfold wp at 1. rewrite Hrun1.
  apply wp_bind. unfold wp at 1. rewrite Hrun2.
  apply wp_bind.
  eapply wp_mono; [| | |apply (rebalance_wp config fuel h2 sr sl xs ys)];
    try done.
  - simpl. intros _ h3 (xs' & ys' & -> & Hperm & Hleft & _ & _ & Hsame).
    assert (Hlive3 : Forall (live h) (xs' ++ ys')).
    { rewrite Hperm. by apply Forall_app. }
    apply Forall_app in Hlive3 as [Hxs' Hys'].
    set (h3 := with_subsets h2 sr sl xs' ys') in *.
    assert (Hwf3 : wellFormed h3) by by apply wellFormed_subsets.
    assert (Hch3 : changes_only oR oL h h3).
    { apply changes_only_subsets; [done|apply Hnone; lia..]. }
    destruct (with_subsets_lookup h2 sr sl xs' ys' _ _ ltac:(lia) Hsr2 Hsl2)
      as [Hsr3 Hsl3]. fold h3 in Hsr3, Hsl3.
    assert (Hkeep3 : forall o zs, arrays h !! o = Some zs -> arrays h3 !! o = Some zs).
    { intros o zs Ho. apply lookup_lt_Some in Ho as Hlt. fold sr in Hlt.
      unfold h3, with_subsets, h2, h1. simpl.
      rewrite !list_lookup_insert_ne by lia. by do 2 apply lookup_app_l_Some. }
    pose proof (Hkeep3 _ _ HoR) as HoR3.
    destruct (array_forEach_mergeNote_values h3 oR sr xs' zr Hsr3 HoR3
                (Hwf3 _ _ HoR3) Hxs')
      as (ns4 & zr4 & Hrun4 & Hzr4 & Hval4).
    set (h4 := {| objects := objects h3 ++ ns4;
                  arrays := <[oR := zr4]> (arrays h3) |}) in *.
    assert (Hwf4 : wellFormed h4) by by apply wellFormed_merge.
    assert (Hch34 : changes_only oR oL h3 h4) by (apply changes_only_merge; auto).
    assert (Hp4 : objects h `prefix_of` objects h4) by by apply prefix_app_r.
    assert (Hsl4 : arrays h4 !! sl = Some ys').
    { apply (proj2 (proj2 Hch34)); [done|lia|lia]. }
    assert (HoL4 : arrays h4 !! oL = Some zl).
    { unfold h4. simpl. rewrite list_lookup_insert_ne by done. by apply Hkeep3. }
    destruct (array_forEach_mergeNote_values h4 oL sl ys' zl Hsl4 HoL4
                (Hwf4 _ _ HoL4))
      as (ns5 & zl5 & Hrun5 & Hzl5 & Hval5).
    { eapply Forall_impl; [exact Hys'|]. intros r. by apply live_prefix. }
    apply wp_bind. unfold wp at 1. rewrite Hrun4.
    unfold wp. rewrite Hrun5. split; [by apply wellFormed_merge|]. split.
    { eapply changes_only_trans; [exact Hch3|].
      eapply changes_only_trans; [exact Hch34|].
      apply changes_only_merge. auto. }
    exists zr4, zl5, (valuesOf h xs'), (valuesOf h ys').
    cbn [objects arrays].
    assert (HoR4 : arrays h4 !! oR = Some zr4).
    { unfold h4. simpl. apply list_lookup_insert_eq.
      apply lookup_lt_Some in HoR3. done. }
    split. { rewrite list_lookup_insert_ne by done. exact HoR4. }
    split. { apply list_lookup_insert_eq. by eapply lookup_lt_Some. }
    split.
    { rewrite <- !valuesOf_app.
      rewrite <- Hvalx, <- Hvaly, <- valuesOf_app.
      by apply valuesOf_Permutation. }
    split. { by rewrite valuesOf_live. }
    split.
    { rewrite <- Hvalx, <- Hvaly, !valuesOf_live by done.
      intros Hx Hy. by destruct (Hsame Hx Hy) as [-> ->]. }
    split.
    + transitivity (valuesOf h4 zr4).
      { apply (valuesOf_prefix h4 {| objects := objects h4 ++ ns5;
                                     arrays := arrays h4 |});
          [by apply prefix_app_r|exact Hzr4]. }
      exact Hval4.
    + etrans; [exact Hval5|]. f_equal.
      * apply valuesOf_prefix; [done|]. by eapply Hwf.
      * by apply valuesOf_prefix.
  - apply sublist_length in Hsubx, Hsuby. lia.
  - lia.
  - apply Forall_app. split; by eapply Hwf2.
Qed.

Lemma forM_processSlice_values fuel config rc lc oR oL cr cl right left slices :
  forall h bounds zr zl,
  rc <> oR -> rc <> oL -> lc <> oR -> lc <> oL -> oR <> oL ->
  wellFormed h ->
  arrays h !! rc = Some cr -> arrays h !! lc = Some cl ->
  valuesOf h cr = right -> valuesOf h cl = left ->
  arrays h !! oR = Some zr -> arrays h !! oL = Some zl ->
  balanced right left (maxRightHandNotes config) (maxLeftHandNotes config)
           bounds (valuesOf h zr) (valuesOf h zl) ->
  wp (fun e _ => e = ReduceOfEmpty
                 /\ (maxRightHandNotes config < 0 \/ maxLeftHandNotes config < 0))
     (fuel <= length cr + length cl)%nat
     (forM (processSlice fuel config rc lc oR oL) slices) h
     (fun _ h' =>
        exists zr' zl',
          arrays h' !! oR = Some zr' /\ arrays h' !! oL = Some zl'
          /\ balanced right left (maxRightHandNotes config) (maxLeftHandNotes config)
               (bounds ++ map (fun sl => (Slice.startTime sl, Slice.endTime sl)) slices)
               (valuesOf h' zr') (valuesOf h' zl')).
Proof.
  induction slices as [|slice slices IH];
    intros h bounds zr zl H1 H2 H3 H4 H5 Hwf Hrc Hlc Hright Hleft HoR HoL Hbal;
    cbn [forM map].
  - unfold wp, ret. exists zr, zl. by rewrite app_nil_r.
  - apply wp_bind.
    eapply wp_mono;
      [| | |by apply (processSlice_values fuel config rc lc oR oL slice h cr cl zr zl)];
      try done.
    cbn beta zeta.
    intros _ h1 (Hwf1 & Hch1 & zr1 & zl1 & A & B & HoR1 & HoL1 & Hperm & Hlen
                 & Hsame & HvalR & HvalL).
    pose proof Hch1 as (Hp & _ & Hkeep).
    assert (Hrc1 : arrays h1 !! rc = Some cr) by by apply Hkeep.
    assert (Hlc1 : arrays h1 !! lc = Some cl) by by apply Hkeep.
    rewrite Hright, Hleft in Hperm, Hsame.
    eapply wp_mono; [| | |apply (IH h1 (bounds ++ [(Slice.startTime slice,
                                                     Slice.endTime slice)]) zr1 zl1)];
      try done.
    + cbn beta. intros _ h2 (zr2 & zl2 & HoR2 & HoL2 & Hbal2).
      exists zr2, zl2. by rewrite <- app_assoc in Hbal2.
    + rewrite <- Hright. apply valuesOf_prefix; [done|by eapply Hwf].
    + rewrite <- Hleft. apply valuesOf_prefix; [done|by eapply Hwf].
    + rewrite HvalR, HvalL. by apply balanced_slice.
Qed.

(** The whole balancer, on the notes. *)
Lemma optimizeSimultaneousNotes_values fuel rightHand leftHand config h xsR xsL :
  wellFormed h ->
  arrays h !! rightHand = Some xsR -> arrays h !! leftHand = Some xsL ->
  wp (fun e _ => e = ReduceOfEmpty
                 /\ (maxRightHandNotes config < 0 \/ maxLeftHandNotes config < 0))
     (fuel <= length xsR + length xsL)%nat
     (optimizeSimultaneousNotes fuel rightHand leftHand config) h
     (fun hands h' =>
        balanced (valuesOf h xsR) (valuesOf h xsL)
                 (maxRightHandNotes config) (maxLeftHandNotes config)
                 (sliceBounds (valuesOf h xsR ++ valuesOf h xsL))
                 (notes_at h' (fst hands)) (notes_at h' (snd hands))).
Proof.
  intros Hwf HR HL. unfold optimizeSimultaneousNotes.
  destruct (array_map_values h rightHand xsR HR (Hwf _ _ HR))
    as (ns1 & cr & Hrun1 & Hcr & Hval1).
  set (rc := length (arrays h)) in *.
  set (h1 := {| objects := objects h ++ ns1; arrays := arrays h ++ [cr] |}) in *.
  assert (Hwf1 : wellFormed h1) by (apply wellFormed_alloc; [done|by repeat constructor]).
  assert (HL1 : arrays h1 !! leftHand = Some xsL) by by apply lookup_app_l_Some.
  destruct (array_map_values h1 leftHand xsL HL1 (Hwf1 _ _ HL1))
    as (ns2 & cl & Hrun2 & Hcl & Hval2).
  set (lc := length (arrays h1)) in *.
  set (h2 := {| objects := objects h1 ++ ns2; arrays := arrays h1 ++ [cl] |}) in *.
  assert (Hwf2 : wellFormed h2) by (apply wellFormed_alloc; [done|by repeat constructor]).
  assert (Hrc2 : arrays h2 !! rc = Some cr).
  { unfold h2, h1. simpl. apply lookup_app_l_Some. by apply list_lookup_middle. }
  assert (Hlc2 : arrays h2 !! lc = Some cl).
  { unfold h2. simpl. by apply list_lookup_middle. }
  assert (Hright : valuesOf h2 cr = valuesOf h xsR).
  { rewrite <- Hval1. apply (valuesOf_prefix h1 h2); [by apply prefix_app_r|done]. }
  assert (Hleft : valuesOf h2 cl = valuesOf h xsL).
  { etrans; [exact Hval2|]. apply valuesOf_prefix; [by apply prefix_app_r|].
    by eapply Hwf. }
  pose proof (array_concat_run h2 rc lc cr cl Hrc2 Hlc2) as Hrun3.
  set (allNotes := length (arrays h2)) in *.
  set (h3 := {| objects := objects h2; arrays := arrays h2 ++ [cr ++ cl] |}) in *.
  assert (Hwf3 : wellFormed h3).
  { apply wellFormed_newArray; [done|]. apply Forall_app. split; by eapply Hwf2. }
  assert (Hall3 : arrays h3 !! allNotes = Some (cr ++ cl)).
  { unfold h3. simpl. by apply list_lookup_middle. }
  destruct (createTimeSlices_values h3 allNotes (cr ++ cl) Hall3 (Hwf3 _ _ Hall3))
    as (slices & k & Hrun4 & Hbounds & _ & _ & Hk).
  change (valuesOf h3 (cr ++ cl)) with (valuesOf h2 (cr ++ cl)) in Hbounds.
  rewrite valuesOf_app, Hright, Hleft in Hbounds.
  set (h4 := {| objects := objects h3; arrays := arrays h3 ++ k |}) in *.
  assert (Hwf4 : wellFormed h4).
  { intros a xs Ha. unfold h4 in Ha. simpl in Ha.
    apply lookup_app_Some in Ha as [Ha|[_ Ha]]; [by eapply Hwf3|].
    destruct (Forall2_lookup_r _ _ _ _ _ Hk Ha) as (b & _ & Hsub & _).
    eapply sublist_Forall; [exact Hsub|]. by eapply Hwf3. }
  set (oR := length (arrays h4)).
  set (h5 := {| objects := objects h4; arrays := arrays h4 ++ [[]] |}).
  set (oL := length (arrays h5)).
  set (h6 := {| objects := objects h5; arrays := arrays h5 ++ [[]] |}).
  assert (Hwf6 : wellFormed h6) by by repeat apply wellFormed_newArray.
  assert (Hsizes : (rc < lc /\ lc < oR /\ oR < oL)%nat).
  { unfold oL, oR, lc, rc, h5, h4, h3, h2, h1. simpl.
    rewrite !length_app. simpl. lia. }
  assert (Hrc6 : arrays h6 !! rc = Some cr).
  { unfold h6, h5, h4, h3. simpl. by do 4 apply lookup_app_l_Some. }
  assert (Hlc6 : arrays h6 !! lc = Some cl).
  { unfold h6, h5, h4, h3. simpl. by do 4 apply lookup_app_l_Some. }
  assert (HoR6 : arrays h6 !! oR = Some []).
  { unfold h6. simpl. apply lookup_app_l_Some. by apply list_lookup_middle. }
  assert (HoL6 : arrays h6 !! oL = Some []).
  { unfold h6. simpl. by apply list_lookup_middle. }
  apply wp_bind. unfold wp at 1. rewrite Hrun1.
  apply wp_bind. unfold wp at 1. rewrite Hrun2.
  apply wp_bind. unfold wp at 1. rewrite Hrun3.
  apply wp_bind. unfold wp at 1. rewrite Hrun4.
  apply wp_bind. unfold wp at 1, newArray. fold h4 oR h5.
  apply wp_bind. unfold wp at 1, newArray. fold oL h6.
  apply wp_bind.
  eapply wp_mono;
    [| | |apply (forM_processSlice_values fuel config rc lc oR oL cr cl
                   (valuesOf h xsR) (valuesOf h xsL) slices h6 [] [] [])];
    try done; try lia.
  - cbn beta. intros _ h7 (zr & zl & HoR7 & HoL7 & Hbal).
    unfold wp, ret. cbn [fst snd]. unfold notes_at. rewrite HoR7, HoL7.
    rewrite app_nil_l, Hbounds in Hbal. exact Hbal.
  - assert (HlenR : length cr = length xsR).
    { rewrite <- (valuesOf_live h2 cr), Hright by by eapply Hwf2.
      apply valuesOf_live. by eapply Hwf. }
    assert (HlenL : length cl = length xsL).
    { rewrite <- (valuesOf_live h2 cl), Hleft by by eapply Hwf2.
      apply valuesOf_live. by eapply Hwf. }
    lia.
  - constructor.
Qed.

(** ** Merging on notes *)




Lemma existsb_sameKey_false optimized n :
  existsb (fun o => sameKey o n) optimized = false
  <-> Forall (fun o => sameKey o n = false) optimized.
Proof.
  induction optimized as [|o l IH]; simpl; [by split; [constructor|]|].
  rewrite orb_false_iff, Forall_cons, IH. tauto.
Qed.

Lemma mergeValue_elem optimized n w :
  w ∈ mergeValue optimized n -> w ∈ optimized \/ w = n.
Proof.
  unfold mergeValue, push. destruct (existsb _ _); [by left|].
  rewrite elem_of_app, list_elem_of_singleton. tauto.
Qed.



Lemma distinctKeys_snoc l n :
  distinctKeys l -> Forall (fun o => sameKey o n = false) l -> distinctKeys (l ++ [n]).
Proof.
  induction l as [|o l IH]; simpl; [by repeat constructor|].
  intros [Ho Hl] Hn. apply Forall_cons in Hn as [Hon Hn]. split; [|by apply IH].
  apply Forall_app. split; [done|]. by repeat constructor.
Qed.

Lemma mergeValue_distinct optimized n :
  distinctKeys optimized -> distinctKeys (mergeValue optimized n).
Proof.
  intros Hd. unfold mergeValue, push. destruct (existsb _ _) eqn:E; [done|].
  apply distinctKeys_snoc; [done|]. by apply existsb_sameKey_false.
Qed.

Lemma mergeValues_elem new : forall optimized w,
  w ∈ mergeValues optimized new -> w ∈ optimized \/ w ∈ new.
Proof.
  unfold mergeValues. induction new as [|n new IH]; intros optimized w; simpl.
  - by left.
  - intros [Hw|Hw]%IH; [|right; by right].
    apply mergeValue_elem in Hw as [Hw| ->]; [by left|right; by left].
Qed.



Lemma mergeValues_distinct new : forall optimized,
  distinctKeys optimized -> distinctKeys (mergeValues optimized new).
Proof.
  unfold mergeValues. induction new as [|n new IH]; intros optimized Hd; simpl.
  - done.
  - by apply IH, mergeValue_distinct.
Qed.



Lemma elem_of_covering b (notes : list Note) n :
  n ∈ filter (fun n => coversb b n = true) notes <-> coversb b n = true /\ n ∈ notes.
Proof. by rewrite list_elem_of_filter. Qed.

(** ** What [balanced] lists hold *)

Lemma balanced_elem right left maxRight maxLeft bounds R L :
  balanced right left maxRight maxLeft bounds R L ->
  forall w, w ∈ R ++ L ->
    w ∈ right ++ left /\ exists b, b ∈ bounds /\ coversb b w = true.
Proof.
  induction 1 as [|bounds b R L A B _ IH Hperm _ _]; intros w Hw.
  - by apply elem_of_nil in Hw.
  - assert (Hcases : w ∈ R ++ L \/ w ∈ A ++ B).
    { apply elem_of_app in Hw as [Hw|Hw]; apply mergeValues_elem in Hw;
        rewrite !elem_of_app; tauto. }
    destruct Hcases as [Hold|Hnew].
    + destruct (IH w Hold) as (Hin & b' & Hb' & Hc). split; [done|].
      exists b'. split; [|done]. apply elem_of_app. by left.
    + rewrite Hperm in Hnew.
      assert (Hc : coversb b w = true /\ w ∈ right ++ left).
      { apply elem_of_app in Hnew as [Hnew|Hnew];
          apply elem_of_covering in Hnew as [Hc Hin];
          (split; [done|]); apply elem_of_app; auto. }
      destruct Hc as [Hc Hin]. split; [done|]. exists b. split; [|done].
      apply elem_of_app. right. by apply list_elem_of_singleton.
Qed.

Lemma balanced_distinct right left maxRight maxLeft bounds R L :
  balanced right left maxRight maxLeft bounds R L ->
  distinctKeys R /\ distinctKeys L.
Proof.
  induction 1 as [|bounds b R L A B _ [HR HL] _ _ _]; [done|].
  split; by apply mergeValues_distinct.
Qed.


Lemma mergeSlices_snoc notes bounds b :
  mergeSlices notes (bounds ++ [b])
  = mergeValues (mergeSlices notes bounds)
                (filter (fun n => coversb b n = true) notes).
Proof. unfold mergeSlices. by rewrite fold_left_app. Qed.

Lemma balanced_within right left maxRight maxLeft bounds R L :
  balanced right left maxRight maxLeft bounds R L ->
  withinCeilings right left maxRight maxLeft bounds ->
  R = mergeSlices right bounds /\ L = mergeSlices left bounds.
Proof.
  unfold withinCeilings.
  induction 1 as [|bounds b R L A B _ IH _ _ Hsame]; intros Hwithin; [done|].
  apply Forall_app in Hwithin as [Hbounds Hb].
  apply Forall_singleton in Hb as [HbR HbL].
  destruct (IH Hbounds) as [-> ->]. destruct (Hsame HbR HbL) as [-> ->].
  by rewrite !mergeSlices_snoc.
Qed.

Lemma mergeSlices_elem notes bounds w : w ∈ mergeSlices notes bounds -> w ∈ notes.
Proof.
  induction bounds as [|b bounds IH] using rev_ind.
  - intros Hw. by apply elem_of_nil in Hw.
  - rewrite mergeSlices_snoc. intros [Hw|Hw]%mergeValues_elem; [by apply IH|].
    by apply elem_of_covering in Hw as [_ Hw].
Qed.




(** ** Slices and sounding notes *)

(** A note that covers a slice of positive length has a positive
    duration. *)
Lemma coversb_duration b n :
  coversb b n = true -> (fst b < snd b)%Q -> (0 < duration n)%Q.
Proof.
  unfold coversb. intros [H1 H2]%andb_true_iff Hb.
  apply Qle_bool_iff in H1, H2. lra.
Qed.



(** ** The balancer returns balanced lists *)

Lemma optimizeSimultaneousNotes_balanced fuel rightHand leftHand config h xsR xsL :
  wellFormed h ->
  arrays h !! rightHand = Some xsR -> arrays h !! leftHand = Some xsL ->
  0 <= maxRightHandNotes config -> 0 <= maxLeftHandNotes config ->
  (length xsR + length xsL < fuel)%nat ->
  exists optimizedRight optimizedLeft h',
    optimizeSimultaneousNotes fuel rightHand leftHand config h
    = Returns (optimizedRight, optimizedLeft) h'
    /\ balanced (valuesOf h xsR) (valuesOf h xsL)
                (maxRightHandNotes config) (maxLeftHandNotes config)
                (sliceBounds (valuesOf h xsR ++ valuesOf h xsL))
                (notes_at h' optimizedRight) (notes_at h' optimizedLeft).
Proof.
  intros Hwf HR HL HmaxR HmaxL Hfuel.
  pose proof (optimizeSimultaneousNotes_values fuel rightHand leftHand config
                h xsR xsL Hwf HR HL) as Hwp.
  apply wp_Returns in Hwp as ([r l] & h' & Hrun & Hbal); [|lia|].
  - by exists r, l, h'.
  - intros e h' [_ ?]. lia.
Qed.

Lemma notes_at_values h a xs : arrays h !! a = Some xs -> notes_at h a = valuesOf h xs.
Proof. intros Ha. unfold notes_at, valuesOf. by rewrite Ha. Qed.

(** X12.  Every note that the balancer returns, in either hand, is equal
    to a note of one of the two input hands, and it has a positive
    duration: a note whose duration is zero or negative covers no slice and
    is dropped. *)
Theorem optimizeSimultaneousNotes_keeps_sounding_notes
  (fuel : nat) (rightHand leftHand : ref) (config : Config) (h : Heap)
  (xsR xsL : list ref) :
  wellFormed h ->
  arrays h !! rightHand = Some xsR -> arrays h !! leftHand = Some xsL ->
  0 <= maxRightHandNotes config -> 0 <= maxLeftHandNotes config ->
  (length xsR + length xsL < fuel)%nat ->
  exists optimizedRight optimizedLeft h',
    optimizeSimultaneousNotes fuel rightHand leftHand config h
    = Returns (optimizedRight, optimizedLeft) h'
    /\ forall n, n ∈ notes_at h' optimizedRight ++ notes_at h' optimizedLeft ->
         n ∈ notes_at h rightHand ++ notes_at h leftHand /\ (0 < duration n)%Q.
Proof.
  intros Hwf HR HL HmaxR HmaxL Hfuel.
  destruct (optimizeSimultaneousNotes_balanced fuel rightHand leftHand config
              h xsR xsL Hwf HR HL HmaxR HmaxL Hfuel) as (r & l & h' & Hrun & Hbal).
  exists r, l, h'. split; [exact Hrun|]. intros n Hn.
  rewrite (notes_at_values h rightHand xsR HR), (notes_at_values h leftHand xsL HL).
  destruct (balanced_elem _ _ _ _ _ _ _ Hbal n Hn) as (Hin & b & Hb & Hc).
  split; [done|]. apply (coversb_duration b); [done|].
  by apply sliceBounds_strict in Hb.
Qed.

Lemma optimizeSimultaneousNotes_keeps_sounding_notes_witness :
  exists optimizedRight optimizedLeft h',
    optimizeSimultaneousNotes 5 0%nat 1%nat (sample_config 2 3) crowded_input
    = Returns (optimizedRight, optimizedLeft) h'
    /\ forall n, n ∈ notes_at h' optimizedRight ++ notes_at h' optimizedLeft ->
         n ∈ notes_at crowded_input 0%nat ++ notes_at crowded_input 1%nat
         /\ (0 < duration n)%Q.
Proof.
  apply (optimizeSimultaneousNotes_keeps_sounding_notes
           5 0%nat 1%nat (sample_config 2 3) crowded_input [0; 1; 2]%nat [3%nat]).
  - apply wellFormed_heap_of.
  - reflexivity.
  - reflexivity.
  - simpl. lia.
  - simpl. lia.
  - simpl. lia.
Defined.

(** X13.  In each hand that the balancer returns, no two notes have the
    same start time and the same pitch: of the input notes that share both,
    one hand keeps at most one. *)
Theorem optimizeSimultaneousNotes_no_duplicates
  (fuel : nat) (rightHand leftHand : ref) (config : Config) (h : Heap)
  (xsR xsL : list ref) :
  wellFormed h ->
  arrays h !! rightHand = Some xsR -> arrays h !! leftHand = Some xsL ->
  0 <= maxRightHandNotes config -> 0 <= maxLeftHandNotes config ->
  (length xsR + length xsL < fuel)%nat ->
  exists optimizedRight optimizedLeft h',
    optimizeSimultaneousNotes fuel rightHand leftHand config h
    = Returns (optimizedRight, optimizedLeft) h'
    /\ distinctKeys (notes_at h' optimizedRight)
    /\ distinctKeys (notes_at h' optimizedLeft).
Proof.
  intros Hwf HR HL HmaxR HmaxL Hfuel.
  destruct (optimizeSimultaneousNotes_balanced fuel rightHand leftHand config
              h xsR xsL Hwf HR HL HmaxR HmaxL Hfuel) as (r & l & h' & Hrun & Hbal).
  exists r, l, h'. split; [exact Hrun|]. by eapply balanced_distinct.
Qed.

Lemma optimizeSimultaneousNotes_no_duplicates_witness :
  exists optimizedRight optimizedLeft h',
    optimizeSimultaneousNotes 5 0%nat 1%nat (sample_config 2 3) crowded_input
    = Returns (optimizedRight, optimizedLeft) h'
    /\ distinctKeys (notes_at h' optimizedRight)
    /\ distinctKeys (notes_at h' optimizedLeft).
Proof.
  apply (optimizeSimultaneousNotes_no_duplicates
           5 0%nat 1%nat (sample_config 2 3) crowded_input [0; 1; 2]%nat [3%nat]).
  - apply wellFormed_heap_of.
  - reflexivity.
  - reflexivity.
  - simpl. lia.
  - simpl. lia.
  - simpl. lia.
Defined.



(** X15.  When no slice has more covering notes in a hand than the hand's
    ceiling allows, no note changes hands: each returned hand is built from
    the notes of its own input hand alone, by merging, slice after slice,
    the notes that cover the slice. *)
Theorem optimizeSimultaneousNotes_within_ceilings
  (fuel : nat) (rightHand leftHand : ref) (config : Config) (h : Heap)
  (xsR xsL : list ref) :
  wellFormed h ->
  arrays h !! rightHand = Some xsR -> arrays h !! leftHand = Some xsL ->
  0 <= maxRightHandNotes config -> 0 <= maxLeftHandNotes config ->
  (length xsR + length xsL < fuel)%nat ->
  withinCeilings (notes_at h rightHand) (notes_at h leftHand)
                 (maxRightHandNotes config) (maxLeftHandNotes config)
                 (sliceBounds (notes_at h rightHand ++ notes_at h leftHand)) ->
  exists optimizedRight optimizedLeft h',
    optimizeSimultaneousNotes fuel rightHand leftHand config h
    = Returns (optimizedRight, optimizedLeft) h'
    /\ notes_at h' optimizedRight
       = mergeSlices (notes_at h rightHand)
                     (sliceBounds (notes_at h rightHand ++ notes_at h leftHand))
    /\ notes_at h' optimizedLeft
       = mergeSlices (notes_at h leftHand)
                     (sliceBounds (notes_at h rightHand ++ notes_at h leftHand))
    /\ (forall n, n ∈ notes_at h' optimizedRight -> n ∈ notes_at h rightHand)
    /\ (forall n, n ∈ notes_at h' optimizedLeft -> n ∈ notes_at h leftHand).
Proof.
  intros Hwf HR HL HmaxR HmaxL Hfuel.
  rewrite (notes_at_values h rightHand xsR HR), (notes_at_values h leftHand xsL HL).
  intros Hwithin.
  destruct (optimizeSimultaneousNotes_balanced fuel rightHand leftHand config
              h xsR xsL Hwf HR HL HmaxR HmaxL Hfuel) as (r & l & h' & Hrun & Hbal).
  exists r, l, h'. split; [exact Hrun|].
  destruct (balanced_within _ _ _ _ _ _ _ Hbal Hwithin) as [HeqR HeqL].
  split; [done|]. split; [done|].
  rewrite HeqR, HeqL. split; intros n; apply mergeSlices_elem.
Qed.


Lemma optimizeSimultaneousNotes_within_ceilings_witness :
  exists optimizedRight optimizedLeft h',
    optimizeSimultaneousNotes 5 0%nat 1%nat (sample_config 3 1) crowded_input
    = Returns (optimizedRight, optimizedLeft) h'
    /\ notes_at h' optimizedRight
       = mergeSlices (notes_at crowded_input 0%nat)
           (sliceBounds (notes_at crowded_input 0%nat ++ notes_at crowded_input 1%nat))
    /\ notes_at h' optimizedLeft
       = mergeSlices (notes_at crowded_input 1%nat)
           (sliceBounds (notes_at crowded_input 0%nat ++ notes_at crowded_input 1%nat))
    /\ (forall n, n ∈ notes_at h' optimizedRight -> n ∈ notes_at crowded_input 0%nat)
    /\ (forall n, n ∈ notes_at h' optimizedLeft -> n ∈ notes_at crowded_input 1%nat).
Proof.
  apply (optimizeSimultaneousNotes_within_ceilings
           5 0%nat 1%nat (sample_config 3 1) crowded_input [0; 1; 2]%nat [3%nat]).
  - apply wellFormed_heap_of.
  - reflexivity.
  - reflexivity.
  - simpl. lia.
  - simpl. lia.
  - simpl. lia.
  - repeat constructor; vm_compute; discriminate.
Defined.


(** ** The sizes of the two subsets after both passes *)

Lemma wp_and {A} E T (m : M A) h (Q1 Q2 : A -> Heap -> Prop) :
  wp E T m h Q1 -> wp (fun _ _ => True) True m h Q2 ->
  wp E T m h (fun a h' => Q1 a h' /\ Q2 a h').
Proof. unfold wp. destruct (m h); tauto. Qed.

Section PassLength.
Variable sign : Z.
Variable pick : ref -> ref -> M ref.
Hypothesis pick_choose :
  forall h a b, live h a -> live h b -> pick a b h = Returns (choose sign h a b) h.

(** A loop stops as soon as the subset is within the ceiling: it leaves the
    smaller of the size it found and the ceiling. *)
Lemma shrink_length ceiling from to fuel : forall h xs ys,
  arrays h !! from = Some xs -> arrays h !! to = Some ys ->
  from <> to -> Forall (live h) xs ->
  wp (fun _ _ => True) True
     (while fuel (exceeds from ceiling) (moveNote pick from to)) h
     (fun _ h' => exists xs',
        arrays h' !! from = Some xs'
        /\ Z.of_nat (length xs') = Z.min (Z.of_nat (length xs)) ceiling).
Proof.
  induction fuel as [|fuel IH]; intros h xs ys Hf Ht Hne Hlive.
  - by unfold wp.
  - simpl. apply wp_bind. unfold wp at 1. rewrite (exceeds_run _ _ _ _ Hf).
    destruct (Z.gtb_spec (Z.of_nat (length xs)) ceiling) as [Hgt|Hle].
    + apply wp_bind. destruct xs as [|x rest].
      { unfold wp. by rewrite (moveNote_empty _ _ _ _ Hf). }
      destruct (moveNote_run sign pick pick_choose h from to x rest ys Hf Ht Hne Hlive)
        as (i & Hi & _ & Hrun).
      unfold wp at 1. rewrite Hrun.
      destruct (with_subsets_lookup h from to (delete i (x :: rest))
                  (push ys (fold_left (choose sign h) rest x)) _ _ Hne Hf Ht)
        as [Hf1 Ht1].
      eapply wp_mono; [| | |apply (IH _ _ _ Hf1 Ht1 Hne)].
      * cbn beta. intros _ h' (xs' & Hxs' & Hlen). exists xs'. split; [done|].
        rewrite length_delete in Hlen by eauto. simpl length in *. lia.
      * done.
      * done.
      * by apply Forall_delete.
    + unfold wp, ret. exists xs. split; [done|]. lia.
Qed.

End PassLength.

Lemma rebalance_sizes config fuel h sr sl xs ys :
  arrays h !! sr = Some xs -> arrays h !! sl = Some ys ->
  sr <> sl -> Forall (live h) (xs ++ ys) ->
  wp (fun e _ => e = ReduceOfEmpty
                 /\ (maxRightHandNotes config < 0 \/ maxLeftHandNotes config < 0))
     (fuel <= length xs + length ys)%nat
     (rebalance fuel config sr sl) h
     (fun _ h' => exists xs' ys',
        h' = with_subsets h sr sl xs' ys'
        /\ xs' ++ ys' ≡ₚ xs ++ ys
        /\ exists moved,
             Z.of_nat moved = Z.of_nat (length xs)
                              - Z.min (Z.of_nat (length xs)) (maxRightHandNotes config)
             /\ Z.of_nat (length ys')
                = Z.min (Z.of_nat (length ys + moved)) (maxLeftHandNotes config)).
Proof.
  intros Hr Hl Hne Hlive. unfold rebalance. apply wp_bind.
  apply Forall_app in Hlive as Hlive'. destruct Hlive' as [Hlx Hly].
  eapply wp_mono;
    [| | |apply wp_and;
          [apply (shrink_wp 1 lowerNote lowerNote_choose _ sr sl fuel h xs ys)
          |apply (shrink_length 1 lowerNote lowerNote_choose
                    (maxRightHandNotes config) sr sl fuel h xs ys)]];
    try done; [|simpl; tauto|lia].
  cbn beta. intros _ h1 [(xs1 & ys1 & -> & Hperm1 & Hlen1 & Hid1) (xs1' & Hxs1' & Hsize1)].
  destruct (with_subsets_lookup h sr sl xs1 ys1 _ _ Hne Hr Hl) as [Hr1 Hl1].
  rewrite Hr1 in Hxs1'. injection Hxs1' as <-.
  assert (Hlive1 : Forall (live h) (xs1 ++ ys1)) by by rewrite Hperm1.
  apply Forall_app in Hlive1 as [_ Hly1].
  assert (Hsize : (length xs1 + length ys1 = length xs + length ys)%nat).
  { rewrite <- !length_app. by rewrite Hperm1. }
  eapply wp_mono;
    [| | |apply wp_and;
          [apply (shrink_wp (-1) higherNote higherNote_choose _ sl sr fuel _ ys1 xs1)
          |apply (shrink_length (-1) higherNote higherNote_choose
                    (maxLeftHandNotes config) sl sr fuel _ ys1 xs1)]];
    try done; [|simpl; tauto|lia].
  cbn beta. intros _ h2 [(ys2 & xs2 & -> & Hperm2 & Hlen2 & Hid2) (ys2' & Hys2' & Hsize2)].
  destruct (with_subsets_lookup (with_subsets h sr sl xs1 ys1) sl sr ys2 xs2 ys1 xs1)
    as [Hl2 _]; [done..|].
  rewrite Hl2 in Hys2'. injection Hys2' as <-.
  exists xs2, ys2. split; [by apply with_subsets_swap|].
  split.
  { rewrite <- Hperm1. rewrite (comm (++) xs1). rewrite <- Hperm2. apply (comm (++)). }
  exists (length xs - length xs1)%nat. split; [lia|].
  rewrite Hsize2. f_equal. lia.
Qed.

(** X17.  With ceilings that are not negative and enough fuel, the two
    passes on a slice return, and they only move notes between the two
    subsets: together the subsets hold the same notes as before.  When the
    slice has at most [maxRightHandNotes + maxLeftHandNotes] notes, both
    subsets end within their ceilings.  When it has more, the left subset
    ends with exactly [maxLeftHandNotes] notes and the right subset, which
    holds all the others, ends above its ceiling. *)
Theorem rebalance_fills_left_first
  (config : Config) (fuel : nat) (h : Heap) (sr sl : ref) (xs ys : list ref) :
  arrays h !! sr = Some xs -> arrays h !! sl = Some ys ->
  sr <> sl -> Forall (live h) (xs ++ ys) ->
  0 <= maxRightHandNotes config -> 0 <= maxLeftHandNotes config ->
  (length xs + length ys < fuel)%nat ->
  exists xs' ys',
    rebalance fuel config sr sl h = Returns tt (with_subsets h sr sl xs' ys')
    /\ xs' ++ ys' ≡ₚ xs ++ ys
    /\ (Z.of_nat (length xs + length ys)
        <= maxRightHandNotes config + maxLeftHandNotes config ->
        Z.of_nat (length xs') <= maxRightHandNotes config
        /\ Z.of_nat (length ys') <= maxLeftHandNotes config)
    /\ (maxRightHandNotes config + maxLeftHandNotes config
        < Z.of_nat (length xs + length ys) ->
        Z.of_nat (length ys') = maxLeftHandNotes config
        /\ maxRightHandNotes config < Z.of_nat (length xs')).
Proof.
  intros Hr Hl Hne Hlive HmaxR HmaxL Hfuel.
  pose proof (rebalance_sizes config fuel h sr sl xs ys Hr Hl Hne Hlive) as Hwp.
  apply wp_Returns in Hwp as ([] & h' & Hrun & xs' & ys' & -> & Hperm & moved & Hmoved & Hlen);
    [|lia|intros e h' [_ ?]; lia].
  exists xs', ys'. split; [exact Hrun|]. split; [exact Hperm|].
  assert (Hsize : (length xs' + length ys' = length xs + length ys)%nat).
  { rewrite <- !length_app. by rewrite Hperm. }
  split; intros Htotal; lia.
Qed.

Lemma rebalance_fills_left_first_witness :
  exists xs' ys',
    rebalance 5 (sample_config 1 1) 0%nat 1%nat crowded_heap
    = Returns tt (with_subsets crowded_heap 0%nat 1%nat xs' ys')
    /\ xs' ++ ys' ≡ₚ [0; 1; 2]%nat ++ [3%nat]
    /\ (Z.of_nat (length [0; 1; 2]%nat + length [3%nat])
        <= maxRightHandNotes (sample_config 1 1) + maxLeftHandNotes (sample_config 1 1) ->
        Z.of_nat (length xs') <= maxRightHandNotes (sample_config 1 1)
        /\ Z.of_nat (length ys') <= maxLeftHandNotes (sample_config 1 1))
    /\ (maxRightHandNotes (sample_config 1 1) + maxLeftHandNotes (sample_config 1 1)
        < Z.of_nat (length [0; 1; 2]%nat + length [3%nat]) ->
        Z.of_nat (length ys') = maxLeftHandNotes (sample_config 1 1)
        /\ maxRightHandNotes (sample_config 1 1) < Z.of_nat (length xs')).
Proof.
  apply (rebalance_fills_left_first (sample_config 1 1) 5 crowded_heap 0%nat 1%nat
           [0; 1; 2]%nat [3%nat]).
  - reflexivity.
  - reflexivity.
  - lia.
  - repeat constructor; unfold live; simpl; lia.
  - simpl. lia.
  - simpl. lia.
  - simpl. lia.
Defined.

(** ** From the parsed file to the written tracks *)





